(** * solid-rock-hb: the apparatus-document pipeline

    A shallow embedding of the TEI collation pipeline of [src/py]:
    [tei_segmenter], [tei_collation_editor], [tei_collator] (the omission
    pass of [collate]), [tei_normalizer] ([format_text], [strip_plene]) and
    [tei_labeler].

    Conventions.
    - An lxml element is a value of [element]: tag in Clark notation
      ([{namespace}local]), attributes in insertion order, text, children
      and tail.
    - Tags and attribute values are Rocq strings, one character per code
      point (code points below 256); element text is a list of Unicode code
      points ([ustring]), since the transcriptions are Hebrew.
    - A Python exception is a value of [exn]; a method that can raise
      returns a [result]. *)

From Stdlib Require Import String Ascii List ZArith Lia Bool DecimalString DecimalPos DecimalZ.
From stdpp Require Import base option list strings gmap.
Import ListNotations.

Set Warnings "-clear-no-such-hyp".

Local Open Scope string_scope.
Local Open Scope list_scope.

(** ** Exceptions and results *)

Inductive exn : Type :=
| IndexError
| KeyError
| AttributeError
| TypeError
| ValueError.

Inductive result (A : Type) : Type :=
| Ok (a : A)
| Raise (e : exn).

Arguments Ok {A} a.
Arguments Raise {A} e.

Definition rbind {A B : Type} (m : result A) (k : A -> result B) : result B :=
  match m with
  | Ok a => k a
  | Raise e => Raise e
  end.

Notation "x <- m ;; k" := (rbind m (fun x => k))
  (at level 100, m at next level, right associativity).

Definition of_option {A : Type} (e : exn) (o : option A) : result A :=
  match o with
  | Some a => Ok a
  | None => Raise e
  end.

(** ** Python strings *)

(** Text content: a sequence of Unicode code points. *)
Definition ustring : Type := list N.

Definition ustr (s : string) : ustring :=
  map N_of_ascii (list_ascii_of_string s).

(** [str.isspace] on one character of a tag or attribute value. *)
Definition is_space (c : ascii) : bool :=
  let n := nat_of_ascii c in
  (((9 <=? n) && (n <=? 13)) || ((28 <=? n) && (n <=? 32))
   || (n =? 133) || (n =? 160))%nat.

(** [str.isspace] on one code point. *)
Definition is_uspace (c : N) : bool :=
  (((9 <=? c) && (c <=? 13)) || ((28 <=? c) && (c <=? 32))
   || (c =? 133) || (c =? 160) || (c =? 5760)
   || ((8192 <=? c) && (c <=? 8202)) || (c =? 8232) || (c =? 8233)
   || (c =? 8239) || (c =? 8287) || (c =? 12288))%N.

(** [s.split()] with no argument: the maximal runs of non-blank
    characters.  [cur] is the word being read, in reverse. *)
Fixpoint split_ws_go {C : Type} (sp : C -> bool) (cur : list C) (s : list C)
  : list (list C) :=
  match s with
  | [] => match cur with [] => [] | _ => [rev cur] end
  | c :: s' =>
      if sp c
      then match cur with
           | [] => split_ws_go sp [] s'
           | _ => rev cur :: split_ws_go sp [] s'
           end
      else split_ws_go sp (c :: cur) s'
  end.

Definition usplit (s : ustring) : list ustring := split_ws_go is_uspace [] s.

Definition split (s : string) : list string :=
  map string_of_list_ascii (split_ws_go is_space [] (list_ascii_of_string s)).

(** [sep.join(l)]. *)
Fixpoint join (sep : string) (l : list string) : string :=
  match l with
  | [] => ""
  | [x] => x
  | x :: l' => x +:+ sep +:+ join sep l'
  end.

Fixpoint ujoin (sep : ustring) (l : list ustring) : ustring :=
  match l with
  | [] => []
  | [x] => x
  | x :: l' => x ++ sep ++ ujoin sep l'
  end.

(** [s.replace(old, '')] for a non-empty [old]: every occurrence of [old],
    scanning from the left, is deleted.  [skip] counts the characters of a
    matched occurrence still to be dropped. *)
Fixpoint remove_all_go (old : string) (skip : nat) (s : string) : string :=
  match s with
  | EmptyString => EmptyString
  | String c s' =>
      match skip with
      | S k => remove_all_go old k s'
      | O =>
          if String.prefix old s
          then remove_all_go old (String.length old - 1) s'
          else String c (remove_all_go old 0 s')
      end
  end.

Definition remove_all (old s : string) : string := remove_all_go old 0 s.

(** ** Elements *)

Local Unset Elimination Schemes.
Inductive element : Type :=
| Element (tag : string) (attrib : list (string * string))
          (text : option ustring) (children : list element)
          (tail : option ustring).
Local Set Elimination Schemes.

Definition tag (e : element) : string :=
  match e with Element t _ _ _ _ => t end.
Definition attrib (e : element) : list (string * string) :=
  match e with Element _ a _ _ _ => a end.
Definition text (e : element) : option ustring :=
  match e with Element _ _ x _ _ => x end.
Definition children (e : element) : list element :=
  match e with Element _ _ _ cs _ => cs end.
Definition tail (e : element) : option ustring :=
  match e with Element _ _ _ _ tl => tl end.

Definition tei_ns : string := "http://www.tei-c.org/ns/1.0".
Definition xml_ns : string := "http://www.w3.org/XML/1998/namespace".

(** [{%s}name % tei_ns]. *)
Definition tei (name : string) : string := "{" +:+ tei_ns +:+ "}" +:+ name.

(** [tag.replace('{%s}' % self.tei_ns, '')]. *)
Definition raw_tag (t : string) : string :=
  remove_all ("{" +:+ tei_ns +:+ "}") t.

(** [el.get(name)]. *)
Fixpoint get_attr (a : list (string * string)) (name : string) : option string :=
  match a with
  | [] => None
  | (k, v) :: a' => if String.eqb k name then Some v else get_attr a' name
  end.

Definition get (e : element) (name : string) : option string :=
  get_attr (attrib e) name.

(** [el.set(name, value)]: an attribute that exists keeps its place. *)
Fixpoint set_attr (a : list (string * string)) (name value : string)
  : list (string * string) :=
  match a with
  | [] => [(name, value)]
  | (k, v) :: a' =>
      if String.eqb k name then (k, value) :: a'
      else (k, v) :: set_attr a' name value
  end.

Definition set (e : element) (name value : string) : element :=
  match e with
  | Element t a x cs tl => Element t (set_attr a name value) x cs tl
  end.

(** [et.Element(tag)] and [append]. *)
Definition new_element (t : string) : element := Element t [] None [] None.

Definition append (e c : element) : element :=
  match e with
  | Element t a x cs tl => Element t a x (cs ++ [c]) tl
  end.

Definition extend (e : element) (l : list element) : element :=
  match e with
  | Element t a x cs tl => Element t a x (cs ++ l) tl
  end.

(** ** XPath *)

(** The proper descendants of an element, in document order. *)
Fixpoint descendants (e : element) : list element :=
  match e with
  | Element _ _ _ cs _ =>
      (fix go (l : list element) : list element :=
         match l with
         | [] => []
         | c :: l' => c :: descendants c ++ go l'
         end) cs
  end.

Definition descendants_list (l : list element) : list element :=
  flat_map (fun c => c :: descendants c) l.

Definition is_tei (name : string) (e : element) : bool :=
  String.eqb (tag e) (tei name).

(** [e.xpath('.//tei:name')]. *)
Definition xpath_desc (name : string) (e : element) : list element :=
  filter (fun d => is_tei name d = true) (descendants e).

(** [tree.xpath('//tei:name')]: the root element counts. *)
Definition xpath_all (name : string) (root : element) : list element :=
  filter (fun d => is_tei name d = true) (root :: descendants root).

(** [e.xpath('.//tei:divGen[@type=\'seg\']')]. *)
Definition is_seg_marker (e : element) : bool :=
  is_tei "divGen" e &&
  match get e "type" with
  | Some v => String.eqb v "seg"
  | None => false
  end.

Definition seg_markers (e : element) : list element :=
  filter (fun d => is_seg_marker d = true) (descendants e).

(** ** tei_segmenter *)

Module tei_segmenter.

(** [prefix_tags]: tags segmented with the next tag rather than the
    preceding one. *)
Definition prefix_tags : gset string := {[ "divGen" ]}.

(** [str(n)] for the non-negative counters of [substantive_indices]. *)
Definition str_nat (n : nat) : string :=
  DecimalString.NilZero.string_of_uint (Nat.to_uint n).

(** The local variables of [segment] while it scans the body. *)
Record scan : Type := Scan {
  segmented_body : list element;
  substantive_indices : gmap string nat;
  segment_elements : list element;
  segment_type : string;
  segment_n : string;
  pos : Z
}.

Definition scan_init : scan :=
  Scan [] ∅ [] "" "" 1%Z.

(** The [seg] element that seals the queue. *)
Definition seal (ty n : string) (queue : list element) : element :=
  extend (set (set (new_element (tei "seg")) "type" ty) "n" n) queue.

(** One iteration of [for child in body.getchildren()]. *)
Definition step (ignored_tag_set : gset string) (st : scan) (child : element)
  : scan :=
  let raw := raw_tag (tag child) in
  let substantive := negb (bool_decide (raw ∈ ignored_tag_set)) in
  (* the child's positioning value and the updated counters *)
  let indices :=
    if substantive
    then match substantive_indices st !! raw with
         | None => <[raw := 0%nat]> (substantive_indices st)
         | Some k => <[raw := S k]> (substantive_indices st)
         end
    else substantive_indices st in
  let index_of_raw := str_nat (default 0%nat (indices !! raw)) in
  let child_pos : Z :=
    (if substantive then 0
     else if bool_decide (raw ∈ prefix_tags) then 1 else -1)%Z in
  let '(ty, n) :=
    if substantive && String.eqb (segment_type st) ""
    then (raw, index_of_raw)
    else (segment_type st, segment_n st) in
  if (pos st <? child_pos)%Z || ((child_pos =? 0)%Z && (pos st =? 0)%Z)
  then
    let '(ty', n') := if substantive then (raw, index_of_raw) else ("", "") in
    Scan (segmented_body st ++ [seal ty n (segment_elements st)])
         indices [child] ty' n' child_pos
  else
    Scan (segmented_body st) indices (segment_elements st ++ [child])
         ty n child_pos.

(** [segment]: the children of the body that replaces the old one.  The
    queue left in [segment_elements] when the loop ends is not sealed. *)
Definition segment (ignored_tag_set : gset string) (body : list element)
  : list element :=
  segmented_body (fold_left (step ignored_tag_set) body scan_init).

(** [desegment]: the children of the body that replaces the old one. *)
Definition desegment (body : list element) : list element :=
  flat_map
    (fun child =>
       if String.eqb (raw_tag (tag child)) "seg"
       then children child
       else [child])
    body.

End tei_segmenter.


(** ** tei_collation_editor *)

(** [for x in l: ...] where the body can raise; the results in order. *)
Section Traverse.
Context {A B : Type} (f : A -> result B).
Fixpoint traverse (l : list A) : result (list B) :=
  match l with
  | [] => Ok []
  | a :: l' => b <- f a ;; bs <- traverse l' ;; Ok (b :: bs)
  end.
End Traverse.

(** The children of the body of a document:
    [xml.xpath('//tei:text')[0].xpath('.//tei:body')[0]]. *)
Definition find_text (xml : element) : result element :=
  of_option IndexError (head (xpath_all "text" xml)).

Definition find_body (xml : element) : result element :=
  text <- find_text xml ;;
  of_option IndexError (head (xpath_desc "body" text)).

Module tei_collation_editor.

(** The line [validate] prints for a reading that disagrees with the
    lemma. *)
Definition mismatch_message (app_n : string) : string :=
  "The apparatus with index " +:+ app_n +:+
  " has a reading with a different number of segment division markers than the lemma.".

(** The inner loop of [validate] over the readings of one apparatus;
    the state is the flag [valid] and the lines printed so far. *)
Definition validate_rdg (app_n : string) (n_segs : nat)
  (st : bool * list string) (rdg : element) : bool * list string :=
  if negb (length (seg_markers rdg) =? n_segs)%nat
  then (false, snd st ++ [mismatch_message app_n])
  else st.

(** The outer loop of [validate]: the lines printed, and the value
    returned or the exception raised. *)
Fixpoint validate_apps (apps : list element) (st : bool * list string)
  : list string * result bool :=
  match apps with
  | [] => (snd st, Ok (fst st))
  | app :: apps' =>
      let app_n := default "" (get app "n") in
      match xpath_desc "lem" app with
      | [] => (snd st, Raise IndexError)
      | lem :: _ =>
          let n_segs := length (seg_markers lem) in
          validate_apps apps'
            (fold_left (validate_rdg app_n n_segs) (xpath_desc "rdg" app) st)
      end
  end.

Definition validate (xml : element) : list string * result bool :=
  validate_apps (xpath_all "app" xml) (true, []).

(** [get_witnesses]: the [id] attribute of every [witness] element of the
    document, [None] where it is missing. *)
Definition get_witnesses (xml : element) : result (list (option string)) :=
  listWit <- of_option IndexError (head (xpath_all "listWit" xml)) ;;
  Ok (map (fun witness => get witness "id") (xpath_all "witness" xml)).

(** The root that the projections start from: a [TEI] element holding a
    [text] element with the attributes of the original one and, under it,
    the new body. *)
Definition projection (text : element) (body_children : list element)
  : element :=
  let text' :=
    fold_left
      (fun t attr => set t attr (default "" (get text attr)))
      (map fst (attrib text)) (new_element (tei "text")) in
  append (new_element (tei "TEI"))
         (append text' (extend (new_element (tei "body")) body_children)).

(** What one child of the body contributes to the lemma projection. *)
Definition lemma_child (child : element) : result (list element) :=
  if String.eqb (raw_tag (tag child)) "app"
  then lem <- of_option IndexError (head (xpath_desc "lem" child)) ;;
       Ok (children lem)
  else Ok [child].

Definition get_lemma_xml (xml : element) : result element :=
  text <- find_text xml ;;
  body <- of_option IndexError (head (xpath_desc "body" text)) ;;
  parts <- traverse lemma_child (children body) ;;
  Ok (projection text (concat parts)).

(** The search [for rdg in child.xpath('.//tei:rdg')] of [get_witness_xml]:
    the first reading whose [wit] attribute lists the reference, [None]
    when the loop ends without a [break]. *)
Fixpoint find_wit_rdg (wit : option string) (rdgs : list element)
  : result (option element) :=
  match rdgs with
  | [] => Ok None
  | rdg :: rdgs' =>
      wit_ref <- match wit with
                 | Some w => Ok ("#" +:+ w)
                 | None => Raise TypeError
                 end ;;
      refs <- of_option AttributeError (get rdg "wit") ;;
      if bool_decide (wit_ref ∈ split refs)
      then Ok (Some rdg)
      else find_wit_rdg wit rdgs'
  end.

(** What one child of the body contributes to the projection of [wit];
    the reading defaults to a new, empty [rdg]. *)
Definition witness_child (wit : option string) (child : element)
  : result (list element) :=
  if String.eqb (raw_tag (tag child)) "app"
  then found <- find_wit_rdg wit (xpath_desc "rdg" child) ;;
       let wit_rdg := default (new_element (tei "rdg")) found in
       Ok (children wit_rdg)
  else Ok [child].

Definition get_witness_xml (xml : element) (wit : option string)
  : result element :=
  text <- find_text xml ;;
  body <- of_option IndexError (head (xpath_desc "body" text)) ;;
  parts <- traverse (witness_child wit) (children body) ;;
  Ok (projection text (concat parts)).

(** [segment]: the children of the body that replaces the old one.  The
    state is the new body and the segment being filled. *)
Definition is_seg_divGen (child : element) : bool :=
  String.eqb (raw_tag (tag child)) "divGen" &&
  match get child "type" with
  | Some ty => String.eqb ty "seg"
  | None => false
  end.

Definition segment_step (st : list element * element) (child : element)
  : list element * element :=
  if is_seg_divGen child
  then (fst st ++ [snd st], new_element (tei "seg"))
  else (fst st, append (snd st) child).

Definition segment (body : list element) : list element :=
  let st := fold_left segment_step body ([], new_element (tei "seg")) in
  fst st ++ [snd st].

(** [xml.xpath('//tei:seg')] on a projection whose body has been
    segmented in place. *)
Definition segmented (projection_xml : element) : result (list element) :=
  body <- find_body projection_xml ;;
  Ok (filter (fun d => is_tei "seg" d = true)
             (descendants_list (segment (children body)))).

Section UpdateBoundaries.

(** [et.tostring(_, encoding='unicode')]. *)
Variable tostring : element -> string.

(** The loop [for wit in witnesses] at segment index [i]: the segments
    that open a group, in the order the groups are discovered, and the
    witnesses that support each serialization. *)
Fixpoint group_witnesses (i : nat)
  (xml_by_witness : list (option string * list element))
  (rdg_segs : list element)
  (reading_support : gmap string (list (option string)))
  : result (list element * gmap string (list (option string))) :=
  match xml_by_witness with
  | [] => Ok (rdg_segs, reading_support)
  | (wit, segs) :: rest =>
      witness_seg <- of_option IndexError (segs !! i) ;;
      let s := tostring witness_seg in
      match reading_support !! s with
      | None =>
          group_witnesses i rest (rdg_segs ++ [witness_seg])
                          (<[s := [wit]]> reading_support)
      | Some wits =>
          group_witnesses i rest rdg_segs
                          (<[s := wits ++ [wit]]> reading_support)
      end
  end.

(** [['#' + wit for wit in reading_support[s]]]. *)
Definition wit_refs (wits : list (option string)) : result (list string) :=
  traverse (fun wit => match wit with
                   | Some w => Ok ("#" +:+ w)
                   | None => Raise TypeError
                   end) wits.

(** The [rdg] built for the group that [rdg_seg] opened. *)
Definition make_rdg (reading_support : gmap string (list (option string)))
  (rdg_seg : element) : result element :=
  wits <- of_option KeyError (reading_support !! tostring rdg_seg) ;;
  refs <- wit_refs wits ;;
  Ok (extend (set (new_element (tei "rdg")) "wit" (join " " refs))
             (children rdg_seg)).

(** What segment index [i] adds to the updated body. *)
Definition update_segment
  (xml_by_witness : list (option string * list element))
  (i : nat) (lem_seg : element) : result (list element) :=
  grouped <- group_witnesses i xml_by_witness [] ∅ ;;
  let '(rdg_segs, reading_support) := grouped in
  if (size reading_support =? 1)%nat
  then Ok (children lem_seg)
  else
    let lem := extend (new_element (tei "lem")) (children lem_seg) in
    rdgs <- traverse (make_rdg reading_support) rdg_segs ;;
    Ok [extend (append (new_element (tei "app")) lem) rdgs].

(** [update_boundaries]: the children of the body that replaces the old
    one.  Every projection is a tree of its own, so emptying a segment
    when its content is moved into the updated body is not seen by any
    later lookup, as long as no segment holds a [seg] element in its
    content. *)
Definition update_boundaries (xml : element) : result (list element) :=
  witnesses <- get_witnesses xml ;;
  lemma_xml <- get_lemma_xml xml ;;
  lem_segs <- segmented lemma_xml ;;
  xml_by_witness <-
    traverse (fun wit =>
            witness_xml <- get_witness_xml xml wit ;;
            segs <- segmented witness_xml ;;
            Ok (wit, segs))
         witnesses ;;
  parts <- traverse (fun p => update_segment xml_by_witness (fst p) (snd p))
                (imap pair lem_segs) ;;
  Ok (concat parts).

End UpdateBoundaries.

End tei_collation_editor.

(** ** Vocabulary of the statements *)

(** The lemma reading of an apparatus: its first [lem] descendant. *)
Definition lem_of (app : element) : option element :=
  head (xpath_desc "lem" app).



(** Whether the [wit] attribute of a reading lists the reference of
    witness [w]. *)
Definition supports (w : string) (rdg : element) : bool :=
  match get rdg "wit" with
  | Some refs => bool_decide ("#" +:+ w ∈ split refs)
  | None => false
  end.

(** The first reading under an apparatus that supports [w]. *)
Definition witness_reading (w : string) (app : element) : option element :=
  find (supports w) (xpath_desc "rdg" app).

(** What a child of the body gives to the projection of [w]: for an
    apparatus the content of the first reading supporting [w], nothing
    when no reading does; any other element itself. *)
Definition witness_part (w : string) (child : element) : list element :=
  if String.eqb (raw_tag (tag child)) "app"
  then match witness_reading w child with
       | Some rdg => children rdg
       | None => []
       end
  else [child].

(** Grouping the witnesses at one segment index.  A row pairs each
    witness, in the order of the witness list, with its segment. *)
Section Groups.

Variable tostring : element -> string.

(** The segments that open a group, in the order of discovery; [seen]
    holds the serializations met before. *)
Fixpoint discovered (seen : list string) (row : list (string * element))
  : list element :=
  match row with
  | [] => []
  | (w, seg) :: row' =>
      if bool_decide (tostring seg ∈ seen)
      then discovered seen row'
      else seg :: discovered (tostring seg :: seen) row'
  end.

(** The witnesses of a row whose segment serializes to [s], in the order
    of the witness list. *)
Definition supporters (s : string) (row : list (string * element))
  : list string :=
  map fst (filter (fun p => tostring (snd p) = s) row).

(** The reading of the group that [rep] opened. *)
Definition group_rdg (row : list (string * element)) (rep : element)
  : element :=
  Element (tei "rdg")
          [("wit", join " " (map (fun w => "#" +:+ w)
                                 (supporters (tostring rep) row)))]
          None (children rep) None.

(** The apparatus for a row with the lemma segment [lem_seg]. *)
Definition group_app (row : list (string * element)) (lem_seg : element)
  : element :=
  Element (tei "app") [] None
          (Element (tei "lem") [] None (children lem_seg) None
           :: map (group_rdg row) (discovered [] row))
          None.

(** What the spec asks at one segment index: the lemma content when the
    row falls into exactly one group, an apparatus otherwise. *)
Definition rebuilt (row : list (string * element)) (lem_seg : element)
  : list element :=
  match discovered [] row with
  | [_] => children lem_seg
  | _ => [group_app row lem_seg]
  end.

End Groups.

(** The children of the segmented body of a projection. *)
Definition lemma_segments (body : list element) : result (list element) :=
  parts <- traverse tei_collation_editor.lemma_child body ;;
  Ok (tei_collation_editor.segment (concat parts)).

Definition witness_segments (body : list element) (w : string)
  : result (list element) :=
  parts <- traverse (tei_collation_editor.witness_child (Some w)) body ;;
  Ok (tei_collation_editor.segment (concat parts)).

(** The readings of the apparatuses among [body] all carry [wit]. *)
Definition readings_attributed (body : list element) : Prop :=
  Forall (fun child =>
            raw_tag (tag child) = "app" ->
            Forall (fun rdg => is_Some (get rdg "wit")) (xpath_desc "rdg" child))
         body.

(** No element below the children of a body is a [seg] element. *)
Definition no_seg (body : list element) : Prop :=
  Forall (fun d => is_tei "seg" d = false) (descendants_list body).

(** The row of segment index [i]: each witness with its [i]-th segment. *)
Definition row_at (i : nat) (xml_by_witness : list (string * list element))
  : list (string * element) :=
  omap (fun p => (fun seg => (fst p, seg)) <$> snd p !! i) xml_by_witness.

(** The table [reading_support] after one more witness of a row. *)
Definition add_support (tostring : element -> string)
  (reading_support : gmap string (list (option string)))
  (p : string * element) : gmap string (list (option string)) :=
  <[tostring (snd p) :=
      default [] (reading_support !! tostring (snd p)) ++ [Some (fst p)]]>
    reading_support.

(** The witness identifiers as [get_witnesses] returns them. *)
Definition lift_wit (p : string * list element) : option string * list element :=
  (Some (fst p), snd p).

(** ** tei_collator: the omission pass of [collate] *)

Module tei_collator.

(** A token of the interchange format: formatted and normalized form. *)
Record token : Type := Token { t : string; n : ustring }.

(** The fields of a collator that the pass reads. *)
Record collator : Type := Collator {
  level : string;
  lemma : string;
  witnesses : list string;
  tokens_by_witness : gmap string (gmap string (list token))
}.

(** A child of the collation that opens a textual division at the
    grouping level. *)
Definition is_division (self : collator) (child : element) : bool :=
  String.eqb (raw_tag (tag child)) "milestone"
  && match get child "unit" with
     | Some unit =>
         bool_decide (unit ∈ [level self; "incipit"; "explicit"])
     | None => false
     end
  && match get child "n" with
     | Some _ => true
     | None => false
     end.

(** The witnesses extant at division [div_n], in the order of
    [self.witnesses]. *)
Fixpoint extant_at (self : collator) (div_n : string) (ws : list string)
  : result (list string) :=
  match ws with
  | [] => Ok []
  | witness :: ws' =>
      extant_divs <- of_option KeyError (tokens_by_witness self !! witness) ;;
      rest <- extant_at self div_n ws' ;;
      Ok (if bool_decide (is_Some (extant_divs !! div_n))
          then witness :: rest else rest)
  end.

(** [uncovered_witnesses.remove(witness)] for each reference of one
    [wit] attribute. *)
Fixpoint remove_refs (uncovered : gset string) (refs : list string)
  : result (gset string) :=
  match refs with
  | [] => Ok uncovered
  | wit_ref :: refs' =>
      let witness := remove_all "#" wit_ref in
      if bool_decide (witness ∈ uncovered)
      then remove_refs (uncovered ∖ {[ witness ]}) refs'
      else Raise KeyError
  end.

(** The loop over the readings of an apparatus. *)
Fixpoint remove_covered (uncovered : gset string) (rdgs : list element)
  : result (gset string) :=
  match rdgs with
  | [] => Ok uncovered
  | rdg :: rdgs' =>
      refs <- of_option AttributeError (get rdg "wit") ;;
      uncovered' <- remove_refs uncovered (split refs) ;;
      remove_covered uncovered' rdgs'
  end.

(** [child[0].addprevious(omit_rdg)]. *)
Definition add_first (child omit_rdg : element) : result element :=
  match child with
  | Element tg a x [] tl => Raise IndexError
  | Element tg a x cs tl => Ok (Element tg a x (omit_rdg :: cs) tl)
  end.

(** What the pass does to an apparatus, given the witnesses extant at
    its division. *)
Definition cover (self : collator) (extant_witnesses : list string)
  (child : element) : result element :=
  uncovered_witnesses <-
    remove_covered (list_to_set extant_witnesses) (xpath_desc "rdg" child) ;;
  if (size uncovered_witnesses =? 0)%nat
  then Ok child
  else
    let omit_rdg_wits :=
      map (fun witness => "#" +:+ witness)
          (filter (fun witness => witness ∈ uncovered_witnesses)
                  (witnesses self)) in
    let omit_rdg :=
      set (new_element (tei "rdg")) "wit" (join " " omit_rdg_wits) in
    let lemma_ref := "#" +:+ lemma self in
    if bool_decide (lemma_ref ∈ omit_rdg_wits)
    then add_first child omit_rdg
    else Ok (append child omit_rdg).

(** The second loop of [collate] over the children of the collation;
    [extant_witnesses] is the list in force. *)
Fixpoint add_omissions (self : collator) (extant_witnesses : list string)
  (collation : list element) : result (list element) :=
  match collation with
  | [] => Ok []
  | child :: rest =>
      if is_division self child
      then
        extant <- extant_at self (default "" (get child "n")) (witnesses self) ;;
        rest' <- add_omissions self extant rest ;;
        Ok (child :: rest')
      else if String.eqb (raw_tag (tag child)) "app"
      then
        child' <- cover self extant_witnesses child ;;
        rest' <- add_omissions self extant_witnesses rest ;;
        Ok (child' :: rest')
      else
        rest' <- add_omissions self extant_witnesses rest ;;
        Ok (child :: rest')
  end.

(** The children of [collation_xml] when [collate] returns, given the
    children that the collation engine produced. *)
Definition collate_omissions (self : collator) (collation : list element)
  : result (list element) :=
  add_omissions self [] collation.

End tei_collator.

(** The witnesses that readings refer to. *)
Definition covered_by (rdgs : list element) : list string :=
  flat_map (fun rdg => map (remove_all "#") (split (default "" (get rdg "wit"))))
           rdgs.

(** The witnesses that the readings under an apparatus refer to. *)
Definition covered (app : element) : list string :=
  covered_by (xpath_desc "rdg" app).

(** The witnesses extant at a division, as a filter of the witness list. *)
Definition is_extant (self : tei_collator.collator) (div_n witness : string)
  : bool :=
  match tei_collator.tokens_by_witness self !! witness with
  | Some divs => bool_decide (is_Some (divs !! div_n))
  | None => false
  end.

Definition extant_witnesses_at (self : tei_collator.collator) (div_n : string)
  : list string :=
  filter (fun witness => is_extant self div_n witness = true)
         (tei_collator.witnesses self).

(** Each child of a collation with the witnesses extant at the division
    it stands in: those of the last division marker before it. *)
Fixpoint with_extant (self : tei_collator.collator) (extant : list string)
  (collation : list element) : list (element * list string) :=
  match collation with
  | [] => []
  | child :: rest =>
      if tei_collator.is_division self child
      then (child, extant)
           :: with_extant self
                (extant_witnesses_at self (default "" (get child "n"))) rest
      else (child, extant) :: with_extant self extant rest
  end.

(** A witness identifier that can stand in a [wit] attribute: not empty
    after the [#], no blank and no [#] in it. *)
Definition siglum (w : string) : Prop :=
  remove_all "#" w = w
  /\ Forall (fun c => is_space c = false) (list_ascii_of_string w).

(** The witnesses extant at the division of an apparatus that none of
    its readings refers to, in the order of the witness list. *)
Definition omitted (self : tei_collator.collator) (extant : list string)
  (app : element) : list string :=
  filter (fun w => w ∈ extant /\ w ∉ covered app) (tei_collator.witnesses self).

(** The empty reading that stands for the omission. *)
Definition omission_rdg (wits : list string) : element :=
  Element (tei "rdg") [("wit", join " " (map (fun w => "#" +:+ w) wits))]
          None [] None.

(** What the engine has to deliver for the pass to run through: every
    witness has its table of divisions; under an apparatus every reading
    has a [wit] attribute, no witness is referred to twice, every witness
    referred to is extant, and the apparatus has a child. *)
Definition engine_output_ok (self : tei_collator.collator)
  (collation : list element) : Prop :=
  Forall (fun w => is_Some (tei_collator.tokens_by_witness self !! w))
         (tei_collator.witnesses self)
  /\ Forall (fun p =>
               raw_tag (tag (fst p)) = "app" ->
               Forall (fun rdg => is_Some (get rdg "wit"))
                      (xpath_desc "rdg" (fst p))
               /\ NoDup (covered (fst p))
               /\ (forall w, w ∈ covered (fst p) -> w ∈ snd p)
               /\ children (fst p) <> [])
            (with_extant self [] collation).

(** A word is not empty and holds no blank. *)
Definition word (s : string) : Prop :=
  s <> "" /\ Forall (fun c => is_space c = false) (list_ascii_of_string s).

(** The apparatus after the pass, as the spec describes it: the
    omission reading first when the lemma witness is among the omitted
    ones, last otherwise, none when no extant witness is omitted. *)
Definition with_omission (self : tei_collator.collator) (extant : list string)
  (app : element) : element :=
  match omitted self extant app with
  | [] => app
  | wits =>
      if bool_decide (tei_collator.lemma self ∈ wits)
      then Element (tag app) (attrib app) (text app)
                   (omission_rdg wits :: children app) (tail app)
      else Element (tag app) (attrib app) (text app)
                   (children app ++ [omission_rdg wits]) (tail app)
  end.

(** The coverage invariant between a child of the engine's collation,
    paired with the witnesses extant at its division, and the child that
    [collate] leaves in its place. *)
Definition coverage_complete (self : tei_collator.collator)
  (p : element * list string) (child' : element) : Prop :=
  if String.eqb (raw_tag (tag (fst p))) "app"
  then (forall w, w ∈ covered child' <-> w ∈ snd p)
       /\ child' = with_omission self (snd p) (fst p)
  else child' = fst p.

(** ** tei_normalizer: the text functions *)

(** [unicodedata.normalize] for the two forms the normalizer uses. *)
Class unicodedata : Type := {
  normalize_NFKD : ustring -> ustring;
  normalize_NFC : ustring -> ustring
}.

Module tei_normalizer.

Inductive accentuation : Type :=
| cantillation
| pointing
| extraordinaire.

Definition in_range (lo hi c : N) : bool := ((lo <=? c) && (c <=? hi))%N.

(** [accentuatation_res]: the character class of each kind of accent. *)
Definition accentuatation_res (kind : accentuation) (c : N) : bool :=
  match kind with
  | cantillation =>
      in_range 0x0591 0x05AF c || (c =? 0x05BD)%N || in_range 0x200C 0x200D c
  | pointing =>
      in_range 0x05B0 0x05BC c || (c =? 0x05BF)%N || in_range 0x05C1 0x05C2 c
      || (c =? 0x05C7)%N
  | extraordinaire => in_range 0x05C4 0x05C5 c
  end.

(** [re.sub(regex, '', s)] for a character class. *)
Definition re_sub_class (class : N -> bool) (s : ustring) : ustring :=
  filter (fun c => class c = false) s.

Section Normalizer.

Context {U : unicodedata}.

Definition format_text (ignored_accent_set : list accentuation) (s : ustring)
  : ustring :=
  let s := normalize_NFKD s in
  let s :=
    fold_left (fun s kind => re_sub_class (accentuatation_res kind) s)
              ignored_accent_set s in
  normalize_NFC s.

Definition letters_re (c : N) : bool := in_range 0x05D0 0x05EA c.
Definition vowels_re (c : N) : bool := accentuatation_res pointing c.

(** The first loop of [strip_plene]: the letters with their points; the
    state is the list and the queue. *)
Definition group_letter (st : list ustring * ustring) (c : N)
  : list ustring * ustring :=
  if negb (c =? 32)%N && negb (letters_re c) && negb (vowels_re c)
  then st
  else
    let st' :=
      if (c =? 32)%N || letters_re c then (fst st ++ [snd st], []) else st in
    (fst st', snd st' ++ [c]).

Definition ueqb (s1 s2 : ustring) : bool := bool_decide (s1 = s2).

Definition has (c : N) (s : ustring) : bool := bool_decide (c ∈ s).

(** [l[i]] for an index in range. *)
Definition at_ (l : list ustring) (i : nat) : ustring := default [] (l !! i).

(** The second loop of [strip_plene] at index [i]; the state is the list
    and [prev_letter_with_pointing]. *)
Definition reduce_letter (st : list ustring * ustring) (i : nat)
  : list ustring * ustring :=
  let letters := fst st in
  let prev := snd st in
  let current := at_ letters i in
  let hireq :=
    has 0x05B4 prev || has 0x05B5 prev || has 0x05B6 prev in
  let letters' :=
    if ueqb current [32%N] then letters
    else if (i =? 0)%nat || ueqb prev [32%N] then letters
    else if (i =? length letters - 1)%nat || ueqb (at_ letters (i + 1)) [32%N]
    then letters
    else if ueqb current [0x05D0%N] then <[i := []]> letters
    else if ueqb current [0x05D5%N] && ueqb prev [0x05D0%N] && (1 <? i)%nat
            && negb (ueqb (at_ letters (i - 2)) [32%N])
    then
      let l1 := <[i - 1 := []]> (<[i := []]> letters) in
      if negb (has 0x05B9 (at_ l1 (i - 2)))
      then <[i - 2 := at_ l1 (i - 2) ++ [0x05B9%N]]> l1
      else l1
    else if ueqb current [0x05D5%N; 0x05B9%N]
    then
      let l1 := <[i := []]> letters in
      <[i - 1 := at_ l1 (i - 1) ++ [0x05B9%N]]> l1
    else if ueqb current [0x05D5%N; 0x05BC%N]
    then
      let l1 := <[i := []]> letters in
      <[i - 1 := at_ l1 (i - 1) ++ [0x05BB%N]]> l1
    else if ueqb current [0x05D9%N] && hireq then <[i := []]> letters
    else if ueqb current [0x05D9%N; 0x05B0%N] && hireq then <[i := []]> letters
    else letters in
  (letters', current).

Definition strip_plene (s : ustring) : ustring :=
  let s := normalize_NFKD s in
  let st := fold_left group_letter s ([], []) in
  let letters_with_pointing := drop 1 (fst st ++ [snd st]) in
  let letters_with_pointing :=
    fst (fold_left reduce_letter (seq 0 (length letters_with_pointing))
                   (letters_with_pointing, [])) in
  normalize_NFC (concat letters_with_pointing).

End Normalizer.

End tei_normalizer.

(** ** tei_labeler *)

(** [int(s)] and [str(i)]. *)
Definition is_digit (c : ascii) : bool :=
  ((48 <=? nat_of_ascii c) && (nat_of_ascii c <=? 57))%nat.

Fixpoint lstrip (s : string) : string :=
  match s with
  | EmptyString => EmptyString
  | String c s' => if is_space c then lstrip s' else s
  end.

Fixpoint rstrip (s : string) : string :=
  match s with
  | EmptyString => EmptyString
  | String c s' =>
      match rstrip s' with
      | EmptyString => if is_space c then EmptyString else String c EmptyString
      | r => String c r
      end
  end.

Definition strip (s : string) : string := rstrip (lstrip s).

(** The digits of a literal, single underscores between them dropped. *)
Fixpoint digits (after_digit : bool) (s : string) : option string :=
  match s with
  | EmptyString => if after_digit then Some EmptyString else None
  | String c s' =>
      if is_digit c then String c <$> digits true s'
      else if Ascii.eqb c "_" && after_digit
      then match s' with
           | String d _ => if is_digit d then digits false s' else None
           | EmptyString => None
           end
      else None
  end.

Definition int (s : string) : result Z :=
  let s := strip s in
  let '(sign, body) :=
    match s with
    | String c s' =>
        if Ascii.eqb c "-" then ((-1)%Z, s')
        else if Ascii.eqb c "+" then (1%Z, s')
        else (1%Z, s)
    | EmptyString => (1%Z, s)
    end in
  match digits false body with
  | Some d =>
      match NilEmpty.uint_of_string d with
      | Some u => Ok (sign * Z.of_uint u)%Z
      | None => Raise ValueError
      end
  | None => Raise ValueError
  end.

Definition str (i : Z) : string := NilZero.string_of_int (Z.to_int i).

(** [l.index(x)]. *)
Fixpoint index (x : string) (l : list string) : option nat :=
  match l with
  | [] => None
  | y :: l' => if String.eqb y x then Some 0%nat else S <$> index x l'
  end.

(** [s.index(sub)], [None] when [sub in s] is false. *)
Fixpoint find_sub (sub s : string) : option nat :=
  if String.prefix sub s then Some 0%nat
  else match s with
       | EmptyString => None
       | String _ s' => S <$> find_sub sub s'
       end.

(** [s[i:]]. *)
Fixpoint slice_from (i : nat) (s : string) : string :=
  match i, s with
  | O, _ => s
  | S i', String _ s' => slice_from i' s'
  | S _, EmptyString => EmptyString
  end.

Module tei_labeler.

Import tei_normalizer.

Definition div_abbreviations : gmap string string :=
  list_to_map [("book", "B"); ("incipit", "incipit"); ("explicit", "explicit");
               ("chapter", "K"); ("verse", "V"); ("w", "U")].

(** The fields of a labeler. *)
Record labeler : Type := Labeler {
  div_hierarchy : list string;
  div_indices : gmap string string
}.

Definition __init__ : labeler := Labeler [] ∅.

Section AddTypes.

Context {U : unicodedata}.

(** The serialization of a reading: the text of each child, its tag
    where it has no text, joined by blanks. *)
Definition rdg_serialization (rdg : element) : ustring :=
  ujoin [32%N]
        (map (fun el => match text el with
                        | None => ustr (tag el)
                        | Some s => s
                        end)
             (children rdg)).

(** The accents that the normalizer of [add_types] ignores. *)
Definition all_accents : list accentuation :=
  [cantillation; pointing; extraordinaire].

Definition token_set (s : ustring) : gset ustring := list_to_set (usplit s).

(** The type that [add_types] sets on an apparatus. *)
Definition app_type (app : element) : result string :=
  match xpath_desc "rdg" app with
  | [] => Raise IndexError
  | primary_rdg :: variant_rdgs =>
      let primary_rdg_serialization := rdg_serialization primary_rdg in
      let variant_rdg_serializations := map rdg_serialization variant_rdgs in
      let fmt := format_text all_accents in
      if forallb (fun s => ueqb (fmt s) (fmt primary_rdg_serialization))
                 variant_rdg_serializations
      then Ok "vocalic"
      else if forallb (fun s => ueqb (fmt (strip_plene s))
                                     (fmt (strip_plene primary_rdg_serialization)))
                      variant_rdg_serializations
      then Ok "orthographic"
      else if forallb (fun s => bool_decide
                                  (token_set (fmt s)
                                   = token_set (fmt primary_rdg_serialization)))
                      variant_rdg_serializations
      then Ok "transposition"
      else if (length (usplit primary_rdg_serialization) =? 0)%nat
      then
        if forallb (fun s => negb (length (usplit s) =? 0)%nat)
                   variant_rdg_serializations
        then Ok "addition"
        else Ok "substitution"
      else
        if forallb (fun s => (length (usplit s) =? 0)%nat)
                   variant_rdg_serializations
        then Ok "omission"
        else Ok "substitution"
  end.

(** [add_types]: every [app] element of the tree receives its type. *)
Fixpoint add_types (xml : element) : result element :=
  match xml with
  | Element tg a x cs tl =>
      a' <- (if is_tei "app" xml
             then ty <- app_type xml ;; Ok (set_attr a "type" ty)
             else Ok a) ;;
      cs' <- traverse add_types cs ;;
      Ok (Element tg a' x cs' tl)
  end.

End AddTypes.

(** [add_indices] on a [divGen] element. *)
Definition is_cut (div_type : string) : bool :=
  bool_decide (div_type ∈ ["incipit"; "explicit"]).

Definition index_divGen (self : labeler) (xml : element) : result labeler :=
  match get xml "type" with
  | None => Ok self
  | Some div_type =>
      let div_n := default "" (get xml "n") in
      div_n <- (if is_cut div_type then Ok ""
                else
                  abbreviation <- of_option KeyError (div_abbreviations !! div_type) ;;
                  match find_sub abbreviation div_n with
                  | Some i => Ok (slice_from (i + 1) div_n)
                  | None => Ok div_n
                  end) ;;
      let h := div_hierarchy self in
      let h :=
        if is_cut div_type
        then match index "chapter" h with
             | Some i => <[i := div_type]> h
             | None => h ++ [div_type]
             end
        else h in
      let h :=
        if String.eqb div_type "chapter"
        then match index "incipit" h with
             | Some i => <[i := div_type]> h
             | None =>
                 match index "explicit" h with
                 | Some i => <[i := div_type]> h
                 | None => h
                 end
             end
        else h in
      let h := if bool_decide (div_type ∈ h) then h else h ++ [div_type] in
      let indices := <[div_type := div_n]> (div_indices self) in
      i <- of_option ValueError (index div_type h) ;;
      Ok (Labeler h (fold_left (fun m other_div_type => <[other_div_type := "0"]> m)
                               (drop (i + 1) h) indices))
  end.

(** The word counter is created on first use. *)
Definition ensure_w (self : labeler) : labeler :=
  match div_indices self !! "w" with
  | None => Labeler (div_hierarchy self ++ ["w"]) (<["w" := "0"]> (div_indices self))
  | Some _ => self
  end.

(** [indices['w'] = str(int(indices['w']) + k)]. *)
Definition bump_w (k : Z) (indices : gmap string string)
  : result (gmap string string) :=
  w <- of_option KeyError (indices !! "w") ;;
  i <- int w ;;
  Ok (<["w" := str (i + k)]> indices).

Definition index_w (self : labeler) : result labeler :=
  let self := ensure_w self in
  indices <- bump_w 2 (div_indices self) ;;
  Ok (Labeler (div_hierarchy self) indices).

(** The loop that spells a citation: one abbreviation and index per
    level of [levels], the verse left out inside an incipit or explicit. *)
Definition citation (div_hierarchy levels : list string)
  (indices : gmap string string) : result string :=
  parts <-
    traverse
      (fun div_type =>
         if (bool_decide ("incipit" ∈ div_hierarchy)
             || bool_decide ("explicit" ∈ div_hierarchy))
            && String.eqb div_type "verse"
         then Ok ""
         else
           abbreviation <- of_option KeyError (div_abbreviations !! div_type) ;;
           i <- of_option KeyError (indices !! div_type) ;;
           Ok (abbreviation +:+ i))
      levels ;;
  Ok (join "" parts).

(** The first level at which the two snapshots differ. *)
Fixpoint difference_level (levels : list string)
  (app_start_indices app_end_indices : gmap string string)
  : result (option string) :=
  match levels with
  | [] => Ok None
  | div_type :: levels' =>
      s <- of_option KeyError (app_start_indices !! div_type) ;;
      e <- of_option KeyError (app_end_indices !! div_type) ;;
      if negb (String.eqb s e) then Ok (Some div_type)
      else difference_level levels' app_start_indices app_end_indices
  end.

(** The label of an apparatus from the snapshots taken before and after
    its lemma reading; [has_w] tells whether the apparatus holds a word. *)
Definition app_n (div_hierarchy : list string)
  (app_start_indices app_end_indices : gmap string string) (has_w : bool)
  : result string :=
  if bool_decide (app_start_indices = app_end_indices)
  then
    app_start_indices <-
      (if has_w then bump_w 1 app_start_indices else Ok app_start_indices) ;;
    citation div_hierarchy div_hierarchy app_start_indices
  else
    app_start_indices <- bump_w 2 app_start_indices ;;
    if bool_decide (app_start_indices = app_end_indices)
    then citation div_hierarchy div_hierarchy app_start_indices
    else
      level <- difference_level div_hierarchy app_start_indices app_end_indices ;;
      start <- citation div_hierarchy div_hierarchy app_start_indices ;;
      i <- of_option ValueError (level ≫= fun l => index l div_hierarchy) ;;
      rest <- citation div_hierarchy (drop i div_hierarchy) app_end_indices ;;
      Ok (start +:+ "-" +:+ rest).

(** [add_indices] on an element.  With [seek] the walk is inside an
    apparatus, looking for its first [lem] in document order, whose
    children it indexes in place; the flag returned tells whether the
    [lem] has been found.  Without [seek] it is [add_indices] itself. *)
Fixpoint walk (seek : bool) (self : labeler) (xml : element) {struct xml}
  : result (bool * labeler * element) :=
  match xml with
  | Element tg a x cs tl =>
      let index_children :=
        fix index_children (self : labeler) (l : list element)
          : result (labeler * list element) :=
          match l with
          | [] => Ok (self, [])
          | child :: l' =>
              r <- walk false self child ;;
              r' <- index_children (snd (fst r)) l' ;;
              Ok (fst r', snd r :: snd r')
          end in
      let seek_children :=
        fix seek_children (self : labeler) (l : list element)
          : result (bool * labeler * list element) :=
          match l with
          | [] => Ok (false, self, [])
          | child :: l' =>
              r <- walk true self child ;;
              if fst (fst r)
              then Ok (true, snd (fst r), snd r :: l')
              else
                r' <- seek_children (snd (fst r)) l' ;;
                Ok (fst r', snd r :: snd r')
          end in
      if seek
      then
        if String.eqb tg (tei "lem")
        then r <- index_children self cs ;;
             Ok (true, fst r, Element tg a x (snd r) tl)
        else r <- seek_children self cs ;;
             Ok (fst r, Element tg a x (snd r) tl)
      else
        let raw_tag := raw_tag tg in
        if String.eqb raw_tag "divGen"
        then self' <- index_divGen self xml ;; Ok (false, self', xml)
        else if String.eqb raw_tag "w"
        then self' <- index_w self ;; Ok (false, self', xml)
        else if String.eqb raw_tag "app"
        then
          let self := ensure_w self in
          r <- seek_children self cs ;;
          if fst (fst r)
          then
            let xml' := Element tg a x (snd r) tl in
            let self' := snd (fst r) in
            n <- app_n (div_hierarchy self') (div_indices self)
                       (div_indices self')
                       (negb (length (xpath_desc "w" xml') =? 0)%nat) ;;
            Ok (false, self', set xml' "n" n)
          else Raise IndexError
        else
          r <- index_children self cs ;;
          Ok (false, fst r, Element tg a x (snd r) tl)
  end.

Definition add_indices (self : labeler) (xml : element)
  : result (labeler * element) :=
  r <- walk false self xml ;;
  Ok (snd (fst r), snd r).

(** [label]: the labeler after the call and the labeled tree. *)
Definition label {U : unicodedata} (self : labeler) (xml : element)
  : result (labeler * element) :=
  xml' <- add_types xml ;;
  add_indices self xml'.

End tei_labeler.


(** A string of decimal digits. *)
Definition digit_string (s : string) : Prop :=
  Forall (fun c => is_digit c = true) (list_ascii_of_string s).

(** The two loops over children inside [walk], by name. *)
Fixpoint index_children (self : tei_labeler.labeler) (l : list element)
  : result (tei_labeler.labeler * list element) :=
  match l with
  | [] => Ok (self, [])
  | child :: l' =>
      r <- tei_labeler.walk false self child ;;
      r' <- index_children (snd (fst r)) l' ;;
      Ok (fst r', snd r :: snd r')
  end.

Fixpoint seek_children (self : tei_labeler.labeler) (l : list element)
  : result (bool * tei_labeler.labeler * list element) :=
  match l with
  | [] => Ok (false, self, [])
  | child :: l' =>
      r <- tei_labeler.walk true self child ;;
      if fst (fst r)
      then Ok (true, snd (fst r), snd r :: l')
      else
        r' <- seek_children (snd (fst r)) l' ;;
        Ok (fst r', snd r :: snd r')
  end.

(** The citation of word index [u] of verse [v] of chapter [c] of book
    [b]. *)
Definition cite (b c v : string) (u : Z) : string :=
  "B" +:+ b +:+ "K" +:+ c +:+ "V" +:+ v +:+ "U" +:+ str u.

(** A labeler inside a verse, after the word of index [u]. *)
Definition in_verse (self : tei_labeler.labeler) (b c v : string) (u : Z)
  : Prop :=
  tei_labeler.div_hierarchy self = ["book"; "chapter"; "verse"; "w"]
  /\ tei_labeler.div_indices self !! "book" = Some b
  /\ tei_labeler.div_indices self !! "chapter" = Some c
  /\ tei_labeler.div_indices self !! "verse" = Some v
  /\ tei_labeler.div_indices self !! "w" = Some (str u).

(** A second walk from the same labeler over the tree that a first walk
    returned changes nothing. *)
Definition walk_stable (e : element) : Prop :=
  forall seek self r,
    tei_labeler.walk seek self e = Ok r ->
    tei_labeler.walk seek self (snd r) = Ok r.

(** An element without its attributes, and so all the way down. *)
Fixpoint skeleton (e : element) : element :=
  match e with
  | Element tg a x cs tl => Element tg [] x (map skeleton cs) tl
  end.

(** Indexing a tree that [add_types] leaves as it is gives such a tree. *)
Definition walk_keeps_types {U : unicodedata} (e : element) : Prop :=
  tei_labeler.add_types e = Ok e ->
  forall seek self r,
    tei_labeler.walk seek self e = Ok r ->
    tei_labeler.add_types (snd r) = Ok (snd r).

(** ** Elements with identity: the trees in memory *)

(** lxml elements are objects: [append] moves an element that already
    has a parent, so a function that appends elements of its input to a
    new tree takes them out of the input.  The store holds every tree
    that has no parent; an element is referred to by the handle of the
    tree it stands in and the path of child positions that leads to it. *)
Module tree_store.

Definition store : Type := list (option element).

Record node : Type := Node { root : nat; path : list nat }.

(** The element at the end of a path. *)
Fixpoint subtree (e : element) (p : list nat) : option element :=
  match p with
  | [] => Some e
  | i :: p' => c ← children e !! i; subtree c p'
  end.

(** The element with the one at the end of a path rewritten. *)
Fixpoint rewrite_at (f : element -> element) (e : element) (p : list nat)
  : element :=
  match p with
  | [] => f e
  | i :: p' =>
      match e with
      | Element tg a x cs tl =>
          Element tg a x
                  (match cs !! i with
                   | Some c => <[i := rewrite_at f c p']> cs
                   | None => cs
                   end) tl
      end
  end.

(** The element without the one at the end of a non-empty path. *)
Fixpoint remove_at (e : element) (p : list nat) : element :=
  match p with
  | [] => e
  | [i] =>
      match e with
      | Element tg a x cs tl => Element tg a x (delete i cs) tl
      end
  | i :: p' =>
      match e with
      | Element tg a x cs tl =>
          Element tg a x
                  (match cs !! i with
                   | Some c => <[i := remove_at c p']> cs
                   | None => cs
                   end) tl
      end
  end.

(** The paths of the proper descendants, in document order. *)
Fixpoint paths (e : element) : list (list nat) :=
  match e with
  | Element _ _ _ cs _ =>
      (fix go (i : nat) (l : list element) : list (list nat) :=
         match l with
         | [] => []
         | c :: l' => ([i] :: map (cons i) (paths c)) ++ go (S i) l'
         end) 0%nat cs
  end.

(** Where a path leads after the element at [removed] has left the tree:
    a later sibling, or an element below one, moves one position up. *)
Fixpoint shift (removed p : list nat) : list nat :=
  match removed, p with
  | [i], j :: p' => (if (i <? j)%nat then j - 1 else j)%nat :: p'
  | i :: removed', j :: p' =>
      if (i =? j)%nat then j :: shift removed' p' else p
  | _, _ => p
  end.

(** Computations on the store; an exception leaves the store as it is
    when it is raised. *)
Definition M (A : Type) : Type := store -> result A * store.

Definition ret {A : Type} (a : A) : M A := fun s => (Ok a, s).

Definition raise {A : Type} (e : exn) : M A := fun s => (Raise e, s).

Definition bind {A B : Type} (m : M A) (k : A -> M B) : M B :=
  fun s =>
    match m s with
    | (Ok a, s') => k a s'
    | (Raise e, s') => (Raise e, s')
    end.

Notation "x <~ m ;; k" := (bind m (fun x => k))
  (at level 100, m at next level, right associativity).

Definition lift {A : Type} (e : exn) (o : option A) : M A :=
  match o with
  | Some a => ret a
  | None => raise e
  end.

(** [for x in l: body]. *)
Fixpoint for_each {A : Type} (body : A -> M unit) (l : list A) : M unit :=
  match l with
  | [] => ret tt
  | a :: l' => _ <~ body a ;; for_each body l'
  end.

(** The element that a reference denotes. *)
Definition deref (s : store) (r : node) : option element :=
  t ← mjoin (s !! root r); subtree t (path r).

Definition read (r : node) : M element :=
  fun s => lift ValueError (deref s r) s.

(** [et.Element(tag)]: a new tree. *)
Definition Element_ (tg : string) : M node :=
  fun s => (Ok (Node (length s) []), s ++ [Some (new_element tg)]).

(** [copy.deepcopy(r)]: a new tree, equal to the element. *)
Definition deepcopy (r : node) : M node :=
  e <~ read r ;;
  fun s => (Ok (Node (length s) []), s ++ [Some e]).

(** [r.set(name, value)]. *)
Definition set_ (r : node) (name value : string) : M unit :=
  fun s =>
    match mjoin (s !! root r) with
    | Some t =>
        (Ok tt, <[root r := Some (rewrite_at (fun e => set e name value) t (path r))]> s)
    | None => (Raise ValueError, s)
    end.

(** Taking an element out of the place where it stands. *)
Definition detach (r : node) : M unit :=
  fun s =>
    match mjoin (s !! root r) with
    | Some t =>
        match path r with
        | [] => (Ok tt, <[root r := None]> s)
        | p => (Ok tt, <[root r := Some (remove_at t p)]> s)
        end
    | None => (Raise ValueError, s)
    end.

(** Putting an element in as the last child of [parent]; the reference
    returned denotes it there. *)
Definition attach (parent : node) (c : element) : M node :=
  fun s =>
    match deref s parent, mjoin (s !! root parent) with
    | Some p, Some t =>
        (Ok (Node (root parent) (path parent ++ [length (children p)])),
         <[root parent := Some (rewrite_at (fun e => append e c) t (path parent))]> s)
    | _, _ => (Raise ValueError, s)
    end.

(** [parent.append(child)]: the child leaves the place where it stands
    and becomes the last child of [parent]; the reference returned is the
    one that denotes it from then on. *)
Definition append_ (parent child : node) : M node :=
  c <~ read child ;;
  _ <~ read parent ;;
  _ <~ detach child ;;
  attach (if (root parent =? root child)%nat
          then Node (root parent) (shift (path child) (path parent))
          else parent) c.

(** [r.xpath('.//tei:name')], [tree.xpath('//tei:name')] and the
    children of an element, as references. *)
Definition below (r : node) (p : list nat) : node :=
  Node (root r) (path r ++ p).

Definition named (name : string) (e : element) (p : list nat) : bool :=
  match subtree e p with
  | Some d => is_tei name d
  | None => false
  end.

Definition xpath_desc_ (name : string) (r : node) : M (list node) :=
  e <~ read r ;;
  ret (map (below r) (filter (fun p => named name e p = true) (paths e))).

Definition xpath_all_ (name : string) (r : node) : M (list node) :=
  e <~ read r ;;
  ret (map (below r) (filter (fun p => named name e p = true) ([] :: paths e))).

Definition children_ (r : node) : M (list node) :=
  e <~ read r ;;
  ret (map (fun i => below r [i]) (seq 0 (length (children e)))).

Definition first (l : list node) : M node := lift IndexError (head l).

(** [get_lemma_xml] and [get_witness_xml] of [tei_collation_editor] on
    trees in memory. *)
Definition copy_attributes (text lemma_text : node) : M unit :=
  t <~ read text ;;
  for_each (fun attr => set_ lemma_text attr (default "" (get t attr)))
           (map fst (attrib t)).

Definition get_lemma_xml (xml : node) : M node :=
  lemma_xml <~ Element_ (tei "TEI") ;;
  lemma_text <~ Element_ (tei "text") ;;
  texts <~ xpath_all_ "text" xml ;;
  text <~ first texts ;;
  _ <~ copy_attributes text lemma_text ;;
  lemma_text <~ append_ lemma_xml lemma_text ;;
  lemma_body <~ Element_ (tei "body") ;;
  lemma_body <~ append_ lemma_text lemma_body ;;
  bodies <~ xpath_desc_ "body" text ;;
  body <~ first bodies ;;
  body_children <~ children_ body ;;
  _ <~ for_each
        (fun child =>
           c <~ read child ;;
           if String.eqb (raw_tag (tag c)) "app"
           then
             lems <~ xpath_desc_ "lem" child ;;
             lem <~ first lems ;;
             lem_children <~ children_ lem ;;
             for_each (fun lem_child =>
                         copy <~ deepcopy lem_child ;;
                         _ <~ append_ lemma_body copy ;;
                         ret tt)
                      lem_children
           else
             copy <~ deepcopy child ;;
             _ <~ append_ lemma_body copy ;;
             ret tt)
        body_children ;;
  ret lemma_xml.

(** The search for the reading of a witness; it starts from a new, empty
    [rdg]. *)
Fixpoint find_wit_rdg (wit : option string) (wit_rdg : node) (rdgs : list node)
  : M node :=
  match rdgs with
  | [] => ret wit_rdg
  | rdg :: rdgs' =>
      wit_ref <~ match wit with
                 | Some w => ret ("#" +:+ w)
                 | None => raise TypeError
                 end ;;
      e <~ read rdg ;;
      refs <~ lift AttributeError (get e "wit") ;;
      if bool_decide (wit_ref ∈ split refs)
      then ret rdg
      else find_wit_rdg wit wit_rdg rdgs'
  end.

Definition get_witness_xml (xml : node) (wit : option string) : M node :=
  witness_xml <~ Element_ (tei "TEI") ;;
  witness_text <~ Element_ (tei "text") ;;
  texts <~ xpath_all_ "text" xml ;;
  text <~ first texts ;;
  _ <~ copy_attributes text witness_text ;;
  witness_text <~ append_ witness_xml witness_text ;;
  witness_body <~ Element_ (tei "body") ;;
  witness_body <~ append_ witness_text witness_body ;;
  bodies <~ xpath_desc_ "body" text ;;
  body <~ first bodies ;;
  body_children <~ children_ body ;;
  _ <~ for_each
        (fun child =>
           c <~ read child ;;
           if String.eqb (raw_tag (tag c)) "app"
           then
             placeholder <~ Element_ (tei "rdg") ;;
             rdgs <~ xpath_desc_ "rdg" child ;;
             wit_rdg <~ find_wit_rdg wit placeholder rdgs ;;
             wit_rdg_children <~ children_ wit_rdg ;;
             for_each (fun wit_rdg_child =>
                         copy <~ deepcopy wit_rdg_child ;;
                         _ <~ append_ witness_body copy ;;
                         ret tt)
                      wit_rdg_children
           else
             copy <~ deepcopy child ;;
             _ <~ append_ witness_body copy ;;
             ret tt)
        body_children ;;
  ret witness_xml.

(** [parent.remove(child)]. *)
Definition is_child_of (parent child : node) : bool :=
  (root child =? root parent)%nat
  && match rev (path child) with
     | _ :: p => bool_decide (rev p = path parent)
     | [] => false
     end.

Definition remove_ (parent child : node) : M unit :=
  if is_child_of parent child then detach child else raise ValueError.

(** [segment] of [tei_collation_editor] on a tree in memory: it moves
    the children of the body themselves.  The loop visits every child the
    body had when it began; [kept] counts the markers left behind, which
    is the position of the child being visited. *)
Fixpoint segment_loop (segmented_body body : node) (n kept : nat) (seg : node)
  : M node :=
  match n with
  | O => ret seg
  | S n' =>
      let child := below body [kept] in
      c <~ read child ;;
      if tei_collation_editor.is_seg_divGen c
      then
        _ <~ append_ segmented_body seg ;;
        seg' <~ Element_ (tei "seg") ;;
        segment_loop segmented_body body n' (S kept) seg'
      else
        _ <~ append_ seg child ;;
        segment_loop segmented_body body n' kept seg
  end.

Definition segment (xml : node) : M unit :=
  texts <~ xpath_all_ "text" xml ;;
  text <~ first texts ;;
  bodies <~ xpath_desc_ "body" text ;;
  body <~ first bodies ;;
  segmented_body <~ Element_ (tei "body") ;;
  seg <~ Element_ (tei "seg") ;;
  body_children <~ children_ body ;;
  seg <~ segment_loop segmented_body body (length body_children) 0 seg ;;
  _ <~ append_ segmented_body seg ;;
  _ <~ remove_ text body ;;
  _ <~ append_ text segmented_body ;;
  ret tt.

(** The store after a computation holds every tree that it held before,
    under the same handle and unchanged. *)
Definition extends (s0 s : store) : Prop := take (length s0) s = s0.

(** A reference into a tree made after [s0] was taken. *)
Definition made_after (s0 : store) (r : node) : Prop := length s0 <= root r.

(** A computation that leaves the trees of [s0] alone, and whose result
    satisfies [post]. *)
Definition frames {A : Type} (s0 : store) (m : M A) (post : A -> Prop) : Prop :=
  forall s, extends s0 s ->
            extends s0 (snd (m s))
            /\ forall a, fst (m s) = Ok a -> post a.

End tree_store.

(** ** Documents for the examples *)

Module Examples.

(** Unicode normalization on text that is ASCII or Hebrew (U+0590 to
    U+05FF) with the marks of each letter in canonical order: no character
    of these ranges decomposes and none composes, so such text is its own
    NFKD and NFC form. *)
Definition canonical_text : unicodedata :=
  {| normalize_NFKD := fun s => s; normalize_NFC := fun s => s |}.

(** A serializer in the manner of [et.tostring], for the examples: tags
    in Clark notation, attributes in order, text characters below 256. *)
Definition text_string (x : option ustring) : string :=
  match x with
  | Some s => string_of_list_ascii (map ascii_of_N s)
  | None => ""
  end.

Fixpoint to_xml (e : element) : string :=
  match e with
  | Element tg a x cs tl =>
      "<" +:+ tg
      +:+ join "" (map (fun kv => " " +:+ fst kv +:+ "='" +:+ snd kv +:+ "'") a)
      +:+ ">" +:+ text_string x +:+ join "" (map to_xml cs)
      +:+ "</" +:+ tg +:+ ">" +:+ text_string tl
  end.

Definition el (name : string) (a : list (string * string)) (cs : list element)
  : element :=
  Element (tei name) a None cs None.

Definition w (s : string) : element :=
  Element (tei "w") [] (Some (ustr s)) [] None.


Definition seg_marker : element := el "divGen" [("type", "seg")] [].

Definition lem (cs : list element) : element := el "lem" [] cs.

Definition rdg (wit : string) (cs : list element) : element :=
  el "rdg" [("wit", wit)] cs.

Definition app (n : string) (cs : list element) : element :=
  el "app" [("n", n)] cs.

(** A collation: the witnesses listed in the header, then the body. *)
Definition collation (wits : list string) (body : list element) : element :=
  el "TEI" []
     [el "teiHeader" []
         [el "listWit" [] (map (fun w => el "witness" [("id", w)] []) wits)];
      el "text" [] [el "body" [] body]].


(** Witness B is listed but supports no reading of the apparatus, whose
    readings agree with the lemma on one marker. *)
Definition uncovered_text : element :=
  el "text" []
     [el "body" []
         [app "1" [lem [w "x"; seg_marker; w "y"];
                   rdg "#A" [w "x"; seg_marker; w "z"]]]].

Definition uncovered : element :=
  el "TEI" []
     [el "teiHeader" []
         [el "listWit" []
             (map (fun w => el "witness" [("id", w)] []) ["A"; "B"])];
      uncovered_text].

(** Three witnesses, two segments; witness C stands alone in the second. *)
Definition three_witnesses_body : element :=
  el "body" []
     [w "a"; seg_marker;
      app "1" [lem [w "b"]; rdg "#A #B" [w "b"]; rdg "#C" [w "c"]]].

Definition three_witnesses : element :=
  el "TEI" []
     [el "teiHeader" []
         [el "listWit" []
             (map (fun w => el "witness" [("id", w)] []) ["A"; "B"; "C"])];
      el "text" [] [three_witnesses_body]].





(** The beginning of verse 2 of chapter 21 of book 04: two words, so
    that the next word has index 6. *)
Definition verse_start : list element :=
  [el "divGen" [("type", "book"); ("n", "B04")] [];
   el "divGen" [("type", "chapter"); ("n", "B04K21")] [];
   el "divGen" [("type", "verse"); ("n", "B04K21V2")] [];
   w "a"; w "b"].

(** The labeler after these two words. *)
Definition after_two_words : tei_labeler.labeler :=
  tei_labeler.Labeler ["book"; "chapter"; "verse"; "w"]
    (list_to_map [("book", "04"); ("chapter", "21"); ("verse", "2"); ("w", "4")]).

Definition span (words : list element) : element :=
  el "app" [] [lem words; rdg "#A" words; rdg "#B" []].

Definition verse_with (words : list element) : element :=
  el "body" [] (verse_start ++ [span words]).

(** A collator of three witnesses, all extant at verse 1, and what the
    engine returns there when witness C has no reading. *)
Definition three_collator : tei_collator.collator :=
  let divs : gmap string (list tei_collator.token) := {[ "1" := [] ]} in
  tei_collator.Collator "verse" "A" ["A"; "B"; "C"]
    (list_to_map [("A", divs); ("B", divs); ("C", divs)]).

Definition engine_output : list element :=
  [el "milestone" [("unit", "verse"); ("n", "1")] [];
   w "a";
   el "app" [] [rdg "#A" [w "b"]; rdg "#B" [w "c"]]].

(** A store that holds one collation. *)
Definition one_document : tree_store.store := [Some three_witnesses].

End Examples.


(** * Further code of the pipeline *)

(** A child of a body that is not a segment boundary of
    [tei_collation_editor.segment]. *)
Definition kept (child : element) : bool :=
  negb (tei_collation_editor.is_seg_divGen child).

(** ** Vocabulary for [tei_segmenter.segment] *)

(** An element whose tag is not in the ignored tag set. *)
Definition substantive (ignored_tag_set : gset string) (c : element) : bool :=
  negb (bool_decide (raw_tag (tag c) ∈ ignored_tag_set)).

Definition substantives (ignored_tag_set : gset string) (l : list element)
  : list element :=
  filter (fun c => substantive ignored_tag_set c = true) l.

(** The number of substantive elements of [l] with the raw tag [raw]. *)
Definition earlier (ignored_tag_set : gset string) (raw : string)
  (l : list element) : nat :=
  length (filter (fun c => substantive ignored_tag_set c = true
                           /\ raw_tag (tag c) = raw) l).

(** The elements that a list of segments holds. *)
Definition contents (segs : list element) : list element :=
  concat (map children segs).

(** A segment as [tei_segmenter.segment] seals it, [before] being the
    elements of the segments sealed before it. *)
Definition labelled (ignored_tag_set : gset string) (before : list element)
  (seg : element) : Prop :=
  tag seg = tei "seg"
  /\ children seg <> []
  /\ length (substantives ignored_tag_set (children seg)) <= 1
  /\ is_Some (get seg "type") /\ is_Some (get seg "n")
  /\ forall c, c ∈ children seg ->
               substantive ignored_tag_set c = true ->
               raw_tag (tag c) <> "" ->
               get seg "type" = Some (raw_tag (tag c))
               /\ get seg "n"
                  = Some (tei_segmenter.str_nat
                            (earlier ignored_tag_set (raw_tag (tag c)) before)).

(** What holds of the variables of [tei_segmenter.segment] after the
    children [seen] of the body. *)
Definition scan_inv (ignored_tag_set : gset string) (seen : list element)
  (st : tei_segmenter.scan) : Prop :=
  let queue := tei_segmenter.segment_elements st in
  let done := tei_segmenter.segmented_body st in
  seen = contents done ++ queue
  /\ (forall raw,
         tei_segmenter.substantive_indices st !! raw
         = match earlier ignored_tag_set raw seen with
           | O => None
           | S k => Some k
           end)
  /\ ((tei_segmenter.pos st = 1%Z /\ substantives ignored_tag_set queue = [])
      \/ ((-1 <= tei_segmenter.pos st <= 0)%Z /\ queue <> []
          /\ length (substantives ignored_tag_set queue) <= 1))
  /\ (substantives ignored_tag_set queue = [] -> tei_segmenter.segment_type st = "")
  /\ (forall c, c ∈ queue ->
                substantive ignored_tag_set c = true ->
                raw_tag (tag c) <> "" ->
                tei_segmenter.segment_type st = raw_tag (tag c)
                /\ tei_segmenter.segment_n st
                   = tei_segmenter.str_nat
                       (earlier ignored_tag_set (raw_tag (tag c)) (contents done)))
  /\ (forall i seg, done !! i = Some seg ->
                    labelled ignored_tag_set (contents (take i done)) seg).

(** ** Vocabulary for the projections *)

(** What a child of the body gives to the lemma projection: for an
    apparatus the content of its first [lem] descendant; any other
    element itself. *)
Definition lemma_part (child : element) : list element :=
  if String.eqb (raw_tag (tag child)) "app"
  then match lem_of child with
       | Some lem => children lem
       | None => []
       end
  else [child].


(** No element of the lemma projection of a body is itself taken for an
    apparatus: no [app] stands directly under the [lem] of an apparatus
    of the body. *)
Definition lemma_flat (body : list element) : Prop :=
  Forall (fun c => raw_tag (tag c) <> "app") (flat_map lemma_part body).

(** The text of the lemma and of a witness: the children of the bodies
    of the projections. *)
Definition lemma_text (body : list element) : list element :=
  flat_map lemma_part body.

Definition witness_text (w : string) (body : list element) : list element :=
  flat_map (witness_part w) body.

(** A text that holds no apparatus and no reading at any depth. *)
Definition plain (l : list element) : Prop :=
  Forall (fun d => raw_tag (tag d) <> "app" /\ is_tei "rdg" d = false)
         (descendants_list l).


(** ** Vocabulary for the text functions of the normalizer *)

(** The characters that [strip_plene] reads: the blank, the Hebrew
    letters and the points. *)
Definition plene_relevant (c : N) : bool :=
  (c =? 32)%N || tei_normalizer.letters_re c || tei_normalizer.vowels_re c.

(** ** tei_normalizer: normalize *)

Module normalizer.

Import tei_normalizer.

(** The parameters of a normalizer. *)
Record params : Type := Normalizer {
  ignored_accent_set : list accentuation;
  ignored_punc_set : gset (list N);
  preferred_rdg_type : option string;
  ignored_tag_set : gset string
}.

(** [pretty_print_whitespace]: every listed tag has the empty string. *)
Definition pretty_print_whitespace : gmap string ustring :=
  list_to_map [("pb", []); ("cb", []); ("lb", []); ("p", []); ("space", []);
               ("app", []); ("lem", []); ("rdg", []); ("w", []); ("pc", [])].

Definition add_pretty_print_tail (xml : element) : element :=
  match pretty_print_whitespace !! raw_tag (tag xml) with
  | Some whitespace =>
      match xml with
      | Element t a x cs tl =>
          Element t a x cs (match x with None => Some whitespace | Some _ => tl end)
      end
  | None => xml
  end.

(** [xml.xpath('tei:rdg[@type=...]')[0]] and its children. *)
Definition get_preferred_rdg_elements (rdg_type : string) (xml : element)
  : result (list element) :=
  rdg <- of_option IndexError
           (head (filter (fun c => is_tei "rdg" c = true
                                   /\ get c "type" = Some rdg_type)
                         (children xml))) ;;
  Ok (children rdg).

(** [last.tail = last.tail + tail if last.tail is not None else tail]. *)
Fixpoint set_last_tail (tail_ : ustring) (l : list element) : list element :=
  match l with
  | [] => []
  | [Element t a x cs tl] => [Element t a x cs (Some (default [] tl ++ tail_))]
  | c :: l' => c :: set_last_tail tail_ l'
  end.

(** The tail of a child that is left out goes to the last child of the
    output element, or to its text when it has no child yet.  The state
    is the text and the children of the output element. *)
Definition add_tail (st : option ustring * list element) (tail_ : ustring)
  : option ustring * list element :=
  match snd st with
  | [] => (Some (default [] (fst st) ++ tail_), [])
  | l => (fst st, set_last_tail tail_ l)
  end.

Definition set_tail (e : element) (tl : option ustring) : element :=
  match e with
  | Element t a x cs _ => Element t a x cs tl
  end.

(** The tag of the output element: [div] and [ab] become [divGen]. *)
Definition output_tag (tg : string) : string :=
  if bool_decide (raw_tag tg ∈ ["div"; "ab"]) then tei "divGen" else tg.

Section Normalize.

Context {U : unicodedata}.

Variable self : params.

Definition skip (st : option ustring * list element) (child : element)
  : option ustring * list element :=
  match tail child with
  | Some tl => add_tail st (format_text (ignored_accent_set self) tl)
  | None => st
  end.

(** The last step of the loop: the tail of the output child. *)
Definition with_tail (child out_child : element) : element :=
  match tail child with
  | Some tl => set_tail out_child (Some (format_text (ignored_accent_set self) tl))
  | None => add_pretty_print_tail out_child
  end.

(** What the loop does with the normalized child. *)
Definition place (st : option ustring * list element) (child out_child : element)
  : result (option ustring * list element) :=
  if String.eqb (raw_tag (tag out_child)) "app"
  then
    match preferred_rdg_type self with
    | Some rdg_type =>
        preferred_rdg_elements <- get_preferred_rdg_elements rdg_type out_child ;;
        Ok (fst st, snd st ++ preferred_rdg_elements)
    | None => Ok (fst st, snd st ++ [with_tail child out_child])
    end
  else if String.eqb (raw_tag (tag out_child)) "divGen"
  then
    let out_grandchildren := children out_child in
    let out_child :=
      match out_child with
      | Element t a _ _ tl => Element t a None [] tl
      end in
    Ok (fst st, snd st ++ [with_tail child out_child] ++ out_grandchildren)
  else Ok (fst st, snd st ++ [with_tail child out_child]).

(** Whether the loop leaves a child out. *)
Definition left_out (child : element) : bool :=
  bool_decide (raw_tag (tag child) ∈ ignored_tag_set self)
  || (String.eqb (raw_tag (tag child)) "pc"
      && match text child with
         | Some t => bool_decide (t ∈ ignored_punc_set self)
         | None => false
         end).

Fixpoint normalize (xml : element) : result element :=
  match xml with
  | Element tg a x cs tl =>
      let attrs :=
        fold_left (fun acc attr => set_attr acc attr (default "" (get_attr a attr)))
                  (map fst a)
                  (if String.eqb (raw_tag tg) "ab" then [("type", "verse")] else []) in
      st <- (fix loop (st : option ustring * list element) (l : list element)
               : result (option ustring * list element) :=
               match l with
               | [] => Ok st
               | child :: l' =>
                   if left_out child then loop (skip st child) l'
                   else
                     out_child <- normalize child ;;
                     st' <- place st child out_child ;;
                     loop st' l'
               end)
              (format_text (ignored_accent_set self) <$> x, []) cs ;;
      Ok (Element (output_tag tg) attrs (fst st) (snd st) None)
  end.

(** The loop of [normalize], by name. *)
Fixpoint normalize_children (st : option ustring * list element)
  (l : list element) : result (option ustring * list element) :=
  match l with
  | [] => Ok st
  | child :: l' =>
      if left_out child then normalize_children (skip st child) l'
      else
        out_child <- normalize child ;;
        st' <- place st child out_child ;;
        normalize_children st' l'
  end.

End Normalize.

End normalizer.

(** What holds of every element below the root of a normalized tree. *)
Definition normalized (self : normalizer.params) (d : element) : Prop :=
  (raw_tag (tag d) ∉ ["div"; "ab"])
  /\ (raw_tag (tag d) = "divGen" -> children d = [] /\ text d = None)
  /\ (is_Some (normalizer.preferred_rdg_type self) -> raw_tag (tag d) <> "app")
  /\ ("divGen" ∉ normalizer.ignored_tag_set self ->
      raw_tag (tag d) ∉ normalizer.ignored_tag_set self).

(** ** tei_collator: reading a witness *)

Module collator.

Import tei_collator.

(** The loop of [get_rdg_types]; the state is the list and the set. *)
Definition rdg_types_step (st : list string * gset string) (rdg : element)
  : list string * gset string :=
  match get rdg "type" with
  | None => st
  | Some rdg_type =>
      if bool_decide (rdg_type ∈ snd st) then st
      else (fst st ++ [rdg_type], {[ rdg_type ]} ∪ snd st)
  end.

Definition get_rdg_types (xml : element) : list string :=
  fst (fold_left rdg_types_step (xpath_all "rdg" xml) ([], ∅)).

Section Tokens.

(** [et.tostring(_, encoding='unicode')]. *)
Variable tostring : element -> string.

Variable self : collator.

(** The token of an element of the formatted tree and the element at
    its position in the unformatted tree. *)
Definition token_of (t_element n_element : element) : token :=
  Token (strip (tostring t_element))
        (match text n_element with
         | Some x => x
         | None => ustr (tag n_element)
         end).

(** The loop of [get_tokens_by_div] from index [i] on. *)
Fixpoint tokens_loop (t_elements n_elements : list element)
  (tokens_by_div : gmap (option string) (list token))
  (div_n : option string) (tokens : list token)
  : result (gmap (option string) (list token)) :=
  match t_elements with
  | [] => Ok (<[div_n := tokens]> tokens_by_div)
  | t_element :: t_elements' =>
      match n_elements with
      | [] => Raise IndexError
      | n_element :: n_elements' =>
          let token := token_of t_element n_element in
          if is_division self t_element
          then
            match div_n with
            | Some _ =>
                tokens_loop t_elements' n_elements'
                            (<[div_n := tokens]> tokens_by_div)
                            (get t_element "n") [token]
            | None =>
                tokens_loop t_elements' n_elements' tokens_by_div
                            (get t_element "n") (tokens ++ [token])
            end
          else
            tokens_loop t_elements' n_elements' tokens_by_div div_n
                        (tokens ++ [token])
      end
  end.

Definition get_tokens_by_div (t_xml n_xml : element)
  : result (gmap (option string) (list token)) :=
  t_body <- of_option IndexError (head (xpath_all "body" t_xml)) ;;
  n_body <- of_option IndexError (head (xpath_all "body" n_xml)) ;;
  tokens_loop (children t_body) (children n_body) ∅ None [].

End Tokens.

End collator.

(** The tokens of a run of elements, position by position. *)
Fixpoint tokens_of (tostring : element -> string) (ts ns : list element)
  : list tei_collator.token :=
  match ts, ns with
  | t_element :: ts', n_element :: ns' =>
      collator.token_of tostring t_element n_element :: tokens_of tostring ts' ns'
  | _, _ => []
  end.

(** ** More documents for the examples *)

Module Samples.

(** A collation as [augment_lemma] writes its witness list: the
    identifiers are [xml:id] attributes. *)
Definition xml_id : string := "{" +:+ xml_ns +:+ "}id".

Definition unidentified : element :=
  Examples.el "TEI" []
    [Examples.el "teiHeader" []
       [Examples.el "listWit" []
          (map (fun w => Examples.el "witness" [(xml_id, w)] []) ["A"; "B"])];
     Examples.el "text" []
       [Examples.el "body" []
          [Examples.app "1" [Examples.lem [Examples.w "x"];
                             Examples.rdg "#A" [Examples.w "x"];
                             Examples.rdg "#B" [Examples.w "y"]]]]].

(** A transcription with a chapter, a verse, a page break and an
    apparatus of a ketiv and a qere reading. *)
Definition typed_rdg (ty : string) (cs : list element) : element :=
  Examples.el "rdg" [("type", ty)] cs.

Definition transcription : element :=
  Examples.el "body" []
    [Examples.el "div" [("type", "chapter"); ("n", "1")]
       [Examples.el "ab" [("n", "1")]
          [Examples.w "a"; Examples.el "pb" [] [];
           Examples.el "app" []
             [typed_rdg "ketiv" [Examples.w "b"];
              typed_rdg "qere" [Examples.w "c"]]]]].

(** A normalizer that drops the points and the page breaks and reads
    the ketiv, and one that keeps the apparatus. *)
Definition ketiv_normalizer : normalizer.params :=
  normalizer.Normalizer [tei_normalizer.pointing] ∅ (Some "ketiv") {[ "pb" ]}.


(** A verse marker and a chapter marker. *)
Definition verse_marker (n : string) : element :=
  Examples.el "divGen" [("type", "verse"); ("n", n)] [].

(** An apparatus with an empty lemma reading and a word in a reading. *)
Definition addition : element :=
  Examples.el "app" [] [Examples.lem []; Examples.rdg "#A" [];
                        Examples.rdg "#B" [Examples.w "c"]].

(** A normalized witness of two verses with a word before the first
    marker. *)
Definition milestone (n : string) : element :=
  Examples.el "milestone" [("unit", "verse"); ("n", n)] [].

Definition two_verses : element :=
  Examples.el "body" []
    [Examples.w "a"; milestone "1"; Examples.w "b"; milestone "2";
     Examples.w "c"].

End Samples.

(** * Basic facts *)

Lemma rbind_ok {A B : Type} (m : result A) (k : A -> result B) (b : B) :
  rbind m k = Ok b -> exists a, m = Ok a /\ k a = Ok b.
Proof. destruct m as [a|e]; simpl; [eauto | discriminate]. Qed.

(** The induction principle that reaches the children. *)
Lemma element_ind' (P : element -> Prop) :
  (forall t a x cs tl, Forall P cs -> P (Element t a x cs tl)) ->
  forall e, P e.
Proof.
  intros H. fix IH 1. intros [t a x cs tl]. apply H.
  induction cs as [|c cs IHcs]; constructor; [apply IH | exact IHcs].
Qed.

Lemma descendants_eq (e : element) :
  descendants e = descendants_list (children e).
Proof.
  destruct e as [t a x cs tl]. unfold descendants_list. simpl.
  induction cs as [|c cs IH]; [reflexivity|].
  cbn [flat_map]. rewrite <- IH. reflexivity.
Qed.

(** * tei_segmenter: segment and desegment *)

Section Segmenter.
Import tei_segmenter.

Variable ignored_tag_set : gset string.

Lemma raw_tag_seg : raw_tag (tei "seg") = "seg".
Proof. reflexivity. Qed.

Lemma desegment_app (l1 l2 : list element) :
  desegment (l1 ++ l2) = desegment l1 ++ desegment l2.
Proof. unfold desegment. apply flat_map_app. Qed.

Lemma desegment_seal (ty n : string) (queue : list element) :
  desegment [seal ty n queue] = queue.
Proof.
  unfold desegment, seal. cbn [flat_map new_element set extend tag children].
  rewrite raw_tag_seg. simpl. apply app_nil_r.
Qed.

(** What [step] does to the emitted segments and to the queue. *)
Lemma step_cases (st : scan) (child : element) :
  (exists ty n,
      segmented_body (step ignored_tag_set st child)
      = segmented_body st ++ [seal ty n (segment_elements st)]
      /\ segment_elements (step ignored_tag_set st child) = [child])
  \/ (segmented_body (step ignored_tag_set st child) = segmented_body st
      /\ segment_elements (step ignored_tag_set st child)
         = segment_elements st ++ [child]).
Proof.
  unfold step.
  repeat match goal with
         | |- context [if ?b then _ else _] => destruct b
         | |- context [let '(_, _) := ?p in _] => destruct p
         end; cbn [segmented_body segment_elements]; eauto.
Qed.

(** The scan keeps every element: sealed segments and queue together hold
    what has been read. *)
Lemma scan_keeps (l : list element) (st : scan) :
  desegment (segmented_body (fold_left (step ignored_tag_set) l st))
  ++ segment_elements (fold_left (step ignored_tag_set) l st)
  = desegment (segmented_body st) ++ segment_elements st ++ l.
Proof.
  revert st. induction l as [|c l IH]; intros st; cbn [fold_left].
  - now rewrite app_nil_r.
  - rewrite IH.
    destruct (step_cases st c) as [(ty & n & Hb & Hq) | (Hb & Hq)];
      rewrite Hb, Hq.
    + rewrite desegment_app, desegment_seal. now rewrite <- !app_assoc.
    + now rewrite <- !app_assoc.
Qed.

(** The element read last is always waiting in the queue. *)
Lemma scan_queue_nonempty (l : list element) (st : scan) :
  l <> [] ->
  segment_elements (fold_left (step ignored_tag_set) l st) <> [].
Proof.
  revert st. induction l as [|c l IH]; intros st Hl; [congruence|].
  cbn [fold_left]. destruct l as [|c' l].
  - cbn [fold_left].
    destruct (step_cases st c) as [(ty & n & Hb & Hq) | (Hb & Hq)];
      rewrite Hq; [discriminate|].
    intros H. now apply app_eq_nil in H as [_ H].
  - apply IH. discriminate.
Qed.

(** The round trip returns the body without its last queue. *)
Lemma desegment_segment_prefix (body : list element) :
  exists queue,
    body = desegment (segment ignored_tag_set body) ++ queue
    /\ (body <> [] -> queue <> []).
Proof.
  exists (segment_elements (fold_left (step ignored_tag_set) body scan_init)).
  split.
  - unfold segment. now rewrite scan_keeps.
  - apply scan_queue_nonempty.
Qed.

(** C1: on every non-empty body the round trip through [segment] and
    [desegment] returns a body that differs from the one it started from:
    the elements queued after the last boundary are never sealed into a
    segment, so they are lost. *)
Theorem desegment_segment_loses_last_queue (body : list element) :
  body <> [] ->
  desegment (segment ignored_tag_set body) <> body.
Proof.
  intros Hne Heq.
  destruct (desegment_segment_prefix body) as (queue & Hb & Hq).
  specialize (Hq Hne). rewrite Heq in Hb.
  apply (f_equal (@length element)) in Hb. rewrite length_app in Hb.
  destruct queue; [congruence | simpl in Hb; lia].
Qed.

End Segmenter.

(** The round trip on a body of one word, nothing ignored. *)
Lemma desegment_segment_loses_last_queue_witness :
  [Examples.w "a"] <> []
  /\ tei_segmenter.desegment (tei_segmenter.segment ∅ [Examples.w "a"]) = []
  /\ tei_segmenter.desegment (tei_segmenter.segment ∅ [Examples.w "a"])
     <> [Examples.w "a"].
Proof.
  split; [discriminate|]. split; [reflexivity|].
  apply (desegment_segment_loses_last_queue ∅ [Examples.w "a"]). discriminate.
Defined.

(** * tei_collation_editor: validate *)

Section Validate.
Import tei_collation_editor.





End Validate.

(** * tei_collation_editor: the projections *)

Lemma traverse_ok_map {A B : Type} (f : A -> result B) (g : A -> B) (l : list A) :
  Forall (fun a => f a = Ok (g a)) l -> traverse f l = Ok (map g l).
Proof.
  induction 1 as [|a l Ha _ IH]; [reflexivity|].
  cbn [traverse map]. rewrite Ha. cbn [rbind]. now rewrite IH.
Qed.

Lemma traverse_ok_length {A B : Type} (f : A -> result B) (l : list A) (bs : list B) :
  traverse f l = Ok bs -> length bs = length l.
Proof.
  revert bs. induction l as [|a l IH]; intros bs H; cbn [traverse] in H.
  - now injection H as <-.
  - apply rbind_ok in H as (b & _ & H). apply rbind_ok in H as (bs' & Hbs & H).
    injection H as <-. simpl. f_equal. now apply IH.
Qed.

Lemma traverse_ok_Forall2 {A B : Type} (f : A -> result B) (l : list A) (bs : list B) :
  traverse f l = Ok bs -> Forall2 (fun a b => f a = Ok b) l bs.
Proof.
  revert bs. induction l as [|a l IH]; intros bs H; cbn [traverse] in H.
  - injection H as <-. constructor.
  - apply rbind_ok in H as (b & Hb & H). apply rbind_ok in H as (bs' & Hbs & H).
    injection H as <-. constructor; auto.
Qed.

Lemma concat_map_flat_map {A B : Type} (f : A -> list B) (l : list A) :
  concat (map f l) = flat_map f l.
Proof. induction l as [|a l IH]; [reflexivity|]. simpl. now rewrite IH. Qed.

Section Projections.
Import tei_collation_editor.

(** Among readings that all carry a [wit] attribute the search returns
    the first one that supports the witness. *)
Lemma find_wit_rdg_find (w : string) (rdgs : list element) :
  Forall (fun rdg => is_Some (get rdg "wit")) rdgs ->
  find_wit_rdg (Some w) rdgs = Ok (find (supports w) rdgs).
Proof.
  induction 1 as [|rdg rdgs [refs Hr] _ IH]; [reflexivity|].
  cbn [find_wit_rdg find rbind]. unfold supports at 1. rewrite Hr.
  cbn [of_option rbind]. now destruct (bool_decide _).
Qed.

(** The first match of [find], spelled out. *)
Lemma find_first {A : Type} (p : A -> bool) (l : list A) (a : A) :
  find p l = Some a ->
  exists l1 l2, l = l1 ++ a :: l2 /\ p a = true /\ Forall (fun x => p x = false) l1.
Proof.
  induction l as [|x l IH]; [discriminate|]. cbn [find].
  destruct (p x) eqn:Hp; intros H.
  - injection H as ->. exists [], l. auto.
  - destruct (IH H) as (l1 & l2 & -> & Ha & Hl1).
    exists (x :: l1), l2. auto.
Qed.

Lemma find_none {A : Type} (p : A -> bool) (l : list A) :
  find p l = None -> Forall (fun x => p x = false) l.
Proof.
  induction l as [|x l IH]; [constructor|]. cbn [find].
  destruct (p x) eqn:Hp; [discriminate|]. auto.
Qed.

Lemma witness_child_part (w : string) (child : element) :
  (raw_tag (tag child) = "app" ->
   Forall (fun rdg => is_Some (get rdg "wit")) (xpath_desc "rdg" child)) ->
  witness_child (Some w) child = Ok (witness_part w child).
Proof.
  intros H. unfold witness_child, witness_part, witness_reading.
  destruct (String.eqb (raw_tag (tag child)) "app") eqn:Ht; [|reflexivity].
  apply String.eqb_eq in Ht. rewrite (find_wit_rdg_find _ _ (H Ht)).
  cbn [rbind]. now destruct (find _ _).
Qed.

Lemma witness_children_parts (w : string) (body : list element) :
  readings_attributed body ->
  traverse (witness_child (Some w)) body = Ok (map (witness_part w) body).
Proof.
  intros H. apply traverse_ok_map. eapply Forall_impl; [exact H|].
  intros child Hc. now apply witness_child_part.
Qed.

(** C6, as the code has it: when the readings of the apparatuses of the
    body carry their [wit] attributes, [get_witness_xml] returns the
    projection and raises nothing.  An apparatus none of whose readings
    lists the reference of the witness contributes no element; otherwise
    the content of the first reading that lists the reference is copied,
    and no reading before it lists the reference. *)
Theorem get_witness_xml_spec (xml text body : element) (w : string) :
  find_text xml = Ok text ->
  head (xpath_desc "body" text) = Some body ->
  readings_attributed (children body) ->
  get_witness_xml xml (Some w)
  = Ok (projection text (flat_map (witness_part w) (children body)))
  /\ forall app,
      raw_tag (tag app) = "app" ->
      (Forall (fun rdg => supports w rdg = false) (xpath_desc "rdg" app) ->
       witness_part w app = [])
      /\ (forall rdg,
             witness_reading w app = Some rdg ->
             witness_part w app = children rdg
             /\ exists before after,
                 xpath_desc "rdg" app = before ++ rdg :: after
                 /\ supports w rdg = true
                 /\ Forall (fun r => supports w r = false) before).
Proof.
  intros Ht Hb Hattr. split.
  - unfold get_witness_xml. rewrite Ht. cbn [rbind]. rewrite Hb.
    cbn [of_option rbind]. rewrite (witness_children_parts _ _ Hattr).
    cbn [rbind]. now rewrite concat_map_flat_map.
  - intros app Happ. unfold witness_part, witness_reading.
    apply String.eqb_eq in Happ. rewrite Happ. split.
    + intros Hnone. destruct (find _ _) as [rdg|] eqn:Hf; [|reflexivity].
      apply find_first in Hf as (l1 & l2 & Hl & Hs & _).
      rewrite Hl in Hnone. apply Forall_app in Hnone as [_ Hnone].
      apply Forall_cons in Hnone as [Hnone _]. congruence.
    + intros rdg Hf. rewrite Hf. split; [reflexivity|].
      apply find_first in Hf as (l1 & l2 & Hl & Hs & Hl1). eauto.
Qed.

End Projections.

(** * tei_collation_editor: update_boundaries *)

Section Grouping.
Import tei_collation_editor.

Variable tostring : element -> string.

(** The loop over the witnesses reads the row of its index. *)
Lemma group_witnesses_row (i : nat) (xbw : list (string * list element))
  (rdg_segs : list element) (rs : gmap string (list (option string)))
  (seen : list string) :
  Forall (fun p => is_Some (snd p !! i)) xbw ->
  (forall s, s ∈ seen <-> is_Some (rs !! s)) ->
  group_witnesses tostring i (map lift_wit xbw) rdg_segs rs
  = Ok (rdg_segs ++ discovered tostring seen (row_at i xbw),
        fold_left (add_support tostring) (row_at i xbw) rs).
Proof.
  intros Hall. revert rdg_segs rs seen.
  induction Hall as [|[w segs] xbw [seg Hseg] _ IH]; intros rdg_segs rs seen Hseen.
  - cbn. now rewrite app_nil_r.
  - cbn [map lift_wit fst snd group_witnesses]. cbn [snd] in Hseg.
    rewrite Hseg. cbn [of_option rbind].
    unfold row_at. cbn [omap list_omap fst snd]. rewrite Hseg. cbn [fmap option_fmap option_map].
    fold (row_at i xbw). cbn [discovered fold_left].
    unfold add_support at 2. cbn [fst snd].
    destruct (rs !! tostring seg) as [wits|] eqn:Hrs.
    + rewrite bool_decide_eq_true_2 by (apply Hseen; eauto).
      cbn [default]. apply IH. intros s.
      destruct (decide (s = tostring seg)) as [->|Hne].
      * rewrite lookup_insert_eq. split; [eauto|]. intros _. apply Hseen. eauto.
      * rewrite lookup_insert_ne by congruence. apply Hseen.
    + rewrite bool_decide_eq_false_2
        by (intros Hin; apply Hseen in Hin as [? ?]; congruence).
      cbn [default app].
      rewrite (IH (rdg_segs ++ [seg]) _ (tostring seg :: seen)).
      * now rewrite <- app_assoc.
      * intros s. rewrite elem_of_cons.
        destruct (decide (s = tostring seg)) as [->|Hne].
        -- rewrite lookup_insert_eq. split; eauto.
        -- rewrite lookup_insert_ne by congruence. rewrite <- Hseen.
           split; [intros [?|?]; [congruence|auto] | auto].
Qed.

(** What the table holds for a serialization after a row. *)
Lemma fold_add_support_lookup (row : list (string * element))
  (rs : gmap string (list (option string))) (s : string) :
  fold_left (add_support tostring) row rs !! s
  = match rs !! s, supporters tostring s row with
    | None, [] => None
    | o, l => Some (default [] o ++ map Some l)
    end.
Proof.
  revert rs. induction row as [|[w seg] row IH]; intros rs; cbn [fold_left].
  - unfold supporters. cbn. destruct (rs !! s); cbn; [now rewrite app_nil_r | reflexivity].
  - rewrite IH. unfold add_support, supporters. cbn [fst snd].
    rewrite filter_cons. cbn [snd].
    destruct (decide (tostring seg = s)) as [<-|Hne].
    + rewrite lookup_insert_eq. cbn [map fst default].
      destruct (rs !! tostring seg) as [wits|];
        destruct (map fst _); cbn; rewrite <- ?app_assoc; reflexivity.
    + rewrite lookup_insert_ne by congruence. reflexivity.
Qed.

(** The table has one entry per group. *)
Lemma fold_add_support_size (row : list (string * element))
  (rs : gmap string (list (option string))) (seen : list string) :
  (forall s, s ∈ seen <-> is_Some (rs !! s)) ->
  size (fold_left (add_support tostring) row rs)
  = size rs + length (discovered tostring seen row).
Proof.
  revert rs seen. induction row as [|[w seg] row IH]; intros rs seen Hseen;
    cbn [fold_left discovered].
  - cbn. lia.
  - unfold add_support at 2. cbn [fst snd].
    destruct (rs !! tostring seg) as [wits|] eqn:Hrs.
    + rewrite bool_decide_eq_true_2 by (apply Hseen; eauto).
      rewrite (IH _ seen).
      * rewrite map_size_insert_Some by eauto. reflexivity.
      * intros s. destruct (decide (s = tostring seg)) as [->|Hne].
        -- rewrite lookup_insert_eq. split; [eauto|]. intros _. apply Hseen. eauto.
        -- rewrite lookup_insert_ne by congruence. apply Hseen.
    + rewrite bool_decide_eq_false_2
        by (intros Hin; apply Hseen in Hin as [? ?]; congruence).
      rewrite (IH _ (tostring seg :: seen)).
      * rewrite map_size_insert_None by exact Hrs. cbn [length]. lia.
      * intros s. rewrite elem_of_cons.
        destruct (decide (s = tostring seg)) as [->|Hne].
        -- rewrite lookup_insert_eq. split; eauto.
        -- rewrite lookup_insert_ne by congruence. rewrite <- Hseen.
           split; [intros [?|?]; [congruence|auto] | auto].
Qed.

(** A segment that opens a group belongs to the row. *)
Lemma discovered_in_row (seen : list string) (row : list (string * element))
  (rep : element) :
  rep ∈ discovered tostring seen row -> exists w, (w, rep) ∈ row.
Proof.
  revert seen. induction row as [|[w seg] row IH]; intros seen; cbn [discovered].
  - intros H. inversion H.
  - destruct (bool_decide _).
    + intros H. destruct (IH _ H) as [w' Hw']. exists w'. now right.
    + rewrite elem_of_cons. intros [->|H].
      * exists w. now left.
      * destruct (IH _ H) as [w' Hw']. exists w'. now right.
Qed.

Lemma supporters_nonempty (row : list (string * element)) (w : string)
  (rep : element) :
  (w, rep) ∈ row -> supporters tostring (tostring rep) row <> [].
Proof.
  intros Hin. unfold supporters. intros Hnil.
  apply map_eq_nil in Hnil.
  assert (Hf : (w, rep) ∈ filter (fun p => tostring (snd p) = tostring rep) row)
    by (apply list_elem_of_filter; auto).
  rewrite Hnil in Hf. inversion Hf.
Qed.

Lemma wit_refs_some (l : list string) :
  wit_refs (map Some l) = Ok (map (fun w => "#" +:+ w) l).
Proof.
  unfold wit_refs. induction l as [|w l IH]; [reflexivity|].
  cbn [map traverse rbind]. rewrite IH. reflexivity.
Qed.

(** The code rebuilds segment index [i] as the spec asks. *)
Lemma update_segment_rebuilt (i : nat) (xbw : list (string * list element))
  (lem_seg : element) :
  Forall (fun p => is_Some (snd p !! i)) xbw ->
  update_segment tostring (map lift_wit xbw) i lem_seg
  = Ok (rebuilt tostring (row_at i xbw) lem_seg).
Proof.
  intros Hall. unfold update_segment.
  rewrite (group_witnesses_row i xbw [] ∅ [] Hall).
  2:{ intros s. rewrite lookup_empty. split; [intros H; inversion H | intros [? ?]; discriminate]. }
  cbn [rbind app].
  rewrite (fold_add_support_size _ ∅ []).
  2:{ intros s. rewrite lookup_empty. split; [intros H; inversion H | intros [? ?]; discriminate]. }
  rewrite map_size_empty. cbn [Nat.add].
  unfold rebuilt.
  assert (Hrdgs :
    traverse (make_rdg tostring (fold_left (add_support tostring) (row_at i xbw) ∅))
         (discovered tostring [] (row_at i xbw))
    = Ok (map (group_rdg tostring (row_at i xbw))
              (discovered tostring [] (row_at i xbw)))).
  { apply traverse_ok_map. apply Forall_forall. intros rep Hrep.
    destruct (discovered_in_row _ _ _ Hrep) as [w Hw].
    pose proof (supporters_nonempty _ _ _ Hw) as Hne.
    unfold make_rdg. rewrite fold_add_support_lookup, lookup_empty.
    destruct (supporters tostring (tostring rep) (row_at i xbw)) as [|w0 l] eqn:Hs;
      [congruence|].
    cbn [of_option rbind default app]. rewrite wit_refs_some. cbn [rbind].
    unfold group_rdg. rewrite Hs. reflexivity. }
  destruct (discovered tostring [] (row_at i xbw)) as [|r1 [|r2 reps]] eqn:Hd.
  - cbn. unfold group_app. now rewrite Hd.
  - cbn. reflexivity.
  - cbn [length Nat.eqb]. rewrite Hrdgs. cbn [rbind].
    unfold group_app. rewrite Hd. reflexivity.
Qed.

End Grouping.

(** ** The projections as documents *)

Section ProjectionDocuments.
Import tei_collation_editor.

Lemma in_descendants_list (l : list element) (d : element) :
  d ∈ descendants_list l <-> exists c, c ∈ l /\ (d = c \/ d ∈ descendants c).
Proof.
  unfold descendants_list. rewrite list_elem_of_In, in_flat_map. split.
  - intros (c & Hc & Hd). exists c. rewrite list_elem_of_In. split; [exact Hc|].
    destruct Hd as [->|Hd]; [now left | right; now apply list_elem_of_In].
  - intros (c & Hc & Hd). exists c. rewrite <- list_elem_of_In. split; [exact Hc|].
    destruct Hd as [->|Hd]; [now left | right; now apply list_elem_of_In].
Qed.

(** A descendant of a descendant is a descendant. *)
Lemma descendants_trans (e d x : element) :
  d ∈ descendants e -> x ∈ descendants d -> x ∈ descendants e.
Proof.
  revert d x. induction e as [t a tx cs tl IH] using element_ind'.
  intros d x Hd Hx.
  rewrite (descendants_eq (Element t a tx cs tl)) in Hd |- *. cbn [children] in *.
  apply in_descendants_list in Hd as (c & Hc & Hd).
  apply in_descendants_list. exists c. split; [exact Hc|]. right.
  destruct Hd as [->|Hd]; [exact Hx|].
  rewrite Forall_forall in IH. eapply IH; eauto.
Qed.

(** Lists of elements that all lie in [body], at any depth, have their
    descendants there too. *)
Lemma descendants_list_inside (body part : list element) :
  (forall p, p ∈ part -> p ∈ descendants_list body) ->
  forall d, d ∈ descendants_list part -> d ∈ descendants_list body.
Proof.
  intros Hpart d Hd. apply in_descendants_list in Hd as (p & Hp & Hd).
  destruct Hd as [->|Hd]; [auto|].
  apply Hpart in Hp. apply in_descendants_list in Hp as (c & Hc & Hp).
  apply in_descendants_list. exists c. split; [exact Hc|]. right.
  destruct Hp as [->|Hp]; [exact Hd | eapply descendants_trans; eauto].
Qed.

Lemma children_in_descendants (e c : element) :
  c ∈ children e -> c ∈ descendants e.
Proof.
  intros Hc. rewrite descendants_eq. apply in_descendants_list. eauto.
Qed.

Lemma xpath_desc_in (name : string) (e d : element) :
  d ∈ xpath_desc name e -> d ∈ descendants e.
Proof. unfold xpath_desc. rewrite list_elem_of_filter. tauto. Qed.

Lemma head_in {A : Type} (l : list A) (a : A) : head l = Some a -> a ∈ l.
Proof. destruct l; [discriminate|]. intros [= ->]. now left. Qed.

(** The parts of a projection lie in the body they come from. *)
Lemma lemma_child_inside (child : element) (part : list element) :
  lemma_child child = Ok part ->
  forall p, p ∈ part -> p = child \/ p ∈ descendants child.
Proof.
  unfold lemma_child. destruct (String.eqb _ _).
  - intros H p Hp. apply rbind_ok in H as (lem & Hlem & H). injection H as <-.
    right. destruct (head _) as [lem'|] eqn:Hh; [|discriminate].
    injection Hlem as ->. apply head_in, xpath_desc_in in Hh.
    eapply descendants_trans; [exact Hh|]. now apply children_in_descendants.
  - intros [= <-] p Hp. left. now apply list_elem_of_singleton in Hp.
Qed.



Lemma parts_no_seg (f : element -> result (list element))
  (body : list element) (parts : list (list element)) :
  (forall child part, f child = Ok part ->
     forall p, p ∈ part -> p = child \/ p ∈ descendants child) ->
  traverse f body = Ok parts ->
  no_seg body -> no_seg (concat parts).
Proof.
  intros Hf Ht Hns. unfold no_seg in *. rewrite Forall_forall in *.
  intros d Hd. apply Hns. revert d Hd. apply descendants_list_inside.
  intros p Hp. apply list_elem_of_In, in_concat in Hp as (part & Hpart & Hp).
  apply list_elem_of_In in Hpart, Hp.
  apply traverse_ok_Forall2 in Ht.
  apply list_elem_of_lookup in Hpart as (i & Hi).
  destruct (Forall2_lookup_r _ _ _ _ _ Ht Hi) as (child & Hc & Hfc).
  apply in_descendants_list. exists child.
  split; [apply list_elem_of_lookup; eauto|]. eapply Hf; eauto.
Qed.

(** The shape of a projection. *)
Lemma fold_set_shape (f : string -> string) (l : list string) (e : element) :
  exists a,
    fold_left (fun t attr => set t attr (f attr)) l e
    = Element (tag e) a (text e) (children e) (tail e).
Proof.
  revert e. induction l as [|k l IH]; intros [t a x cs tl]; cbn [fold_left].
  - eexists. reflexivity.
  - cbn [set]. destruct (IH (Element t (set_attr a k (f k)) x cs tl)) as [a' ->].
    eexists. reflexivity.
Qed.

Lemma find_body_projection (text : element) (body : list element) :
  find_body (projection text body) = Ok (Element (tei "body") [] None body None).
Proof.
  unfold projection.
  destruct (fold_set_shape (fun attr => default "" (get text attr))
              (map fst (attrib text)) (new_element (tei "text"))) as [a ->].
  reflexivity.
Qed.

(** The segments of a segmented body are [seg] elements that hold
    elements of the body. *)
Lemma segment_step_inv (body : list element) (l : list element)
  (st : list element * element) :
  let P := fun s => is_tei "seg" s = true /\ forall c, c ∈ children s -> c ∈ body in
  (forall c, c ∈ l -> c ∈ body) ->
  Forall P (fst st) -> P (snd st) ->
  Forall P (fst (fold_left segment_step l st)) /\ P (snd (fold_left segment_step l st)).
Proof.
  intros P. revert st. induction l as [|c l IH]; intros [done cur] Hl Hd Hc;
    cbn [fold_left]; [auto|].
  apply IH.
  - intros c' Hc'. apply Hl. now right.
  - unfold segment_step. destruct (is_seg_divGen c); cbn [fst snd] in *; [|exact Hd].
    apply Forall_app. split; [exact Hd|]. constructor; [exact Hc|constructor].
  - unfold segment_step. destruct (is_seg_divGen c); cbn [fst snd] in *.
    + split; [reflexivity|]. intros c' Hc'. inversion Hc'.
    + destruct Hc as [Htag Hch]. destruct cur as [t a x cs tl]. cbn [append children] in *.
      split; [exact Htag|]. intros c' Hc'. apply elem_of_app in Hc' as [Hc'|Hc']; [auto|].
      apply list_elem_of_singleton in Hc' as ->. apply Hl. now left.
Qed.

Lemma segment_segs (body : list element) :
  Forall (fun s => is_tei "seg" s = true /\ forall c, c ∈ children s -> c ∈ body)
         (segment body).
Proof.
  unfold segment.
  destruct (segment_step_inv body body ([], new_element (tei "seg"))) as [Hd Hc].
  - auto.
  - constructor.
  - split; [reflexivity|]. intros c Hc. inversion Hc.
  - apply Forall_app. split; [exact Hd|]. constructor; [exact Hc|constructor].
Qed.

(** On a body without [seg] elements the query [//tei:seg] returns the
    segments themselves. *)
Lemma filter_segs (segs : list element) :
  Forall (fun s => is_tei "seg" s = true
                   /\ Forall (fun d => is_tei "seg" d = false) (descendants s)) segs ->
  filter (fun d => is_tei "seg" d = true) (descendants_list segs) = segs.
Proof.
  induction 1 as [|s segs [Hs Hd] _ IH]; [reflexivity|].
  unfold descendants_list in *. cbn [flat_map app]. rewrite filter_cons.
  rewrite decide_True by exact Hs. f_equal. rewrite filter_app, IH.
  replace (filter _ (descendants s)) with (@nil element); [reflexivity|].
  symmetry. clear -Hd. induction Hd as [|d ds Hd _ IH]; [reflexivity|].
  rewrite filter_cons. rewrite decide_False by congruence. exact IH.
Qed.

Lemma segmented_projection (text : element) (body : list element) :
  no_seg body ->
  segmented (projection text body) = Ok (segment body).
Proof.
  intros Hns. unfold segmented. rewrite find_body_projection. cbn [rbind children].
  f_equal. apply filter_segs.
  eapply Forall_impl; [apply segment_segs|]. intros s [Hs Hch]. split; [exact Hs|].
  unfold no_seg in Hns. rewrite Forall_forall in *. intros d Hd. apply Hns.
  rewrite descendants_eq in Hd. revert d Hd. apply descendants_list_inside.
  intros p Hp. apply in_descendants_list. exists p. split; [auto | now left].
Qed.

End ProjectionDocuments.

(** ** The groups of a row *)

Section Rows.

Variable tostring : element -> string.


(** The groups have pairwise different serializations, none seen before. *)
Lemma discovered_nodup (seen : list string) (row : list (string * element)) :
  NoDup (map tostring (discovered tostring seen row))
  /\ forall s, s ∈ map tostring (discovered tostring seen row) -> s ∉ seen.
Proof.
  revert seen. induction row as [|[w seg] row IH]; intros seen; cbn [discovered].
  - split; [constructor|]. intros s Hs. inversion Hs.
  - destruct (bool_decide _) eqn:Hb; [apply IH|].
    apply bool_decide_eq_false in Hb.
    destruct (IH (tostring seg :: seen)) as [Hnd Hns]. cbn [map]. split.
    + constructor; [|exact Hnd]. intros Hin. apply (Hns _ Hin). now left.
    + intros s Hs. apply elem_of_cons in Hs as [->|Hs]; [exact Hb|].
      intros Hin. apply (Hns _ Hs). now right.
Qed.






End Rows.

(** ** update_boundaries on a document *)

Section UpdateBoundariesSpec.
Import tei_collation_editor.

Variable tostring : element -> string.



End UpdateBoundariesSpec.

(** * tei_collator: the omission pass *)

(** ** Splitting a joined list of references *)

Lemma list_ascii_of_string_app (a b : string) :
  list_ascii_of_string (a +:+ b) = list_ascii_of_string a ++ list_ascii_of_string b.
Proof. induction a as [|c a IH]; [reflexivity|]. simpl. now rewrite IH. Qed.

Lemma split_ws_go_word {C : Type} (sp : C -> bool) (w cur rest : list C) :
  Forall (fun c => sp c = false) w ->
  split_ws_go sp cur (w ++ rest) = split_ws_go sp (rev w ++ cur) rest.
Proof.
  intros Hw. revert cur. induction Hw as [|c w Hc _ IH]; intros cur; [reflexivity|].
  cbn [app split_ws_go]. rewrite Hc, IH. cbn [rev]. now rewrite <- app_assoc.
Qed.

Lemma split_join (l : list string) :
  Forall word l -> split (join " " l) = l.
Proof.
  unfold split. induction 1 as [|x l [Hne Hx] Hl IH]; [reflexivity|].
  assert (Hrev : rev (list_ascii_of_string x) <> []).
  { intros H. apply (f_equal (@rev ascii)) in H. rewrite rev_involutive in H.
    simpl in H. apply Hne. rewrite <- (string_of_list_ascii_of_string x). now rewrite H. }
  destruct l as [|y l].
  - cbn [join]. rewrite <- (app_nil_r (list_ascii_of_string x)).
    rewrite split_ws_go_word by exact Hx. rewrite app_nil_r. cbn [split_ws_go].
    destruct (rev (list_ascii_of_string x)) eqn:Hr; [congruence|].
    rewrite <- Hr, rev_involutive. cbn [map]. now rewrite string_of_list_ascii_of_string.
  - change (join " " (x :: y :: l)) with (x +:+ " " +:+ join " " (y :: l)).
    rewrite !list_ascii_of_string_app. cbn [list_ascii_of_string app].
    rewrite split_ws_go_word by exact Hx. rewrite app_nil_r.
    cbn [split_ws_go]. change (is_space " ") with true. cbn iota.
    destruct (rev (list_ascii_of_string x)) eqn:Hr; [congruence|].
    rewrite <- Hr, rev_involutive. cbn [map].
    rewrite string_of_list_ascii_of_string. f_equal. exact IH.
Qed.

Lemma siglum_ref_word (w : string) : siglum w -> word ("#" +:+ w).
Proof.
  intros [_ Hw]. split; [discriminate|]. constructor; [reflexivity | exact Hw].
Qed.

Lemma siglum_ref_strip (w : string) : siglum w -> remove_all "#" ("#" +:+ w) = w.
Proof.
  intros [Hw _]. unfold remove_all in *. destruct w; [reflexivity | exact Hw].
Qed.

(** ** Removing the covered witnesses *)

Section Omissions.
Import tei_collator.

Lemma remove_refs_ok (refs : list string) (U U' : gset string) :
  remove_refs U refs = Ok U' ->
  U' = U ∖ list_to_set (map (remove_all "#") refs)
  /\ forall w, w ∈ map (remove_all "#") refs -> w ∈ U.
Proof.
  revert U. induction refs as [|r refs IH]; intros U; cbn [remove_refs map].
  - intros [= <-]. split; [set_solver | intros w Hw; inversion Hw].
  - destruct (bool_decide _) eqn:Hb; [|discriminate].
    apply bool_decide_eq_true in Hb. intros H.
    destruct (IH _ H) as [-> Hin]. split; [set_solver|].
    intros w Hw. apply elem_of_cons in Hw as [->|Hw]; [exact Hb|].
    specialize (Hin w Hw). set_solver.
Qed.

Lemma remove_refs_total (refs : list string) (U : gset string) :
  NoDup (map (remove_all "#") refs) ->
  (forall w, w ∈ map (remove_all "#") refs -> w ∈ U) ->
  exists U', remove_refs U refs = Ok U'.
Proof.
  revert U. induction refs as [|r refs IH]; intros U Hnd Hin; cbn [remove_refs].
  - eauto.
  - cbn [map] in Hnd, Hin. apply NoDup_cons in Hnd as [Hr Hnd].
    rewrite bool_decide_eq_true_2 by (apply Hin; now left).
    apply IH; [exact Hnd|]. intros w Hw.
    apply elem_of_difference. split; [apply Hin; now right|].
    intros Hs. apply elem_of_singleton in Hs as ->. contradiction.
Qed.

Lemma remove_covered_ok (rdgs : list element) (U U' : gset string) :
  remove_covered U rdgs = Ok U' ->
  U' = U ∖ list_to_set (covered_by rdgs)
  /\ forall w, w ∈ covered_by rdgs -> w ∈ U.
Proof.
  revert U. induction rdgs as [|rdg rdgs IH]; intros U; cbn [remove_covered].
  - intros [= <-]. split; [set_solver | intros w Hw; inversion Hw].
  - intros H. apply rbind_ok in H as (refs & Hrefs & H).
    apply rbind_ok in H as (U1 & HU1 & H).
    destruct (get rdg "wit") as [refs'|] eqn:Hg; [|discriminate].
    injection Hrefs as ->.
    apply remove_refs_ok in HU1 as [-> Hin1]. apply IH in H as [-> Hin].
    unfold covered_by in *. cbn [flat_map]. rewrite Hg. cbn [default].
    split.
    + rewrite list_to_set_app_L. set_solver.
    + intros w Hw. apply elem_of_app in Hw as [Hw|Hw]; [auto|].
      specialize (Hin w Hw). set_solver.
Qed.

Lemma remove_covered_total (rdgs : list element) (U : gset string) :
  Forall (fun rdg => is_Some (get rdg "wit")) rdgs ->
  NoDup (covered_by rdgs) ->
  (forall w, w ∈ covered_by rdgs -> w ∈ U) ->
  exists U', remove_covered U rdgs = Ok U'.
Proof.
  intros Hwit. revert U.
  induction Hwit as [|rdg rdgs [refs Hg] _ IH]; intros U Hnd Hin;
    cbn [remove_covered]; [eauto|].
  unfold covered_by in Hnd, Hin. cbn [flat_map] in Hnd, Hin.
  rewrite Hg in *. cbn [default of_option rbind] in *.
  apply NoDup_app in Hnd as (Hnd1 & Hdisj & Hnd2).
  destruct (remove_refs_total (split refs) U Hnd1) as [U1 HU1].
  { intros w Hw. apply Hin, elem_of_app. now left. }
  rewrite HU1. cbn [rbind]. apply IH; [exact Hnd2|].
  apply remove_refs_ok in HU1 as [-> _]. intros w Hw.
  apply elem_of_difference. split.
  - apply Hin, elem_of_app. now right.
  - intros Hs. apply elem_of_list_to_set in Hs. exact (Hdisj _ Hs Hw).
Qed.

(** ** The witnesses extant at a division *)

Lemma extant_at_ok (self : collator) (div_n : string) (ws l : list string) :
  extant_at self div_n ws = Ok l ->
  l = filter (fun w => is_extant self div_n w = true) ws.
Proof.
  revert l. induction ws as [|w ws IH]; intros l; cbn [extant_at].
  - now intros [= <-].
  - intros H. apply rbind_ok in H as (divs & Hd & H).
    apply rbind_ok in H as (rest & Hrest & H). injection H as <-.
    assert (He : is_extant self div_n w = bool_decide (is_Some (divs !! div_n))).
    { unfold is_extant. destruct (tokens_by_witness self !! w); [|discriminate].
      now injection Hd as ->. }
    rewrite filter_cons, <- (IH _ Hrest), He.
    destruct (bool_decide (is_Some (divs !! div_n))).
    + now rewrite decide_True.
    + now rewrite decide_False.
Qed.

Lemma extant_at_total (self : collator) (div_n : string) (ws : list string) :
  Forall (fun w => is_Some (tokens_by_witness self !! w)) ws ->
  extant_at self div_n ws
  = Ok (filter (fun w => is_extant self div_n w = true) ws).
Proof.
  induction 1 as [|w ws [divs Hd] _ IH]; [reflexivity|].
  assert (He : is_extant self div_n w = bool_decide (is_Some (divs !! div_n)))
    by (unfold is_extant; now rewrite Hd).
  cbn [extant_at]. rewrite Hd, IH. cbn [of_option rbind].
  rewrite filter_cons, He.
  destruct (bool_decide (is_Some (divs !! div_n))).
  - now rewrite decide_True.
  - now rewrite decide_False.
Qed.

(** ** The readings of an apparatus with its omission reading *)

Lemma xpath_desc_cons (name : string) (tg : string) (a : list (string * string))
  (x tl : option ustring) (c : element) (cs : list element) :
  xpath_desc name (Element tg a x (c :: cs) tl)
  = filter (fun d => is_tei name d = true) (c :: descendants c)
    ++ xpath_desc name (Element tg a x cs tl).
Proof.
  unfold xpath_desc.
  rewrite (descendants_eq (Element tg a x (c :: cs) tl)),
          (descendants_eq (Element tg a x cs tl)). cbn [children].
  unfold descendants_list. cbn [flat_map]. now rewrite filter_app.
Qed.

Lemma xpath_desc_snoc (name : string) (tg : string) (a : list (string * string))
  (x tl : option ustring) (c : element) (cs : list element) :
  xpath_desc name (Element tg a x (cs ++ [c]) tl)
  = xpath_desc name (Element tg a x cs tl)
    ++ filter (fun d => is_tei name d = true) (c :: descendants c).
Proof.
  unfold xpath_desc.
  rewrite (descendants_eq (Element tg a x (cs ++ [c]) tl)),
          (descendants_eq (Element tg a x cs tl)). cbn [children].
  unfold descendants_list. rewrite flat_map_app, filter_app. cbn [flat_map].
  now rewrite app_nil_r.
Qed.

Lemma covered_omission_rdg (wits : list string) :
  Forall siglum wits ->
  covered_by (filter (fun d => is_tei "rdg" d = true)
                     (omission_rdg wits :: descendants (omission_rdg wits)))
  = wits.
Proof.
  intros Hs. unfold omission_rdg. cbn [descendants].
  rewrite filter_cons, decide_True by reflexivity. rewrite filter_nil.
  unfold covered_by. cbn [flat_map get attrib get_attr].
  change (String.eqb "wit" "wit") with true. cbn [default id].
  rewrite app_nil_r, split_join.
  - rewrite map_map. clear -Hs. induction Hs as [|w wits Hw _ IH]; [reflexivity|].
    cbn [map]. now rewrite siglum_ref_strip, IH.
  - apply Forall_fmap. eapply Forall_impl; [exact Hs|].
    intros w Hw. now apply siglum_ref_word.
Qed.

Lemma covered_eq (app : element) : covered app = covered_by (xpath_desc "rdg" app).
Proof. reflexivity. Qed.

Lemma covered_by_app (l1 l2 : list element) :
  covered_by (l1 ++ l2) = covered_by l1 ++ covered_by l2.
Proof. unfold covered_by. apply flat_map_app. Qed.

Lemma ref_inj (w : string) (wits : list string) :
  "#" +:+ w ∈ map (fun w => "#" +:+ w) wits <-> w ∈ wits.
Proof.
  split.
  - intros H. apply list_elem_of_fmap in H as (w' & Heq & Hw').
    injection Heq as Heq. cbv [String.append] in Heq. now subst w'.
  - intros H. apply list_elem_of_fmap. eauto.
Qed.

(** What the pass does to one apparatus. *)
Lemma cover_spec (self : collator) (extant : list string) (child child' : element) :
  Forall siglum (witnesses self) ->
  (forall w, w ∈ extant -> w ∈ witnesses self) ->
  cover self extant child = Ok child' ->
  child' = with_omission self extant child
  /\ forall w, w ∈ covered child' <-> w ∈ extant.
Proof.
  intros Hsig Hext H. unfold cover in H.
  apply rbind_ok in H as (U & HU & H).
  apply remove_covered_ok in HU as [-> Hin].
  change (covered_by (xpath_desc "rdg" child)) with (covered child) in *.
  assert (Hfilter :
    filter (fun witness => witness ∈ (list_to_set extant ∖ list_to_set (covered child) : gset string))
           (witnesses self)
    = omitted self extant child).
  { unfold omitted. apply list_filter_iff. intros w. set_solver. }
  rewrite Hfilter in H.
  assert (Hom : forall w, w ∈ omitted self extant child
                          <-> w ∈ extant /\ w ∉ covered child).
  { intros w. unfold omitted. rewrite list_elem_of_filter. split; [tauto|].
    intros [? ?]. auto. }
  assert (Hsigo : Forall siglum (omitted self extant child)).
  { apply Forall_forall. intros w Hw. rewrite Forall_forall in Hsig.
    apply Hsig. apply Hom in Hw as [Hw _]. auto. }
  assert (Hcov : forall w, w ∈ covered child ++ omitted self extant child <-> w ∈ extant).
  { intros w. rewrite elem_of_app, Hom. split.
    - intros [Hw|[Hw _]]; [|exact Hw]. specialize (Hin w Hw). set_solver.
    - intros Hw. destruct (decide (w ∈ covered child)); auto. }
  destruct (size _ =? 0)%nat eqn:Hsz.
  - injection H as <-. apply Nat.eqb_eq, size_empty_iff in Hsz.
    assert (Hnil : omitted self extant child = []).
    { destruct (omitted self extant child) as [|w l] eqn:Ho; [reflexivity|].
      assert (Hw : w ∈ w :: l) by now left.
      apply Hom in Hw as [Hw1 Hw2]. set_solver. }
    unfold with_omission. rewrite Hnil. split; [reflexivity|].
    intros w. rewrite <- Hcov, Hnil, app_nil_r. reflexivity.
  - apply Nat.eqb_neq in Hsz.
    assert (Hne : omitted self extant child <> []).
    { intros Ho. apply Hsz, size_empty_iff, elem_of_equiv_empty. intros w Hw.
      assert (Hw' : w ∈ omitted self extant child) by (apply Hom; set_solver).
      rewrite Ho in Hw'. inversion Hw'. }
    unfold with_omission.
    destruct (omitted self extant child) as [|w0 wits] eqn:Ho; [congruence|].
    rewrite <- Ho in *. clear Hne.
    change (set (new_element (tei "rdg")) "wit" ?v)
      with (Element (tei "rdg") [("wit", v)] None [] None) in H.
    fold (omission_rdg (omitted self extant child)) in H.
    rewrite (bool_decide_ext _ (lemma self ∈ omitted self extant child)) in H
      by apply ref_inj.
    destruct (bool_decide (lemma self ∈ omitted self extant child)).
    + destruct child as [tg a x [|c cs] tl]; [discriminate|].
      cbn [add_first] in H. injection H as <-. split; [reflexivity|].
      intros w. rewrite <- Hcov.
      rewrite !covered_eq, xpath_desc_cons, covered_by_app.
      rewrite covered_omission_rdg by exact Hsigo.
      rewrite !elem_of_app. tauto.
    + injection H as <-. destruct child as [tg a x cs tl].
      cbn [append]. split; [reflexivity|].
      intros w. rewrite <- Hcov.
      rewrite !covered_eq, xpath_desc_snoc, covered_by_app.
      rewrite covered_omission_rdg by exact Hsigo.
      reflexivity.
Qed.

Lemma cover_total (self : collator) (extant : list string) (child : element) :
  Forall (fun rdg => is_Some (get rdg "wit")) (xpath_desc "rdg" child) ->
  NoDup (covered child) ->
  (forall w, w ∈ covered child -> w ∈ extant) ->
  children child <> [] ->
  exists child', cover self extant child = Ok child'.
Proof.
  intros Hwit Hnd Hin Hch. unfold cover.
  destruct (remove_covered_total (xpath_desc "rdg" child) (list_to_set extant) Hwit Hnd)
    as [U HU].
  { intros w Hw. apply elem_of_list_to_set. now apply Hin. }
  rewrite HU. cbn [rbind]. destruct (size U =? 0)%nat; [eauto|].
  destruct (bool_decide _); [|eauto].
  destruct child as [tg a x [|c cs] tl]; [now cbn in Hch|]. cbn [add_first]. eauto.
Qed.

End Omissions.

(** ** The pass over the collation *)

Section Coverage.
Import tei_collator.

Variable self : collator.

Lemma is_division_not_app (child : element) :
  is_division self child = true ->
  String.eqb (raw_tag (tag child)) "app" = false.
Proof.
  unfold is_division. intros H.
  apply andb_true_iff in H as [H _]. apply andb_true_iff in H as [H _].
  apply String.eqb_eq in H. now rewrite H.
Qed.

Lemma extant_in_witnesses (div_n : string) (w : string) :
  w ∈ extant_witnesses_at self div_n -> w ∈ witnesses self.
Proof. unfold extant_witnesses_at. rewrite list_elem_of_filter. tauto. Qed.

Lemma add_omissions_spec (collation collation' : list element)
  (extant : list string) :
  Forall siglum (witnesses self) ->
  (forall w, w ∈ extant -> w ∈ witnesses self) ->
  add_omissions self extant collation = Ok collation' ->
  Forall2 (coverage_complete self) (with_extant self extant collation) collation'.
Proof.
  intros Hsig. revert extant collation'.
  induction collation as [|child rest IH]; intros extant collation' Hext H;
    cbn [add_omissions with_extant] in *.
  - injection H as <-. constructor.
  - destruct (is_division self child) eqn:Hdiv.
    + apply rbind_ok in H as (ext & Hx & H).
      apply rbind_ok in H as (rest' & Hrest & H). injection H as <-.
      apply extant_at_ok in Hx.
      constructor.
      * unfold coverage_complete. cbn [fst]. now rewrite is_division_not_app.
      * unfold extant_witnesses_at. rewrite <- Hx. apply IH; [|exact Hrest].
        intros w Hw. rewrite Hx in Hw. apply list_elem_of_filter in Hw. tauto.
    + destruct (String.eqb (raw_tag (tag child)) "app") eqn:Happ.
      * apply rbind_ok in H as (child' & Hc & H).
        apply rbind_ok in H as (rest' & Hrest & H). injection H as <-.
        constructor; [|now apply IH].
        unfold coverage_complete. cbn [fst snd]. rewrite Happ.
        destruct (cover_spec self extant child child' Hsig Hext Hc). auto.
      * apply rbind_ok in H as (rest' & Hrest & H). injection H as <-.
        constructor; [|now apply IH].
        unfold coverage_complete. cbn [fst]. now rewrite Happ.
Qed.

Lemma add_omissions_total (collation : list element) (extant : list string) :
  Forall (fun w => is_Some (tokens_by_witness self !! w)) (witnesses self) ->
  Forall (fun p =>
            raw_tag (tag (fst p)) = "app" ->
            Forall (fun rdg => is_Some (get rdg "wit")) (xpath_desc "rdg" (fst p))
            /\ NoDup (covered (fst p))
            /\ (forall w, w ∈ covered (fst p) -> w ∈ snd p)
            /\ children (fst p) <> [])
         (with_extant self extant collation) ->
  exists collation', add_omissions self extant collation = Ok collation'.
Proof.
  intros Hkeys. revert extant.
  induction collation as [|child rest IH]; intros extant Hok;
    cbn [add_omissions with_extant] in *; [eauto|].
  destruct (is_division self child) eqn:Hdiv.
  - apply Forall_cons in Hok as [_ Hok].
    rewrite (extant_at_total self _ _ Hkeys). cbn [rbind].
    destruct (IH _ Hok) as [rest' Hrest]. unfold extant_witnesses_at in Hrest.
    rewrite Hrest. cbn [rbind]. eauto.
  - apply Forall_cons in Hok as [Hc Hok]. cbn [fst snd] in Hc.
    destruct (IH _ Hok) as [rest' Hrest].
    destruct (String.eqb (raw_tag (tag child)) "app") eqn:Happ.
    + apply String.eqb_eq in Happ. destruct (Hc Happ) as (Hwit & Hnd & Hin & Hch).
      destruct (cover_total self extant child Hwit Hnd Hin Hch) as [child' ->].
      cbn [rbind]. rewrite Hrest. cbn [rbind]. eauto.
    + rewrite Hrest. cbn [rbind]. eauto.
Qed.

(** C7: when [collate] returns, every apparatus among the children of the
    collation refers, through the readings under it, to exactly the
    witnesses extant at its division.  Where the readings of the engine
    leave extant witnesses out, the apparatus has gained one empty reading
    that lists exactly those witnesses, as its first child when the lemma
    witness is among them and as its last child otherwise; every other
    child is as the engine delivered it.  The pass runs through on every
    collation whose readings name extant witnesses, each at most once. *)
Theorem collate_coverage (collation : list element) :
  Forall siglum (witnesses self) ->
  (engine_output_ok self collation ->
   exists collation', collate_omissions self collation = Ok collation')
  /\ forall collation',
      collate_omissions self collation = Ok collation' ->
      Forall2 (coverage_complete self) (with_extant self [] collation) collation'.
Proof.
  intros Hsig. unfold collate_omissions. split.
  - intros [Hkeys Hok]. now apply add_omissions_total.
  - intros collation' H. apply (add_omissions_spec _ _ _ Hsig); [|exact H].
    intros w Hw. inversion Hw.
Qed.

End Coverage.

(** * tei_labeler: add_types *)

Lemma forallb_Forall {A : Type} (f : A -> bool) (l : list A) :
  forallb f l = true <-> Forall (fun x => f x = true) l.
Proof.
  induction l as [|x l IH]; cbn [forallb].
  - split; [constructor | reflexivity].
  - rewrite andb_true_iff, Forall_cons, IH. reflexivity.
Qed.

Lemma forallb_not_Forall {A : Type} (f : A -> bool) (l : list A) :
  forallb f l = false <-> ~ Forall (fun x => f x = true) l.
Proof.
  rewrite <- forallb_Forall. destruct (forallb f l); split; congruence.
Qed.

Lemma get_set_attr_eq (a : list (string * string)) (k v : string) :
  get_attr (set_attr a k v) k = Some v.
Proof.
  induction a as [|[k' v'] a IH]; cbn [set_attr get_attr].
  - now rewrite String.eqb_refl.
  - destruct (String.eqb k' k) eqn:Hk; cbn [get_attr]; now rewrite Hk.
Qed.

Lemma get_set_attr_ne (a : list (string * string)) (k k' v : string) :
  k <> k' -> get_attr (set_attr a k v) k' = get_attr a k'.
Proof.
  intros Hne. induction a as [|[k0 v0] a IH]; cbn [set_attr get_attr].
  - now rewrite (proj2 (String.eqb_neq k k')).
  - destruct (String.eqb k0 k) eqn:Hk; cbn [get_attr].
    + apply String.eqb_eq in Hk as ->. now rewrite (proj2 (String.eqb_neq k k')).
    + now rewrite IH.
Qed.

Section AddTypesSpec.
Import tei_labeler tei_normalizer.

Context {U : unicodedata}.



(** [add_types] returns when every apparatus has a reading. *)
Lemma app_type_total (app primary : element) (variants : list element) :
  xpath_desc "rdg" app = primary :: variants -> exists ty, app_type app = Ok ty.
Proof.
  intros Hx. unfold app_type. rewrite Hx.
  repeat match goal with
         | |- context [if ?b then _ else _] => destruct b
         end; eauto.
Qed.



End AddTypesSpec.

(** * tei_labeler: add_indices *)

(** ** [int] and [str] *)

Lemma is_digit_not_space (c : ascii) : is_digit c = true -> is_space c = false.
Proof.
  unfold is_digit, is_space. intros H. apply andb_true_iff in H as [H1 H2].
  apply Nat.leb_le in H1, H2.
  repeat match goal with
         | |- context [(?a <=? ?b)%nat] =>
             destruct (Nat.leb_spec a b)
         | |- context [(?a =? ?b)%nat] =>
             destruct (Nat.eqb_spec a b)
         end; simpl; try reflexivity; lia.
Qed.

Lemma string_of_uint_digits (d : Decimal.uint) :
  digit_string (NilEmpty.string_of_uint d).
Proof.
  unfold digit_string. induction d; cbn; constructor; auto.
Qed.

Lemma lstrip_digits (s : string) : digit_string s -> lstrip s = s.
Proof.
  destruct s as [|c s]; [reflexivity|]. intros H. apply Forall_cons in H as [H _].
  cbn [lstrip]. now rewrite is_digit_not_space.
Qed.

Lemma rstrip_digits (s : string) : digit_string s -> rstrip s = s.
Proof.
  induction s as [|c s IH]; [reflexivity|]. intros H.
  apply Forall_cons in H as [Hc Hs]. cbn [rstrip]. rewrite (IH Hs).
  destruct s; [|reflexivity]. now rewrite is_digit_not_space.
Qed.

Lemma digits_digit_string (s : string) (b : bool) :
  digit_string s -> (b = true \/ s <> "") -> digits b s = Some s.
Proof.
  revert b. induction s as [|c s IH]; intros b Hs Hb.
  - destruct Hb as [->|Hb]; [reflexivity | congruence].
  - apply Forall_cons in Hs as [Hc Hs]. cbn [digits]. rewrite Hc.
    rewrite (IH true Hs) by now left. reflexivity.
Qed.

Lemma int_digits (s : string) (d : Decimal.uint) :
  d <> Decimal.Nil -> s = NilEmpty.string_of_uint d ->
  int s = Ok (Z.of_uint d) /\ int (String "-" s) = Ok (- Z.of_uint d)%Z.
Proof.
  intros Hd ->. pose proof (string_of_uint_digits d) as Hs.
  assert (Hne : NilEmpty.string_of_uint d <> "") by (destruct d; cbn; congruence).
  assert (H0 : exists c s', NilEmpty.string_of_uint d = String c s' /\ is_digit c = true).
  { destruct (NilEmpty.string_of_uint d) as [|c s'] eqn:E; [congruence|].
    apply Forall_cons in Hs as [Hc _]. eauto. }
  destruct H0 as (c & s' & E & Hc).
  split.
  - unfold int, strip. rewrite lstrip_digits, rstrip_digits by exact Hs.
    rewrite E. rewrite <- E.
    assert (Hm : Ascii.eqb c "-" = false)
      by (apply Ascii.eqb_neq; intros ->; discriminate).
    assert (Hp : Ascii.eqb c "+" = false)
      by (apply Ascii.eqb_neq; intros ->; discriminate).
    rewrite Hm, Hp. rewrite digits_digit_string by auto.
    rewrite NilEmpty.usu. f_equal; lia.
  - unfold int, strip. cbn [lstrip]. change (is_space "-") with false. cbn iota.
    cbn [rstrip]. rewrite rstrip_digits by exact Hs.
    rewrite E. rewrite <- E. change (Ascii.eqb "-" "-") with true. cbn iota.
    rewrite digits_digit_string by auto.
    rewrite NilEmpty.usu. f_equal; lia.
Qed.

Lemma int_str (i : Z) : int (str i) = Ok i.
Proof.
  unfold str. destruct i as [|p|p]; [reflexivity| |].
  - cbn [Z.to_int NilZero.string_of_int]. unfold NilZero.string_of_uint.
    pose proof (Unsigned.to_uint_nonnil p) as Hn.
    destruct (int_digits (NilEmpty.string_of_uint (Pos.to_uint p)) (Pos.to_uint p) Hn eq_refl)
      as [H _].
    destruct (Pos.to_uint p) eqn:E; [congruence| ..]; rewrite H;
      unfold Z.of_uint; rewrite <- E, Unsigned.of_to; reflexivity.
  - cbn [Z.to_int NilZero.string_of_int]. unfold NilZero.string_of_uint.
    pose proof (Unsigned.to_uint_nonnil p) as Hn.
    destruct (int_digits (NilEmpty.string_of_uint (Pos.to_uint p)) (Pos.to_uint p) Hn eq_refl)
      as [_ H].
    destruct (Pos.to_uint p) eqn:E; [congruence| ..]; rewrite H;
      unfold Z.of_uint; rewrite <- E, Unsigned.of_to; reflexivity.
Qed.

Lemma str_inj (i j : Z) : str i = str j -> i = j.
Proof.
  intros H. apply (f_equal int) in H. rewrite !int_str in H. now injection H.
Qed.

(** ** The equations of [walk] *)

Section Walk.
Import tei_labeler.

Lemma walk_eq (seek : bool) (self : labeler) (tg : string)
  (a : list (string * string)) (x : option ustring) (cs : list element)
  (tl : option ustring) :
  walk seek self (Element tg a x cs tl)
  = if seek
    then
      if String.eqb tg (tei "lem")
      then r <- index_children self cs ;;
           Ok (true, fst r, Element tg a x (snd r) tl)
      else r <- seek_children self cs ;;
           Ok (fst r, Element tg a x (snd r) tl)
    else
      if String.eqb (raw_tag tg) "divGen"
      then self' <- index_divGen self (Element tg a x cs tl) ;;
           Ok (false, self', Element tg a x cs tl)
      else if String.eqb (raw_tag tg) "w"
      then self' <- index_w self ;; Ok (false, self', Element tg a x cs tl)
      else if String.eqb (raw_tag tg) "app"
      then
        r <- seek_children (ensure_w self) cs ;;
        if fst (fst r)
        then
          n <- app_n (div_hierarchy (snd (fst r))) (div_indices (ensure_w self))
                     (div_indices (snd (fst r)))
                     (negb (length (xpath_desc "w" (Element tg a x (snd r) tl)) =? 0)%nat) ;;
          Ok (false, snd (fst r), set (Element tg a x (snd r) tl) "n" n)
        else Raise IndexError
      else
        r <- index_children self cs ;;
        Ok (false, fst r, Element tg a x (snd r) tl).
Proof. reflexivity. Qed.

(** ** Words *)

Lemma walk_w (self : labeler) (e : element) :
  raw_tag (tag e) = "w" ->
  walk false self e = (self' <- index_w self ;; Ok (false, self', e)).
Proof.
  destruct e as [tg a x cs tl]. cbn [tag]. intros H.
  rewrite walk_eq. cbn match. now rewrite H.
Qed.

Lemma index_w_in_verse (self : labeler) (b c v : string) (u : Z) :
  in_verse self b c v u ->
  exists self', index_w self = Ok self' /\ in_verse self' b c v (u + 2).
Proof.
  intros (Hh & Hb & Hc & Hv & Hw). unfold index_w, ensure_w, bump_w.
  rewrite Hw. cbn [of_option rbind]. rewrite Hw. cbn [of_option rbind].
  rewrite int_str. cbn [rbind]. eexists. split; [reflexivity|].
  unfold in_verse. cbn [div_hierarchy div_indices].
  rewrite lookup_insert_eq, !lookup_insert_ne by discriminate. auto.
Qed.

Lemma index_w_indices (self self' : labeler) (u : Z) :
  div_indices self !! "w" = Some (str u) ->
  index_w self = Ok self' ->
  div_hierarchy self' = div_hierarchy self
  /\ div_indices self' = <["w" := str (u + 2)]> (div_indices self).
Proof.
  intros Hw. unfold index_w, ensure_w, bump_w.
  rewrite Hw. cbn [of_option rbind]. rewrite Hw. cbn [of_option rbind].
  rewrite int_str. cbn [rbind]. intros [= <-]. auto.
Qed.

(** A run of [m] words moves the word index by [2 m] and nothing else. *)
Lemma index_children_words (ws : list element) (self : labeler) (u : Z) :
  Forall (fun e => raw_tag (tag e) = "w") ws ->
  div_indices self !! "w" = Some (str u) ->
  exists self',
    index_children self ws = Ok (self', ws)
    /\ div_hierarchy self' = div_hierarchy self
    /\ div_indices self'
       = match ws with
         | [] => div_indices self
         | _ => <["w" := str (u + 2 * Z.of_nat (length ws))]> (div_indices self)
         end.
Proof.
  intros Hws. revert self u.
  induction Hws as [|e ws He _ IH]; intros self u Hw; cbn [index_children].
  - eauto.
  - rewrite (walk_w _ _ He).
    assert (Hi : exists self1, index_w self = Ok self1).
    { unfold index_w, ensure_w, bump_w. rewrite Hw. cbn [of_option rbind].
      rewrite Hw. cbn [of_option rbind]. rewrite int_str. cbn [rbind]. eauto. }
    destruct Hi as [self1 Hi]. rewrite Hi. cbn [rbind fst snd].
    destruct (index_w_indices _ _ _ Hw Hi) as [Hh1 Hi1].
    destruct (IH self1 (u + 2)%Z) as (self' & Hr & Hh & Hidx).
    { rewrite Hi1. apply lookup_insert_eq. }
    rewrite Hr. cbn [rbind fst snd]. eexists. split; [reflexivity|].
    split; [congruence|]. rewrite Hidx, Hi1.
    destruct ws as [|e' ws].
    + cbn [length]. do 2 f_equal; lia.
    + rewrite insert_insert_eq. cbn [length]. do 2 f_equal; lia.
Qed.

End Walk.

(** ** The label of a span of words *)

Section WordSpan.
Import tei_labeler.

Lemma append_assoc (s1 s2 s3 : string) :
  (s1 +:+ s2) +:+ s3 = s1 +:+ s2 +:+ s3.
Proof.
  induction s1 as [|c s1 IH]; [reflexivity|].
  change ((String c s1 +:+ s2) +:+ s3) with (String c ((s1 +:+ s2) +:+ s3)).
  change (String c s1 +:+ s2 +:+ s3) with (String c (s1 +:+ s2 +:+ s3)).
  now f_equal.
Qed.

Lemma citation_in_verse (indices : gmap string string) (b c v w : string) :
  indices !! "book" = Some b -> indices !! "chapter" = Some c ->
  indices !! "verse" = Some v -> indices !! "w" = Some w ->
  let h := ["book"; "chapter"; "verse"; "w"] in
  citation h h indices
  = Ok ("B" +:+ b +:+ "K" +:+ c +:+ "V" +:+ v +:+ "U" +:+ w)
  /\ citation h ["w"] indices = Ok ("U" +:+ w).
Proof.
  intros Hb Hc Hv Hw h. unfold citation, h.
  change (bool_decide ("incipit" ∈ ["book"; "chapter"; "verse"; "w"])) with false.
  change (bool_decide ("explicit" ∈ ["book"; "chapter"; "verse"; "w"])) with false.
  cbn [orb andb traverse].
  change (div_abbreviations !! "book") with (Some "B").
  change (div_abbreviations !! "chapter") with (Some "K").
  change (div_abbreviations !! "verse") with (Some "V").
  change (div_abbreviations !! "w") with (Some "U").
  rewrite Hb, Hc, Hv, Hw. cbn [of_option rbind join]. split; [|reflexivity].
  reflexivity.
Qed.

Lemma insert_w_ne (indices : gmap string string) (i j : Z) :
  i <> j -> <["w" := str i]> indices <> <["w" := str j]> indices.
Proof.
  intros Hne Heq. apply (f_equal (fun m => m !! "w")) in Heq.
  rewrite !lookup_insert_eq in Heq. injection Heq as Heq.
  now apply str_inj in Heq.
Qed.

(** C5, as the code has it: [add_indices] labels an apparatus with the
    abbreviations and indices of the divisions in force (book B, chapter
    K, verse V, word U), and every word of the lemma reading advances the
    word index by 2.  For a labeler inside a verse after the word of
    index [u], an apparatus whose lemma reading is one word receives the
    citation of the word index [u + 2]; one whose lemma reading is a run
    of [k > 1] words receives that citation, a hyphen, and the word level
    alone with the index [u + 2 k] of the last word, the first level at
    which start and end differ.  The labeler is left after that last
    word. *)
Lemma add_indices_word_span (self : labeler) (b c v : string) (u : Z)
  (a la : list (string * string)) (x tl lx ltl : option ustring)
  (ws rdgs : list element) :
  in_verse self b c v u ->
  ws <> [] ->
  Forall (fun e => raw_tag (tag e) = "w") ws ->
  let app := Element (tei "app") a x (Element (tei "lem") la lx ws ltl :: rdgs) tl in
  let last := (u + 2 * Z.of_nat (length ws))%Z in
  exists self',
    add_indices self app
    = Ok (self',
          set app "n" (if (length ws =? 1)%nat
                       then cite b c v (u + 2)
                       else cite b c v (u + 2) +:+ "-" +:+ "U" +:+ str last))
    /\ in_verse self' b c v last.
Proof.
  intros (Hh & Hb & Hc & Hv & Hw) Hne Hws app last.
  destruct (index_children_words ws self u Hws Hw) as (self' & Hr & Hh' & Hi').
  assert (Hidx : div_indices self' = <["w" := str last]> (div_indices self))
    by (destruct ws; [congruence | exact Hi']).
  assert (Hm : (1 <= Z.of_nat (length ws))%Z)
    by (destruct ws; [congruence | cbn [length]; lia]).
  exists self'. split.
  2:{ unfold in_verse. rewrite Hh', Hidx, lookup_insert_eq,
        !lookup_insert_ne by discriminate. auto. }
  unfold add_indices, app. rewrite walk_eq.
  change (raw_tag (tei "app")) with "app". cbn match.
  assert (He : ensure_w self = self) by (unfold ensure_w; now rewrite Hw).
  rewrite He. cbn [seek_children]. rewrite walk_eq.
  change (String.eqb (tei "lem") (tei "lem")) with true. cbn match.
  rewrite Hr. cbn [rbind fst snd].
  unfold app_n. rewrite Hh', Hh, Hidx.
  rewrite bool_decide_eq_false_2.
  2:{ intros Heq. apply (f_equal (fun m => m !! "w")) in Heq.
      rewrite lookup_insert_eq, Hw in Heq. injection Heq as Heq.
      apply str_inj in Heq. unfold last in Heq. lia. }
  unfold bump_w. rewrite Hw. cbn [of_option rbind]. rewrite int_str. cbn [rbind].
  destruct (citation_in_verse (<["w" := str (u + 2)]> (div_indices self)) b c v
              (str (u + 2))) as [Hcs _];
    [now rewrite lookup_insert_ne by discriminate ..| apply lookup_insert_eq |].
  destruct (citation_in_verse (<["w" := str last]> (div_indices self)) b c v
              (str last)) as [_ Hce];
    [now rewrite lookup_insert_ne by discriminate ..| apply lookup_insert_eq |].
  cbv zeta in Hcs, Hce.
  destruct (length ws =? 1)%nat eqn:Hlen.
  - apply Nat.eqb_eq in Hlen.
    assert (Hl : last = (u + 2)%Z) by (unfold last; rewrite Hlen; lia).
    rewrite Hl. rewrite bool_decide_eq_true_2 by reflexivity.
    rewrite Hcs. reflexivity.
  - apply Nat.eqb_neq in Hlen.
    assert (Hl : (u + 2)%Z <> last) by (unfold last; lia).
    rewrite bool_decide_eq_false_2 by now apply insert_w_ne.
    cbn [difference_level].
    rewrite !lookup_insert_ne by discriminate. rewrite Hb, Hc, Hv.
    rewrite !lookup_insert_eq. cbn [of_option rbind].
    rewrite !String.eqb_refl. cbn [negb].
    rewrite (proj2 (String.eqb_neq (str (u + 2)) (str last)))
      by (intros Heq; now apply str_inj in Heq).
    cbn [negb rbind]. rewrite Hcs. cbn [rbind mbind option_bind index].
    change (String.eqb "book" "w") with false.
    change (String.eqb "chapter" "w") with false.
    change (String.eqb "verse" "w") with false.
    change (String.eqb "w" "w") with true.
    cbn [fmap option_fmap option_map of_option rbind drop].
    rewrite Hce. reflexivity.
Qed.

End WordSpan.

(** * tei_labeler: labeling twice *)

Lemma set_attr_idem (a : list (string * string)) (k v : string) :
  set_attr (set_attr a k v) k v = set_attr a k v.
Proof.
  induction a as [|[k' v'] a IH]; cbn [set_attr].
  - now rewrite String.eqb_refl.
  - destruct (String.eqb k' k) eqn:Hk; cbn [set_attr]; rewrite Hk; [reflexivity|].
    now rewrite IH.
Qed.

Lemma set_attr_fixed (a : list (string * string)) (k v : string) :
  get_attr a k = Some v -> set_attr a k v = a.
Proof.
  induction a as [|[k' v'] a IH]; cbn [get_attr set_attr]; [discriminate|].
  destruct (String.eqb k' k); [now intros [= ->] | intros H; now rewrite IH].
Qed.

Lemma xpath_desc_attrib (name tg : string) (a a' : list (string * string))
  (x tl : option ustring) (cs : list element) :
  xpath_desc name (Element tg a x cs tl) = xpath_desc name (Element tg a' x cs tl).
Proof.
  unfold xpath_desc.
  now rewrite (descendants_eq (Element tg a x cs tl)),
              (descendants_eq (Element tg a' x cs tl)).
Qed.

Section WalkTwice.
Import tei_labeler.

Lemma children_stable (cs : list element) :
  Forall walk_stable cs ->
  (forall self r, index_children self cs = Ok r -> index_children self (snd r) = Ok r)
  /\ (forall self r, seek_children self cs = Ok r -> seek_children self (snd r) = Ok r).
Proof.
  induction 1 as [|c cs Hc _ [IHi IHs]]; split; intros self r H.
  - cbn in H. now injection H as <-.
  - cbn in H. now injection H as <-.
  - cbn [index_children] in H.
    apply rbind_ok in H as (r1 & H1 & H). apply rbind_ok in H as (r' & H' & H).
    injection H as <-. cbn [snd index_children].
    rewrite (Hc _ _ _ H1). cbn [rbind]. rewrite (IHi _ _ H'). reflexivity.
  - cbn [seek_children] in H.
    apply rbind_ok in H as (r1 & H1 & H).
    destruct (fst (fst r1)) eqn:Hf.
    + injection H as <-. cbn [snd seek_children].
      rewrite (Hc _ _ _ H1). cbn [rbind]. now rewrite Hf.
    + apply rbind_ok in H as (r' & H' & H). injection H as <-.
      cbn [snd seek_children]. rewrite (Hc _ _ _ H1). cbn [rbind]. rewrite Hf.
      rewrite (IHs _ _ H'). reflexivity.
Qed.

Lemma walk_twice (e : element) : walk_stable e.
Proof.
  induction e as [tg a x cs tl IH] using element_ind'.
  destruct (children_stable cs IH) as [Hi Hs].
  intros seek self r H. rewrite walk_eq in H.
  destruct seek.
  - destruct (String.eqb tg (tei "lem")) eqn:Hlem.
    + apply rbind_ok in H as (r1 & H1 & H). injection H as <-.
      cbn [snd]. rewrite walk_eq, Hlem. rewrite (Hi _ _ H1). reflexivity.
    + apply rbind_ok in H as (r1 & H1 & H). injection H as <-.
      cbn [snd]. rewrite walk_eq, Hlem. rewrite (Hs _ _ H1). reflexivity.
  - destruct (String.eqb (raw_tag tg) "divGen") eqn:Hd.
    { apply rbind_ok in H as (self' & H1 & H). injection H as <-.
      cbn [snd]. rewrite walk_eq, Hd, H1. reflexivity. }
    destruct (String.eqb (raw_tag tg) "w") eqn:Hw.
    { apply rbind_ok in H as (self' & H1 & H). injection H as <-.
      cbn [snd]. rewrite walk_eq, Hd, Hw, H1. reflexivity. }
    destruct (String.eqb (raw_tag tg) "app") eqn:Happ.
    + apply rbind_ok in H as (r1 & H1 & H).
      destruct (fst (fst r1)) eqn:Hf; [|discriminate].
      apply rbind_ok in H as (n & Hn & H). injection H as <-.
      cbn [snd set]. rewrite walk_eq, Hd, Hw, Happ.
      rewrite (Hs _ _ H1). cbn [rbind]. rewrite Hf.
      rewrite (xpath_desc_attrib "w" tg (set_attr a "n" n) a).
      rewrite Hn. cbn [rbind set]. now rewrite set_attr_idem.
    + apply rbind_ok in H as (r1 & H1 & H). injection H as <-.
      cbn [snd]. rewrite walk_eq, Hd, Hw, Happ. rewrite (Hi _ _ H1). reflexivity.
Qed.

End WalkTwice.

(** ** What the labeler reads: the tree without its attributes *)

Lemma skeleton_tag (e : element) : tag (skeleton e) = tag e.
Proof. now destruct e. Qed.

Lemma skeleton_text (e : element) : text (skeleton e) = text e.
Proof. now destruct e. Qed.

Lemma skeleton_children (e : element) :
  children (skeleton e) = map skeleton (children e).
Proof. now destruct e. Qed.

Lemma skeleton_set (e : element) (k v : string) : skeleton (set e k v) = skeleton e.
Proof. now destruct e. Qed.

Lemma skeleton_descendants (e : element) :
  descendants (skeleton e) = map skeleton (descendants e).
Proof.
  induction e as [tg a x cs tl IH] using element_ind'.
  rewrite (descendants_eq (Element tg a x cs tl)), descendants_eq.
  cbn [skeleton children]. unfold descendants_list.
  induction IH as [|c cs Hc _ IHcs]; [reflexivity|].
  cbn [map flat_map]. rewrite map_app, Hc, IHcs. reflexivity.
Qed.

Lemma filter_tei_skeleton (name : string) (l : list element) :
  filter (fun d => is_tei name d = true) (map skeleton l)
  = map skeleton (filter (fun d => is_tei name d = true) l).
Proof.
  induction l as [|d l IH]; [reflexivity|].
  assert (Hd : is_tei name (skeleton d) = is_tei name d)
    by (unfold is_tei; now rewrite skeleton_tag).
  cbn [map]. rewrite !filter_cons, IH.
  destruct (is_tei name d) eqn:Ht.
  - rewrite !decide_True by congruence. reflexivity.
  - rewrite !decide_False by congruence. reflexivity.
Qed.

Lemma xpath_desc_skeleton (name : string) (e : element) :
  xpath_desc name (skeleton e) = map skeleton (xpath_desc name e).
Proof.
  unfold xpath_desc. now rewrite skeleton_descendants, filter_tei_skeleton.
Qed.

Section Skeleton.
Import tei_labeler.
Context {U : unicodedata}.

Lemma rdg_serialization_skeleton (rdg : element) :
  rdg_serialization (skeleton rdg) = rdg_serialization rdg.
Proof.
  unfold rdg_serialization. rewrite skeleton_children, map_map. f_equal.
  apply map_ext. intros el. now rewrite skeleton_text, skeleton_tag.
Qed.

Lemma app_type_skeleton (e : element) : app_type (skeleton e) = app_type e.
Proof.
  unfold app_type. rewrite xpath_desc_skeleton.
  destruct (xpath_desc "rdg" e) as [|p vs]; [reflexivity|].
  cbn [map]. rewrite rdg_serialization_skeleton, map_map.
  rewrite (map_ext (fun x => rdg_serialization (skeleton x)) rdg_serialization)
    by (intros; apply rdg_serialization_skeleton).
  reflexivity.
Qed.

Lemma app_type_same_skeleton (e e' : element) :
  skeleton e' = skeleton e -> app_type e' = app_type e.
Proof. intros H. now rewrite <- (app_type_skeleton e'), H, app_type_skeleton. Qed.

(** [add_types] and [walk] leave the tree without its attributes alone. *)
Lemma add_types_skeleton (e e' : element) :
  add_types e = Ok e' -> skeleton e' = skeleton e.
Proof.
  revert e'. induction e as [tg a x cs tl IH] using element_ind'.
  intros e' H. cbn [add_types] in H.
  apply rbind_ok in H as (a' & _ & H). apply rbind_ok in H as (cs' & Hcs & H).
  injection H as <-. cbn [skeleton]. f_equal.
  apply traverse_ok_Forall2 in Hcs.
  induction Hcs as [|c c' cs cs' Hc _ IHcs]; [reflexivity|].
  apply Forall_cons in IH as [IHc IH]. cbn [map]. f_equal; auto.
Qed.

Lemma children_skeleton (cs : list element) :
  Forall (fun e => forall seek self r, walk seek self e = Ok r ->
                                      skeleton (snd r) = skeleton e) cs ->
  (forall self r, index_children self cs = Ok r ->
                  map skeleton (snd r) = map skeleton cs)
  /\ (forall self r, seek_children self cs = Ok r ->
                     map skeleton (snd r) = map skeleton cs).
Proof.
  induction 1 as [|c cs Hc _ [IHi IHs]]; split; intros self r H.
  - cbn in H. now injection H as <-.
  - cbn in H. now injection H as <-.
  - cbn [index_children] in H.
    apply rbind_ok in H as (r1 & H1 & H). apply rbind_ok in H as (r' & H' & H).
    injection H as <-. cbn [snd map]. f_equal; eauto.
  - cbn [seek_children] in H.
    apply rbind_ok in H as (r1 & H1 & H).
    destruct (fst (fst r1)).
    + injection H as <-. cbn [snd map]. f_equal; eauto.
    + apply rbind_ok in H as (r' & H' & H). injection H as <-.
      cbn [snd map]. f_equal; eauto.
Qed.

Lemma walk_skeleton (e : element) (seek : bool) (self : labeler)
  (r : bool * labeler * element) :
  walk seek self e = Ok r -> skeleton (snd r) = skeleton e.
Proof.
  revert seek self r. induction e as [tg a x cs tl IH] using element_ind'.
  destruct (children_skeleton cs IH) as [Hi Hs].
  intros seek self r H. rewrite walk_eq in H.
  destruct seek.
  - destruct (String.eqb tg (tei "lem"));
      apply rbind_ok in H as (r1 & H1 & H); injection H as <-;
      cbn [snd skeleton]; f_equal; eauto.
  - destruct (String.eqb (raw_tag tg) "divGen").
    { apply rbind_ok in H as (self' & H1 & H). now injection H as <-. }
    destruct (String.eqb (raw_tag tg) "w").
    { apply rbind_ok in H as (self' & H1 & H). now injection H as <-. }
    destruct (String.eqb (raw_tag tg) "app").
    + apply rbind_ok in H as (r1 & H1 & H).
      destruct (fst (fst r1)); [|discriminate].
      apply rbind_ok in H as (n & Hn & H). injection H as <-.
      cbn [snd set skeleton]. f_equal. eauto.
    + apply rbind_ok in H as (r1 & H1 & H). injection H as <-.
      cbn [snd skeleton]. f_equal. eauto.
Qed.

End Skeleton.

(** ** Trees that [add_types] leaves as they are *)

Section LabelTwice.
Import tei_labeler.
Context {U : unicodedata}.

Lemma traverse_fixed {A : Type} (f : A -> result A) (l : list A) :
  Forall (fun a => f a = Ok a) l -> traverse f l = Ok l.
Proof.
  intros H. rewrite (traverse_ok_map f id l H). now rewrite map_id.
Qed.

Lemma traverse_fixed_inv {A : Type} (f : A -> result A) (l : list A) :
  traverse f l = Ok l -> Forall (fun a => f a = Ok a) l.
Proof.
  induction l as [|a l IH]; [constructor|]. cbn [traverse]. intros H.
  apply rbind_ok in H as (b & Hb & H). apply rbind_ok in H as (bs & Hbs & H).
  injection H as -> ->. constructor; auto.
Qed.

(** What it takes for [add_types] to leave an element as it is. *)
Lemma add_types_fixed_iff (tg : string) (a : list (string * string))
  (x tl : option ustring) (cs : list element) :
  add_types (Element tg a x cs tl) = Ok (Element tg a x cs tl)
  <-> (is_tei "app" (Element tg a x cs tl) = true ->
       exists ty, app_type (Element tg a x cs tl) = Ok ty
                  /\ get_attr a "type" = Some ty)
      /\ Forall (fun c => add_types c = Ok c) cs.
Proof.
  cbn [add_types]. split.
  - intros H. apply rbind_ok in H as (a' & Ha & H).
    apply rbind_ok in H as (cs' & Hcs & H). injection H as -> ->.
    split; [|now apply traverse_fixed_inv].
    intros Happ. rewrite Happ in Ha.
    apply rbind_ok in Ha as (ty & Hty & Ha). injection Ha as Ha.
    exists ty. split; [exact Hty|]. rewrite <- Ha at 1. apply get_set_attr_eq.
  - intros [Happ Hcs]. rewrite (traverse_fixed _ _ Hcs).
    destruct (is_tei "app" (Element tg a x cs tl)).
    + destruct (Happ eq_refl) as (ty & -> & Hg). cbn [rbind].
      now rewrite (set_attr_fixed _ _ _ Hg).
    + reflexivity.
Qed.

Lemma add_types_twice (e e' : element) :
  add_types e = Ok e' -> add_types e' = Ok e'.
Proof.
  revert e'. induction e as [tg a x cs tl IH] using element_ind'.
  intros e' H. pose proof (add_types_skeleton _ _ H) as Hsk.
  cbn [add_types] in H.
  apply rbind_ok in H as (a' & Ha & H). apply rbind_ok in H as (cs' & Hcs & H).
  injection H as <-. apply add_types_fixed_iff. split.
  - intros Happ. change (is_tei "app" (Element tg a x cs tl) = true) in Happ.
    rewrite Happ in Ha. apply rbind_ok in Ha as (ty & Hty & Ha). injection Ha as <-.
    exists ty. split; [|apply get_set_attr_eq].
    now rewrite (app_type_same_skeleton _ _ Hsk).
  - apply traverse_ok_Forall2 in Hcs. clear -IH Hcs.
    induction Hcs as [|c c' cs cs' Hc _ IHcs]; [constructor|].
    apply Forall_cons in IH as [IHc IH]. constructor; auto.
Qed.

Lemma children_keep_types (cs : list element) :
  Forall walk_keeps_types cs ->
  Forall (fun c => add_types c = Ok c) cs ->
  (forall self r, index_children self cs = Ok r ->
                  Forall (fun c => add_types c = Ok c) (snd r))
  /\ (forall self r, seek_children self cs = Ok r ->
                     Forall (fun c => add_types c = Ok c) (snd r)).
Proof.
  induction 1 as [|c cs Hc _ IH]; intros Hfix.
  - split; intros self r H; cbn in H; injection H as <-; constructor.
  - apply Forall_cons in Hfix as [Hfc Hfix]. destruct (IH Hfix) as [IHi IHs].
    split; intros self r H.
    + cbn [index_children] in H.
      apply rbind_ok in H as (r1 & H1 & H). apply rbind_ok in H as (r' & H' & H).
      injection H as <-. cbn [snd]. constructor; eauto.
    + cbn [seek_children] in H.
      apply rbind_ok in H as (r1 & H1 & H).
      destruct (fst (fst r1)).
      * injection H as <-. cbn [snd]. constructor; eauto.
      * apply rbind_ok in H as (r' & H' & H). injection H as <-.
        cbn [snd]. constructor; eauto.
Qed.

Lemma walk_types (e : element) : walk_keeps_types e.
Proof.
  induction e as [tg a x cs tl IH] using element_ind'.
  intros Hfix seek self r H.
  pose proof (walk_skeleton _ _ _ _ H) as Hsk.
  apply add_types_fixed_iff in Hfix as [Happ Hcs].
  destruct (children_keep_types cs IH Hcs) as [Hi Hs].
  assert (Hshape : forall a' cs',
            (a' = a \/ exists n, a' = set_attr a "n" n) ->
            Forall (fun c => add_types c = Ok c) cs' ->
            skeleton (Element tg a' x cs' tl) = skeleton (Element tg a x cs tl) ->
            add_types (Element tg a' x cs' tl) = Ok (Element tg a' x cs' tl)).
  { intros a' cs' Ha' Hcs' Hsk'. apply add_types_fixed_iff. split; [|exact Hcs'].
    intros Ht. destruct (Happ Ht) as (ty & Hty & Hg). exists ty. split.
    - now rewrite (app_type_same_skeleton _ _ Hsk').
    - destruct Ha' as [->|[n ->]]; [exact Hg|].
      now rewrite get_set_attr_ne by discriminate. }
  rewrite walk_eq in H. destruct seek.
  - destruct (String.eqb tg (tei "lem"));
      apply rbind_ok in H as (r1 & H1 & H); injection H as <-;
      cbn [snd] in *; apply Hshape; eauto.
  - destruct (String.eqb (raw_tag tg) "divGen").
    { apply rbind_ok in H as (self' & H1 & H). injection H as <-.
      cbn [snd]. apply add_types_fixed_iff. auto. }
    destruct (String.eqb (raw_tag tg) "w").
    { apply rbind_ok in H as (self' & H1 & H). injection H as <-.
      cbn [snd]. apply add_types_fixed_iff. auto. }
    destruct (String.eqb (raw_tag tg) "app").
    + apply rbind_ok in H as (r1 & H1 & H).
      destruct (fst (fst r1)); [|discriminate].
      apply rbind_ok in H as (n & Hn & H). injection H as <-.
      cbn [snd set] in *. apply Hshape; eauto.
    + apply rbind_ok in H as (r1 & H1 & H). injection H as <-.
      cbn [snd] in *. apply Hshape; eauto.
Qed.

(** C8: when [label] returns a labeled tree, a second run on that tree,
    by a labeler in the state the first run started from (the state that
    [__init__] gives to the labeler of each run), returns the same tree
    again and ends in the same state: every apparatus keeps the [type]
    and the [n] of the first run. *)
Theorem label_twice (self self' : labeler) (xml xml' : element) :
  label self xml = Ok (self', xml') ->
  label self xml' = Ok (self', xml').
Proof.
  intros H. unfold label, add_indices in *.
  apply rbind_ok in H as (xml1 & Ht & H). apply rbind_ok in H as (r & Hw & H).
  injection H as <- <-.
  pose proof (add_types_twice _ _ Ht) as Hfix.
  rewrite (walk_types xml1 Hfix _ _ _ Hw). cbn [rbind].
  rewrite (walk_twice xml1 _ _ _ Hw). reflexivity.
Qed.

End LabelTwice.

(** * The projections leave their input alone *)

Section Frames.
Import tree_store.

Lemma extends_refl (s : store) : extends s s.
Proof. unfold extends. apply firstn_all. Qed.

Lemma extends_length (s0 s : store) : extends s0 s -> length s0 <= length s.
Proof.
  unfold extends. intros H. rewrite <- H at 1. rewrite length_take. lia.
Qed.

Lemma extends_app (s0 s l : store) : extends s0 s -> extends s0 (s ++ l).
Proof.
  intros H. pose proof (extends_length _ _ H). unfold extends in *.
  now rewrite take_app_le.
Qed.

Lemma extends_insert (s0 s : store) (i : nat) (v : option element) :
  length s0 <= i -> extends s0 s -> extends s0 (<[i := v]> s).
Proof.
  unfold extends, store in *. intros Hi H. now rewrite take_insert_ge.
Qed.

(** A tree of the old store is found unchanged in a store that extends it. *)
Lemma extends_deref (s0 s : store) (r : node) :
  extends s0 s -> root r < length s0 -> deref s r = deref s0 r.
Proof.
  unfold extends, deref, store in *. intros H Hr.
  replace (s0 !! root r) with (take (length s0) s !! root r) by now rewrite H.
  now rewrite lookup_take_lt.
Qed.

(** ** The rules *)

Lemma frames_ret {A : Type} (s0 : store) (a : A) (post : A -> Prop) :
  post a -> frames s0 (ret a) post.
Proof. intros Ha s Hs. cbn. split; [exact Hs | now intros a' [= <-]]. Qed.

Lemma frames_raise {A : Type} (s0 : store) (e : exn) (post : A -> Prop) :
  frames s0 (raise e) post.
Proof. intros s Hs. cbn. split; [exact Hs | discriminate]. Qed.

Lemma frames_lift {A : Type} (s0 : store) (e : exn) (o : option A) :
  frames s0 (lift e o) (fun _ => True).
Proof. destruct o; [now apply frames_ret | apply frames_raise]. Qed.

Lemma frames_bind {A B : Type} (s0 : store) (m : M A) (k : A -> M B)
  (mid : A -> Prop) (post : B -> Prop) :
  frames s0 m mid ->
  (forall a, mid a -> frames s0 (k a) post) ->
  frames s0 (bind m k) post.
Proof.
  intros Hm Hk s Hs. destruct (Hm s Hs) as [Hs' Hmid]. unfold bind.
  destruct (m s) as [[a|e] s']; cbn [fst snd] in *.
  - apply Hk; auto.
  - split; [exact Hs' | discriminate].
Qed.

Lemma frames_weaken {A : Type} (s0 : store) (m : M A) (post post' : A -> Prop) :
  frames s0 m post -> (forall a, post a -> post' a) -> frames s0 m post'.
Proof. intros Hm Himp s Hs. destruct (Hm s Hs). split; auto. Qed.

Lemma frames_for_each {A : Type} (s0 : store) (body : A -> M unit) (l : list A) :
  (forall a, frames s0 (body a) (fun _ => True)) ->
  frames s0 (for_each body l) (fun _ => True).
Proof.
  intros Hb. induction l as [|a l IH]; cbn [for_each].
  - now apply frames_ret.
  - eapply frames_bind; [apply Hb | intros; exact IH].
Qed.

(** ** Reading *)

Lemma frames_pure {A : Type} (s0 : store) (f : store -> result A) :
  frames s0 (fun s => (f s, s)) (fun _ => True).
Proof. intros s Hs. cbn. auto. Qed.

Lemma frames_read (s0 : store) (r : node) : frames s0 (read r) (fun _ => True).
Proof.
  intros s Hs. unfold read. destruct (deref s r); cbn; (split; [exact Hs|]);
    [auto | discriminate].
Qed.

Lemma frames_xpath_desc (s0 : store) (name : string) (r : node) :
  frames s0 (xpath_desc_ name r) (fun _ => True).
Proof.
  eapply frames_bind; [apply frames_read | intros; now apply frames_ret].
Qed.

Lemma frames_xpath_all (s0 : store) (name : string) (r : node) :
  frames s0 (xpath_all_ name r) (fun _ => True).
Proof.
  eapply frames_bind; [apply frames_read | intros; now apply frames_ret].
Qed.

Lemma frames_children (s0 : store) (r : node) :
  frames s0 (children_ r) (fun _ => True).
Proof.
  eapply frames_bind; [apply frames_read | intros; now apply frames_ret].
Qed.

Lemma frames_first (s0 : store) (l : list node) :
  frames s0 (first l) (fun _ => True).
Proof. apply frames_lift. Qed.

(** ** Making trees *)

Lemma frames_Element (s0 : store) (tg : string) :
  frames s0 (Element_ tg) (made_after s0).
Proof.
  intros s Hs. cbn. split; [now apply extends_app|].
  intros a [= <-]. unfold made_after. cbn. now apply extends_length.
Qed.

Lemma frames_deepcopy (s0 : store) (r : node) :
  frames s0 (deepcopy r) (made_after s0).
Proof.
  eapply frames_bind; [apply frames_read|]. intros e _ s Hs. cbn.
  split; [now apply extends_app|].
  intros a [= <-]. unfold made_after. cbn. now apply extends_length.
Qed.

(** ** Writing to trees made after [s0] *)

Lemma frames_set (s0 : store) (r : node) (name value : string) :
  made_after s0 r -> frames s0 (set_ r name value) (fun _ => True).
Proof.
  intros Hr s Hs. unfold set_. destruct (mjoin (s !! root r)); cbn [fst snd].
  - split; [now apply extends_insert | auto].
  - split; [exact Hs | auto].
Qed.

Lemma frames_detach (s0 : store) (r : node) :
  made_after s0 r -> frames s0 (detach r) (fun _ => True).
Proof.
  intros Hr s Hs. unfold detach. destruct (mjoin (s !! root r)); cbn [fst snd].
  - destruct (path r); cbn [fst snd]; (split; [now apply extends_insert | auto]).
  - split; [exact Hs | auto].
Qed.

Lemma frames_attach (s0 : store) (parent : node) (c : element) :
  made_after s0 parent -> frames s0 (attach parent c) (made_after s0).
Proof.
  intros Hr s Hs. unfold attach.
  destruct (deref s parent); [destruct (mjoin (s !! root parent))|]; cbn [fst snd].
  - split; [now apply extends_insert|]. now intros a [= <-].
  - split; [exact Hs | discriminate].
  - split; [exact Hs | discriminate].
Qed.

Lemma frames_append (s0 : store) (parent child : node) :
  made_after s0 parent -> made_after s0 child ->
  frames s0 (append_ parent child) (made_after s0).
Proof.
  intros Hp Hc. unfold append_.
  eapply frames_bind; [apply frames_read|]. intros c _.
  eapply frames_bind; [apply frames_read|]. intros _ _.
  eapply frames_bind; [now apply frames_detach|]. intros _ _.
  apply frames_attach. now destruct (root parent =? root child)%nat.
Qed.

Lemma frames_copy_attributes (s0 : store) (text lemma_text : node) :
  made_after s0 lemma_text ->
  frames s0 (copy_attributes text lemma_text) (fun _ => True).
Proof.
  intros Hl. eapply frames_bind; [apply frames_read|]. intros t _.
  apply frames_for_each. intros attr. now apply frames_set.
Qed.

(** Appending a copy, the step that both projections repeat. *)
Lemma frames_append_copy (s0 : store) (target source : node) :
  made_after s0 target ->
  frames s0 (copy <~ deepcopy source ;; _ <~ append_ target copy ;; ret tt)
         (fun _ => True).
Proof.
  intros Ht. eapply frames_bind; [apply frames_deepcopy|]. intros copy Hc.
  eapply frames_bind; [now apply frames_append|]. intros _ _.
  now apply frames_ret.
Qed.

Lemma frames_find_wit_rdg (s0 : store) (wit : option string)
  (wit_rdg : node) (rdgs : list node) :
  frames s0 (find_wit_rdg wit wit_rdg rdgs) (fun _ => True).
Proof.
  induction rdgs as [|rdg rdgs IH]; cbn [find_wit_rdg].
  - now apply frames_ret.
  - eapply frames_bind.
    { destruct wit; [now apply (frames_ret _ _ (fun _ => True)) | apply frames_raise]. }
    intros ref _. eapply frames_bind; [apply frames_read|]. intros e _.
    eapply frames_bind; [apply frames_lift|]. intros refs _.
    destruct (bool_decide _); [now apply frames_ret | exact IH].
Qed.

Lemma frames_get_lemma_xml (s0 : store) (xml : node) :
  frames s0 (get_lemma_xml xml) (made_after s0).
Proof.
  unfold get_lemma_xml.
  eapply frames_bind; [apply frames_Element|]. intros lemma_xml Hx.
  eapply frames_bind; [apply frames_Element|]. intros lemma_text Ht.
  eapply frames_bind; [apply frames_xpath_all|]. intros texts _.
  eapply frames_bind; [apply frames_first|]. intros text _.
  eapply frames_bind; [now apply frames_copy_attributes|]. intros _ _.
  eapply frames_bind; [now apply frames_append|]. intros lemma_text' Ht'.
  eapply frames_bind; [apply frames_Element|]. intros lemma_body Hb.
  eapply frames_bind; [now apply frames_append|]. intros lemma_body' Hb'.
  eapply frames_bind; [apply frames_xpath_desc|]. intros bodies _.
  eapply frames_bind; [apply frames_first|]. intros body _.
  eapply frames_bind; [apply frames_children|]. intros body_children _.
  eapply frames_bind; [|intros; now apply frames_ret].
  apply frames_for_each. intros child.
  eapply frames_bind; [apply frames_read|]. intros c _.
  destruct (String.eqb (raw_tag (tag c)) "app").
  - eapply frames_bind; [apply frames_xpath_desc|]. intros lems _.
    eapply frames_bind; [apply frames_first|]. intros lem _.
    eapply frames_bind; [apply frames_children|]. intros lem_children _.
    apply frames_for_each. intros lem_child. now apply frames_append_copy.
  - now apply frames_append_copy.
Qed.

Lemma frames_get_witness_xml (s0 : store) (xml : node) (wit : option string) :
  frames s0 (get_witness_xml xml wit) (made_after s0).
Proof.
  unfold get_witness_xml.
  eapply frames_bind; [apply frames_Element|]. intros witness_xml Hx.
  eapply frames_bind; [apply frames_Element|]. intros witness_text Ht.
  eapply frames_bind; [apply frames_xpath_all|]. intros texts _.
  eapply frames_bind; [apply frames_first|]. intros text _.
  eapply frames_bind; [now apply frames_copy_attributes|]. intros _ _.
  eapply frames_bind; [now apply frames_append|]. intros witness_text' Ht'.
  eapply frames_bind; [apply frames_Element|]. intros witness_body Hb.
  eapply frames_bind; [now apply frames_append|]. intros witness_body' Hb'.
  eapply frames_bind; [apply frames_xpath_desc|]. intros bodies _.
  eapply frames_bind; [apply frames_first|]. intros body _.
  eapply frames_bind; [apply frames_children|]. intros body_children _.
  eapply frames_bind; [|intros; now apply frames_ret].
  apply frames_for_each. intros child.
  eapply frames_bind; [apply frames_read|]. intros c _.
  destruct (String.eqb (raw_tag (tag c)) "app").
  - eapply frames_bind; [apply frames_Element|]. intros placeholder _.
    eapply frames_bind; [apply frames_xpath_desc|]. intros rdgs _.
    eapply frames_bind; [apply frames_find_wit_rdg|]. intros wit_rdg _.
    eapply frames_bind; [apply frames_children|]. intros wit_rdg_children _.
    apply frames_for_each. intros wit_rdg_child. now apply frames_append_copy.
  - now apply frames_append_copy.
Qed.

(** C10: whatever the store holds and whatever document and witness the
    projections are asked for, and whether they return or raise, every
    tree that the store held before the call is in the store after it,
    under the same handle and unchanged; the tree returned is a new one.
    So the document reads the same for the next projection. *)
Theorem projections_leave_input (s : store) (xml : node) (wit : option string) :
  (extends s (snd (get_lemma_xml xml s))
   /\ (root xml < length s ->
       deref (snd (get_lemma_xml xml s)) xml = deref s xml)
   /\ forall r, fst (get_lemma_xml xml s) = Ok r -> made_after s r)
  /\ (extends s (snd (get_witness_xml xml wit s))
      /\ (root xml < length s ->
          deref (snd (get_witness_xml xml wit s)) xml = deref s xml)
      /\ forall r, fst (get_witness_xml xml wit s) = Ok r -> made_after s r).
Proof.
  split.
  - destruct (frames_get_lemma_xml s xml s (extends_refl s)) as [He Hr].
    repeat split; [exact He | | exact Hr]. intros Hlt. now apply extends_deref.
  - destruct (frames_get_witness_xml s xml wit s (extends_refl s)) as [He Hr].
    repeat split; [exact He | | exact Hr]. intros Hlt. now apply extends_deref.
Qed.

End Frames.

(** * The statements at concrete documents *)

(** ** validate *)


(** ** get_witness_xml *)

(** C6, the claim as stated: no reading of the apparatus of
    [Examples.uncovered] lists witness B, and yet the projection of B is
    returned and no error is raised. *)
Lemma get_witness_xml_no_lookup_error :
  Forall (fun app => Forall (fun rdg => supports "B" rdg = false)
                            (xpath_desc "rdg" app))
         (xpath_all "app" Examples.uncovered)
  /\ tei_collation_editor.get_witness_xml Examples.uncovered (Some "B")
     = Ok (tei_collation_editor.projection Examples.uncovered_text [])
  /\ forall e, tei_collation_editor.get_witness_xml Examples.uncovered (Some "B")
               <> Raise e.
Proof.
  split; [|split].
  - vm_compute. repeat constructor.
  - reflexivity.
  - intros e. vm_compute. discriminate.
Qed.

Lemma get_witness_xml_spec_witness :
  find_text Examples.uncovered = Ok Examples.uncovered_text
  /\ tei_collation_editor.get_witness_xml Examples.uncovered (Some "A")
     = Ok (tei_collation_editor.projection Examples.uncovered_text
             [Examples.w "x"; Examples.seg_marker; Examples.w "z"])
  /\ tei_collation_editor.get_witness_xml Examples.uncovered (Some "B")
     = Ok (tei_collation_editor.projection Examples.uncovered_text []).
Proof.
  assert (Ht : find_text Examples.uncovered = Ok Examples.uncovered_text)
    by reflexivity.
  assert (Hb : head (xpath_desc "body" Examples.uncovered_text)
               = Some (Examples.el "body" []
                         [Examples.app "1"
                            [Examples.lem [Examples.w "x"; Examples.seg_marker; Examples.w "y"];
                             Examples.rdg "#A" [Examples.w "x"; Examples.seg_marker; Examples.w "z"]]]))
    by reflexivity.
  assert (Ha : readings_attributed
                 (children (Examples.el "body" []
                         [Examples.app "1"
                            [Examples.lem [Examples.w "x"; Examples.seg_marker; Examples.w "y"];
                             Examples.rdg "#A" [Examples.w "x"; Examples.seg_marker; Examples.w "z"]]]))).
  { constructor; [|constructor]. intros _. vm_compute.
    constructor; [eexists; reflexivity | constructor]. }
  split; [exact Ht|]. split.
  - rewrite (proj1 (get_witness_xml_spec _ _ _ "A" Ht Hb Ha)). reflexivity.
  - rewrite (proj1 (get_witness_xml_spec _ _ _ "B" Ht Hb Ha)). reflexivity.
Defined.

(** ** validate and update_boundaries *)

(** C9, at a document the code can receive: [validate] accepts
    [Examples.uncovered], whose readings all have the one marker of the
    lemma, and [update_boundaries] then fails on it with an index out of
    range.  Witness B supports no reading, so its projection has one
    segment where the lemma projection has two. *)
Theorem validate_does_not_bound_segments :
  tei_collation_editor.validate Examples.uncovered = ([], Ok true)
  /\ lemma_segments
       (children (Examples.el "body" []
          [Examples.app "1"
             [Examples.lem [Examples.w "x"; Examples.seg_marker; Examples.w "y"];
              Examples.rdg "#A" [Examples.w "x"; Examples.seg_marker; Examples.w "z"]]]))
     = Ok [Examples.el "seg" [] [Examples.w "x"]; Examples.el "seg" [] [Examples.w "y"]]
  /\ witness_segments
       (children (Examples.el "body" []
          [Examples.app "1"
             [Examples.lem [Examples.w "x"; Examples.seg_marker; Examples.w "y"];
              Examples.rdg "#A" [Examples.w "x"; Examples.seg_marker; Examples.w "z"]]]))
       "B"
     = Ok [Examples.el "seg" [] []]
  /\ forall tostring,
      tei_collation_editor.update_boundaries tostring Examples.uncovered
      = Raise IndexError.
Proof.
  split; [reflexivity|]. split; [reflexivity|]. split; [reflexivity|].
  intros tostring. unfold tei_collation_editor.update_boundaries.
  change (tei_collation_editor.get_witnesses Examples.uncovered)
    with (Ok [Some "A"; Some "B"]). cbn [rbind].
  set (lemma_xml := tei_collation_editor.get_lemma_xml Examples.uncovered).
  vm_compute in lemma_xml. subst lemma_xml. cbn [rbind].
  match goal with
  | |- context [tei_collation_editor.segmented ?p] =>
      set (segs := tei_collation_editor.segmented p) at 1;
      vm_compute in segs; subst segs
  end.
  cbn [rbind].
  match goal with
  | |- context [traverse ?f [Some "A"; Some "B"]] =>
      set (xbw := traverse f [Some "A"; Some "B"]);
      vm_compute in xbw; subst xbw
  end.
  cbn [rbind imap traverse fst snd].
  match goal with
  | |- context [tei_collation_editor.update_segment tostring ?l 0%nat ?s] =>
      change l with
        (map lift_wit
           [("A", [Element (tei "seg") [] None [Examples.w "x"] None;
                   Element (tei "seg") [] None [Examples.w "z"] None]);
            ("B", [Element (tei "seg") [] None [] None])])
  end.
  rewrite update_segment_rebuilt
    by (repeat constructor; eexists; reflexivity).
  cbn [rbind compose].
  unfold tei_collation_editor.update_segment.
  cbn [map lift_wit fst snd tei_collation_editor.group_witnesses lookup list_lookup
       of_option rbind].
  rewrite lookup_empty. reflexivity.
Qed.

(** ** update_boundaries *)


(** ** add_types *)



(** ** add_indices *)

(** C5, the claim as stated: a span of three words that begins at word
    index 6 ends at word index 10.  The label that ends at 8 is that of a
    span of two words, and a single word at index 6 has the label of the
    claim. *)
Lemma add_indices_three_word_span :
  (exists self',
      tei_labeler.add_indices tei_labeler.__init__
        (Examples.verse_with [Examples.w "c"; Examples.w "d"; Examples.w "e"])
      = Ok (self',
            Examples.el "body" []
              (Examples.verse_start
               ++ [set (Examples.span [Examples.w "c"; Examples.w "d"; Examples.w "e"])
                       "n" "B04K21V2U6-U10"])))
  /\ (exists self',
         tei_labeler.add_indices tei_labeler.__init__
           (Examples.verse_with [Examples.w "c"; Examples.w "d"])
         = Ok (self',
               Examples.el "body" []
                 (Examples.verse_start
                  ++ [set (Examples.span [Examples.w "c"; Examples.w "d"])
                          "n" "B04K21V2U6-U8"])))
  /\ (exists self',
         tei_labeler.add_indices tei_labeler.__init__
           (Examples.verse_with [Examples.w "c"])
         = Ok (self',
               Examples.el "body" []
                 (Examples.verse_start
                  ++ [set (Examples.span [Examples.w "c"]) "n" "B04K21V2U6"])))
  /\ "B04K21V2U6-U10" <> "B04K21V2U6-U8".
Proof.
  repeat split; try (eexists; vm_compute; reflexivity). discriminate.
Qed.

Lemma add_indices_word_span_witness :
  exists self',
    tei_labeler.add_indices Examples.after_two_words
      (Examples.span [Examples.w "c"; Examples.w "d"; Examples.w "e"])
    = Ok (self',
          set (Examples.span [Examples.w "c"; Examples.w "d"; Examples.w "e"])
              "n" "B04K21V2U6-U10")
    /\ in_verse self' "04" "21" "2" 10.
Proof.
  apply (add_indices_word_span Examples.after_two_words "04" "21" "2" 4
           [] [] None None None None
           [Examples.w "c"; Examples.w "d"; Examples.w "e"]
           [Examples.rdg "#A" [Examples.w "c"; Examples.w "d"; Examples.w "e"];
            Examples.rdg "#B" []]).
  - repeat split; vm_compute; reflexivity.
  - discriminate.
  - repeat constructor.
Defined.

(** ** collate *)

(** Three witnesses extant at verse 1; the engine's apparatus leaves
    witness C out, and the pass adds the empty reading of C as the last
    child. *)
Lemma collate_coverage_witness :
  tei_collator.collate_omissions Examples.three_collator Examples.engine_output
  = Ok [Examples.el "milestone" [("unit", "verse"); ("n", "1")] [];
        Examples.w "a";
        Examples.el "app" []
          [Examples.rdg "#A" [Examples.w "b"]; Examples.rdg "#B" [Examples.w "c"];
           Examples.rdg "#C" []]]
  /\ Forall2 (coverage_complete Examples.three_collator)
             (with_extant Examples.three_collator [] Examples.engine_output)
             [Examples.el "milestone" [("unit", "verse"); ("n", "1")] [];
              Examples.w "a";
              Examples.el "app" []
                [Examples.rdg "#A" [Examples.w "b"]; Examples.rdg "#B" [Examples.w "c"];
                 Examples.rdg "#C" []]].
Proof.
  assert (Hsig : Forall siglum (tei_collator.witnesses Examples.three_collator)).
  { repeat (constructor; [split; [reflexivity | repeat constructor]|]). constructor. }
  assert (Hc : tei_collator.collate_omissions Examples.three_collator
                 Examples.engine_output
               = Ok [Examples.el "milestone" [("unit", "verse"); ("n", "1")] [];
                     Examples.w "a";
                     Examples.el "app" []
                       [Examples.rdg "#A" [Examples.w "b"];
                        Examples.rdg "#B" [Examples.w "c"];
                        Examples.rdg "#C" []]])
    by (vm_compute; reflexivity).
  split; [exact Hc|].
  exact (proj2 (collate_coverage Examples.three_collator Examples.engine_output Hsig)
               _ Hc).
Defined.

(** ** label *)

(** A second run of a new labeler on the labeled verse. *)
Lemma label_twice_witness :
  exists self' xml',
    tei_labeler.label (U := Examples.canonical_text) tei_labeler.__init__
      (Examples.verse_with [Examples.w "c"; Examples.w "d"; Examples.w "e"])
    = Ok (self', xml')
    /\ map (fun app => (get app "type", get app "n")) (xpath_all "app" xml')
       = [(Some "omission", Some "B04K21V2U6-U10")]
    /\ tei_labeler.label (U := Examples.canonical_text) tei_labeler.__init__ xml'
       = Ok (self', xml').
Proof.
  eexists. eexists.
  assert (H : forall r r',
             tei_labeler.label (U := Examples.canonical_text) tei_labeler.__init__
               (Examples.verse_with [Examples.w "c"; Examples.w "d"; Examples.w "e"])
             = Ok (r, r') ->
             tei_labeler.label (U := Examples.canonical_text) tei_labeler.__init__ r'
             = Ok (r, r'))
    by (intros r r'; apply label_twice).
  split; [vm_compute; reflexivity|]. split; [vm_compute; reflexivity|].
  apply H. vm_compute. reflexivity.
Defined.

(** ** The projections and the store *)

(** The projections of the document of a store that holds nothing else:
    the document is read again as it was, and the trees returned have new
    handles. *)
Lemma projections_leave_input_witness :
  tree_store.deref
    (snd (tree_store.get_lemma_xml (tree_store.Node 0 []) Examples.one_document))
    (tree_store.Node 0 [])
  = Some Examples.three_witnesses
  /\ tree_store.deref
       (snd (tree_store.get_witness_xml (tree_store.Node 0 []) (Some "C")
               Examples.one_document))
       (tree_store.Node 0 [])
     = Some Examples.three_witnesses
  /\ fst (tree_store.get_witness_xml (tree_store.Node 0 []) (Some "C")
            Examples.one_document)
     = Ok (tree_store.Node 1 []).
Proof.
  destruct (projections_leave_input Examples.one_document (tree_store.Node 0 [])
              (Some "C")) as [(_ & Hl & _) (_ & Hw & _)].
  split; [|split].
  - rewrite Hl; [reflexivity | cbn; lia].
  - rewrite Hw; [reflexivity | cbn; lia].
  - vm_compute. reflexivity.
Defined.

(** On the example the projection built in the store is the tree that
    the function on values returns. *)
Lemma get_lemma_xml_in_store :
  (let r := tree_store.get_lemma_xml (tree_store.Node 0 []) Examples.one_document in
   match fst r with
   | Ok made => of_option ValueError (tree_store.deref (snd r) made)
   | Raise e => Raise e
   end)
  = tei_collation_editor.get_lemma_xml Examples.three_witnesses.
Proof. vm_compute. reflexivity. Qed.

(** By contrast [segment] works on the document itself: the children of
    its body are moved into the segments, so the document of the store is
    no longer the one that was passed. *)
Lemma segment_moves_children :
  fst (tree_store.segment (tree_store.Node 0 []) Examples.one_document) = Ok tt
  /\ tree_store.deref
       (snd (tree_store.segment (tree_store.Node 0 []) Examples.one_document))
       (tree_store.Node 0 [])
     <> Some Examples.three_witnesses.
Proof. split; [reflexivity | vm_compute; discriminate]. Qed.

(** A labeler keeps its counters between calls: on a document without
    division markers a second call on the same labeler goes on counting
    where the first call ended. *)
Lemma label_reused_labeler :
  exists self' xml' self'' xml'',
    tei_labeler.label (U := Examples.canonical_text) tei_labeler.__init__
      (Examples.el "body" [] [Examples.span [Examples.w "c"]])
    = Ok (self', xml')
    /\ tei_labeler.label (U := Examples.canonical_text) self' xml'
       = Ok (self'', xml'')
    /\ map (fun app => get app "n") (xpath_all "app" xml') = [Some "U2"]
    /\ map (fun app => get app "n") (xpath_all "app" xml'') = [Some "U4"].
Proof.
  do 4 eexists.
  split; [vm_compute; reflexivity|].
  split; [vm_compute; reflexivity|].
  split; vm_compute; reflexivity.
Qed.

(** * tei_collation_editor: segment *)

Section EditorSegment.
Import tei_collation_editor.

Lemma segment_fold (l : list element) (done : list element) (cur : element) :
  let st := fold_left segment_step l (done, cur) in
  length (fst st) = length done + length (filter (fun c => is_seg_divGen c = true) l)
  /\ (tag cur = tei "seg" -> attrib cur = [] ->
      Forall (fun s => tag s = tei "seg" /\ attrib s = []) done ->
      Forall (fun s => tag s = tei "seg" /\ attrib s = []) (fst st ++ [snd st]))
  /\ concat (map children (fst st ++ [snd st]))
     = concat (map children (done ++ [cur])) ++ filter (fun c => kept c = true) l.
Proof.
  revert done cur. induction l as [|c l IH]; intros done cur; cbn [fold_left].
  - cbn [fst snd]. split; [simpl; lia|]. split.
    + intros Ht Ha Hd. apply Forall_app. split; [exact Hd|]. now repeat constructor.
    + now rewrite app_nil_r.
  - assert (Hstep : segment_step (done, cur) c
                    = if is_seg_divGen c
                      then (done ++ [cur], new_element (tei "seg"))
                      else (done, append cur c)) by reflexivity.
    rewrite Hstep. clear Hstep. unfold kept. rewrite !filter_cons.
    destruct (is_seg_divGen c) eqn:Hc; cbn [fst snd negb].
    + destruct (IH (done ++ [cur]) (new_element (tei "seg"))) as (Hlen & Hseg & Hcat).
      rewrite decide_True by reflexivity. rewrite decide_False by discriminate.
      split; [|split].
      * rewrite Hlen, length_app. cbn [length]. lia.
      * intros Ht Ha Hd. apply Hseg; [reflexivity | reflexivity |].
        apply Forall_app. split; [exact Hd|]. now repeat constructor.
      * rewrite Hcat. f_equal. rewrite !map_app, !concat_app. cbn.
        now rewrite !app_nil_r.
    + destruct (IH done (append cur c)) as (Hlen & Hseg & Hcat).
      rewrite decide_False by discriminate. rewrite decide_True by reflexivity.
      split; [|split].
      * exact Hlen.
      * intros Ht Ha Hd. apply Hseg; [| | exact Hd]; now destruct cur.
      * rewrite Hcat. rewrite !map_app, !concat_app. destruct cur as [t a x cs tl].
        cbn. rewrite !app_nil_r. now rewrite <- !app_assoc.
Qed.

Lemma desegment_segs (segs : list element) :
  Forall (fun s => tag s = tei "seg" /\ attrib s = []) segs ->
  tei_segmenter.desegment segs = concat (map children segs).
Proof.
  induction 1 as [|s segs [Ht _] _ IH]; [reflexivity|].
  unfold tei_segmenter.desegment in *. cbn [flat_map map concat].
  rewrite Ht, IH. reflexivity.
Qed.

Lemma segment_contents (body : list element) :
  concat (map children (segment body)) = filter (fun c => kept c = true) body.
Proof.
  unfold segment.
  now destruct (segment_fold body [] (new_element (tei "seg"))) as (_ & _ & Hcat).
Qed.


(** X1.  [segment] of the collation editor cuts the children of a body
    at its boundary markers: there is one segment more than there are
    markers, every segment is a new [seg] element without attributes,
    and [desegment] of [tei_segmenter] gives back the children of the
    body without the markers, in their order. *)
Theorem segment_partition (body : list element) :
  length (segment body)
  = S (length (filter (fun c => is_seg_divGen c = true) body))
  /\ Forall (fun s => tag s = tei "seg" /\ attrib s = []) (segment body)
  /\ concat (map children (segment body)) = filter (fun c => kept c = true) body
  /\ tei_segmenter.desegment (segment body) = filter (fun c => kept c = true) body.
Proof.
  unfold segment.
  destruct (segment_fold body [] (new_element (tei "seg"))) as (Hlen & Hseg & Hcat).
  cbv zeta in *.
  assert (Hs : Forall (fun s => tag s = tei "seg" /\ attrib s = [])
                 (fst (fold_left segment_step body ([], new_element (tei "seg")))
                  ++ [snd (fold_left segment_step body ([], new_element (tei "seg")))]))
    by (apply Hseg; [reflexivity | reflexivity | constructor]).
  split; [|split; [|split]].
  - rewrite length_app, Hlen. cbn [length]. lia.
  - exact Hs.
  - exact Hcat.
  - rewrite (desegment_segs _ Hs). exact Hcat.
Qed.

End EditorSegment.

(** * tei_segmenter: the segments and their labels *)

Section SegmenterLabels.
Import tei_segmenter.

Variable ignored_tag_set : gset string.

Abbreviation sub := (substantive ignored_tag_set).
Abbreviation subs := (substantives ignored_tag_set).
Abbreviation count := (earlier ignored_tag_set).

Lemma contents_snoc (segs : list element) (s : element) :
  contents (segs ++ [s]) = contents segs ++ children s.
Proof. unfold contents. rewrite map_app, concat_app. cbn. now rewrite app_nil_r. Qed.

Lemma substantives_app (l1 l2 : list element) : subs (l1 ++ l2) = subs l1 ++ subs l2.
Proof. apply filter_app. Qed.

Lemma substantives_one (c : element) :
  subs [c] = if sub c then [c] else [].
Proof.
  unfold substantives. rewrite filter_cons, filter_nil.
  destruct (sub c); [now rewrite decide_True | now rewrite decide_False].
Qed.

Lemma earlier_app (raw : string) (l1 l2 : list element) :
  count raw (l1 ++ l2) = count raw l1 + count raw l2.
Proof. unfold earlier. now rewrite filter_app, length_app. Qed.

Lemma earlier_one (raw : string) (c : element) :
  count raw [c]
  = if sub c && String.eqb (raw_tag (tag c)) raw then 1 else 0.
Proof.
  unfold earlier. rewrite filter_cons, filter_nil.
  destruct (sub c); cbn [andb].
  - destruct (String.eqb_spec (raw_tag (tag c)) raw).
    + now rewrite decide_True.
    + rewrite decide_False; [reflexivity | tauto].
  - rewrite decide_False; [reflexivity | intros [? _]; discriminate].
Qed.

Lemma earlier_none (raw : string) (l : list element) :
  subs l = [] -> count raw l = 0.
Proof.
  unfold substantives, earlier. induction l as [|c l IH]; [reflexivity|].
  rewrite !filter_cons. destruct (sub c) eqn:Hc.
  - rewrite decide_True by reflexivity. discriminate.
  - rewrite decide_False by discriminate. intros H.
    rewrite decide_False by (intros [? _]; discriminate). auto.
Qed.

Lemma not_substantive_in (l : list element) (c : element) :
  subs l = [] -> c ∈ l -> sub c = true -> False.
Proof.
  intros Hl Hin Hc.
  assert (H : c ∈ subs l) by (apply list_elem_of_filter; auto).
  rewrite Hl in H. inversion H.
Qed.

Lemma get_seal (ty n : string) (queue : list element) :
  tag (seal ty n queue) = tei "seg"
  /\ children (seal ty n queue) = queue
  /\ get (seal ty n queue) "type" = Some ty
  /\ get (seal ty n queue) "n" = Some n.
Proof. repeat split. Qed.

Lemma labelled_snoc (done : list element) (s : element) :
  (forall i seg, done !! i = Some seg -> labelled ignored_tag_set (contents (take i done)) seg) ->
  labelled ignored_tag_set (contents done) s ->
  forall i seg, (done ++ [s]) !! i = Some seg ->
                labelled ignored_tag_set (contents (take i (done ++ [s]))) seg.
Proof.
  intros Hd Hs i seg Hi.
  destruct (decide (i < length done)) as [Hlt|Hge].
  - rewrite lookup_app_l in Hi by exact Hlt.
    rewrite take_app_le by lia. auto.
  - rewrite lookup_app_r in Hi by lia.
    destruct (i - length done) as [|k] eqn:Hk; [|now destruct k].
    injection Hi as <-. assert (i = length done) as -> by lia.
    rewrite take_app_length. exact Hs.
Qed.

(** One iteration of the loop keeps what holds of its variables. *)
Lemma step_inv (seen : list element) (st : scan) (child : element) :
  scan_inv ignored_tag_set seen st ->
  scan_inv ignored_tag_set (seen ++ [child]) (step ignored_tag_set st child).
Proof.
  destruct st as [done idx queue ty n p].
  unfold scan_inv. cbn [segment_elements segmented_body substantive_indices pos
                         segment_type segment_n].
  intros (Hseen & Hidx & Hpos & Hty & Hlab & Hdone).
  assert (Hsealed :
            queue <> [] -> length (subs queue) <= 1 -> forall k',
              labelled ignored_tag_set (contents done)
                (seal (fst (if sub child && String.eqb ty ""
                            then (raw_tag (tag child), k') else (ty, n)))
                      (snd (if sub child && String.eqb ty ""
                            then (raw_tag (tag child), k') else (ty, n)))
                      queue)).
  { intros Hq Hone k'. destruct (get_seal
      (fst (if sub child && String.eqb ty "" then (raw_tag (tag child), k') else (ty, n)))
      (snd (if sub child && String.eqb ty "" then (raw_tag (tag child), k') else (ty, n)))
      queue) as (Ht & Hc & Hgt & Hgn).
    unfold labelled. rewrite Ht, Hc, Hgt, Hgn.
    repeat split; eauto.
    - destruct (Hlab c H H0 H1) as [Hty' _].
      assert (String.eqb ty "" = false) as ->
        by (apply String.eqb_neq; congruence).
      rewrite andb_false_r. cbn [fst]. now f_equal.
    - destruct (Hlab c H H0 H1) as [Hty' Hn'].
      assert (String.eqb ty "" = false) as ->
        by (apply String.eqb_neq; congruence).
      rewrite andb_false_r. cbn [snd]. now f_equal. }
  assert (Hidx' : forall raw,
             (if sub child
              then match idx !! raw_tag (tag child) with
                   | None => <[raw_tag (tag child) := 0]> idx
                   | Some k => <[raw_tag (tag child) := S k]> idx
                   end
              else idx) !! raw
             = match count raw (seen ++ [child]) with O => None | S k => Some k end).
  { intros raw. rewrite earlier_app, earlier_one.
    destruct (sub child); cbn [andb]; [|now rewrite Nat.add_0_r].
    destruct (String.eqb_spec (raw_tag (tag child)) raw) as [<-|Hne].
    - rewrite Nat.add_1_r. pose proof (Hidx (raw_tag (tag child))) as H.
      destruct (count (raw_tag (tag child)) seen); rewrite H;
        now rewrite lookup_insert_eq.
    - rewrite Nat.add_0_r. rewrite <- Hidx.
      destruct (idx !! raw_tag (tag child)); now rewrite lookup_insert_ne. }
  assert (Hnow : sub child = true ->
                 default 0 ((match idx !! raw_tag (tag child) with
                             | None => <[raw_tag (tag child) := 0]> idx
                             | Some k => <[raw_tag (tag child) := S k]> idx
                             end) !! raw_tag (tag child))
                 = count (raw_tag (tag child)) seen).
  { intros Hs. pose proof (Hidx (raw_tag (tag child))) as H.
    destruct (count (raw_tag (tag child)) seen); rewrite H;
      now rewrite lookup_insert_eq. }
  unfold step. cbn [segment_elements segmented_body substantive_indices pos
                     segment_type segment_n].
  fold (sub child). destruct (sub child) eqn:Hsub; cbn [negb andb].
  - (* a substantive child *)
    specialize (Hnow eq_refl).
    destruct Hpos as [[-> Hnone] | (Hp & Hq & Hone)].
    + (* after prefix elements: the child joins the queue *)
      rewrite (Hty Hnone). cbn [String.eqb Z.ltb Z.eqb Z.compare orb andb].
      cbn [segment_elements segmented_body substantive_indices pos
           segment_type segment_n].
      split; [rewrite Hseen; first [now rewrite <- app_assoc | now rewrite app_assoc]|]. split; [exact Hidx'|].
      split; [right; split; [lia|]; split|].
      * now destruct queue.
      * rewrite substantives_app, Hnone, substantives_one, Hsub. cbn. lia.
      * split; [rewrite substantives_app, Hnone, substantives_one, Hsub; discriminate|].
        split; [|exact Hdone].
        intros c Hc Hcs Hraw. apply elem_of_app in Hc as [Hc|Hc].
        { destruct (not_substantive_in _ _ Hnone Hc Hcs). }
        apply list_elem_of_singleton in Hc as ->. split; [reflexivity|].
        rewrite Hnow, Hseen, earlier_app, (earlier_none _ queue Hnone). f_equal. lia.
    + (* after a substantive or an ignored element: a new segment *)
      assert ((p <? 0)%Z || (0 =? 0)%Z && (p =? 0)%Z = true) as ->.
      { destruct (Z.ltb_spec p 0); [reflexivity|].
        assert (p = 0%Z) as -> by lia. reflexivity. }
      match goal with
      | |- context [if String.eqb ty "" then (_, ?k) else _] =>
          pose proof (Hsealed Hq Hone k) as Hs
      end.
      cbn [andb] in Hs.
      destruct (if String.eqb ty "" then _ else _) as [ty' n'] eqn:Hlbl.
      cbn [fst snd] in Hs.
      cbn [segment_elements segmented_body substantive_indices pos
           segment_type segment_n].
      split; [rewrite contents_snoc, Hseen; reflexivity|]. split; [exact Hidx'|].
      split; [right; split; [lia|]; split; [discriminate|]|].
      * rewrite substantives_one, Hsub. cbn. lia.
      * split; [rewrite substantives_one, Hsub; discriminate|].
        split; [|now apply labelled_snoc].
        intros c Hc Hcs Hraw. apply list_elem_of_singleton in Hc as ->.
        split; [reflexivity|]. rewrite Hnow, contents_snoc. cbn [children seal].
        now rewrite Hseen.
  - (* an ignored child *)
    destruct (bool_decide (raw_tag (tag child) ∈ prefix_tags)).
    + (* a prefix element *)
      destruct Hpos as [[-> Hnone] | (Hp & Hq & Hone)].
      * cbn [Z.ltb Z.eqb Z.compare orb andb].
        cbn [segment_elements segmented_body substantive_indices pos
             segment_type segment_n].
        split; [rewrite Hseen; first [now rewrite <- app_assoc | now rewrite app_assoc]|]. split; [exact Hidx'|].
        assert (Hnone' : subs (queue ++ [child]) = [])
          by now rewrite substantives_app, Hnone, substantives_one, Hsub.
        split; [left; split; [reflexivity | exact Hnone']|].
        split; [auto|]. split; [|exact Hdone].
        intros c Hc Hcs. destruct (not_substantive_in _ _ Hnone' Hc Hcs).
      * assert ((p <? 1)%Z = true) as -> by (apply Z.ltb_lt; lia).
        cbn [orb].
        pose proof (Hsealed Hq Hone "") as Hs.
        cbn [andb fst snd] in Hs.
        cbn [segment_elements segmented_body substantive_indices pos
             segment_type segment_n].
        split; [rewrite contents_snoc, Hseen; reflexivity|]. split; [exact Hidx'|].
        assert (Hnone' : subs [child] = [])
          by now rewrite substantives_one, Hsub.
        split; [left; split; [reflexivity | exact Hnone']|].
        split; [reflexivity|]. split; [|now apply labelled_snoc].
        intros c Hc Hcs. destruct (not_substantive_in _ _ Hnone' Hc Hcs).
    + (* an element that stays with the preceding one *)
      assert ((p <? -1)%Z || (-1 =? 0)%Z && (p =? 0)%Z = false) as ->.
      { cbn [Z.eqb andb]. rewrite orb_false_r. apply Z.ltb_ge.
        destruct Hpos as [[-> _] | (Hp & _)]; lia. }
      cbn [segment_elements segmented_body substantive_indices pos
           segment_type segment_n].
      assert (Hsame : subs (queue ++ [child]) = subs queue)
        by now rewrite substantives_app, substantives_one, Hsub, app_nil_r.
      split; [rewrite Hseen; first [now rewrite <- app_assoc | now rewrite app_assoc]|]. split; [exact Hidx'|].
      split; [right; split; [lia|]; split; [now destruct queue|]|].
      * rewrite Hsame. destruct Hpos as [[_ ->] | (_ & _ & Hone)]; [cbn; lia | exact Hone].
      * split; [rewrite Hsame; exact Hty|]. split; [|exact Hdone].
        intros c Hc Hcs Hraw. apply elem_of_app in Hc as [Hc|Hc]; [now apply Hlab|].
        apply list_elem_of_singleton in Hc as ->. congruence.
Qed.

Lemma scan_inv_fold (l seen : list element) (st : scan) :
  scan_inv ignored_tag_set seen st ->
  scan_inv ignored_tag_set (seen ++ l) (fold_left (step ignored_tag_set) l st).
Proof.
  revert seen st. induction l as [|c l IH]; intros seen st H; cbn [fold_left].
  - now rewrite app_nil_r.
  - replace (seen ++ c :: l) with ((seen ++ [c]) ++ l) by now rewrite <- app_assoc.
    apply IH. now apply step_inv.
Qed.

Lemma scan_inv_init : scan_inv ignored_tag_set [] scan_init.
Proof.
  unfold scan_inv, scan_init. cbn.
  split; [reflexivity|]. split; [intros raw; apply lookup_empty|].
  split; [left; split; reflexivity|]. split; [reflexivity|].
  split; [intros c Hc; inversion Hc | intros i seg Hi; now destruct i].
Qed.

(** X2.  Every segment that [segment] seals is a [seg] element that is
    not empty, carries a [type] and an [n], and holds at most one
    element whose tag is not in the ignored tag set. *)
Theorem segment_one_substantive (body : list element) :
  Forall (fun seg =>
            tag seg = tei "seg"
            /\ children seg <> []
            /\ is_Some (get seg "type") /\ is_Some (get seg "n")
            /\ length (substantives ignored_tag_set (children seg)) <= 1)
         (segment ignored_tag_set body).
Proof.
  pose proof (scan_inv_fold body [] _ scan_inv_init) as (_ & _ & _ & _ & _ & Hdone).
  unfold segment. apply Forall_lookup. intros i seg Hi.
  destruct (Hdone i seg Hi) as (Ht & Hc & Hone & Hty & Hn & _). auto.
Qed.

(** X3.  The segment at position [i] is labeled with its substantive
    element: [type] is the raw tag of that element and [n] is the number
    of substantive elements with the same raw tag that come before it in
    the body. The elements of the segments are consecutive elements of
    the body. *)
Theorem segment_labels (body : list element) (i : nat) (seg c : element) :
  segment ignored_tag_set body !! i = Some seg ->
  c ∈ children seg ->
  substantive ignored_tag_set c = true ->
  raw_tag (tag c) <> "" ->
  let before := contents (take i (segment ignored_tag_set body)) in
  (exists rest, body = before ++ children seg ++ rest)
  /\ get seg "type" = Some (raw_tag (tag c))
  /\ get seg "n"
     = Some (str_nat (earlier ignored_tag_set (raw_tag (tag c)) before)).
Proof.
  intros Hi Hc Hsub Hraw before.
  pose proof (scan_inv_fold body [] _ scan_inv_init) as (Hseen & _ & _ & _ & _ & Hdone).
  unfold segment in *. cbn [app] in Hseen.
  destruct (Hdone i seg Hi) as (_ & _ & _ & _ & _ & Hlab).
  destruct (Hlab c Hc Hsub Hraw) as [Hty Hn].
  split; [|split; [exact Hty | exact Hn]].
  exists (contents (drop (S i) (segmented_body (fold_left (step ignored_tag_set) body scan_init)))
          ++ segment_elements (fold_left (step ignored_tag_set) body scan_init)).
  rewrite Hseen at 1.
  rewrite <- (take_drop_middle _ i seg Hi) at 1.
  unfold before, contents. rewrite map_app, concat_app. cbn [map concat].
  now rewrite <- !app_assoc.
Qed.

End SegmenterLabels.

(** Two words with a page break after the first, page breaks ignored:
    the second segment is that of the second word. *)
Lemma segment_labels_witness :
  tei_segmenter.segment {[ "pb" ]}
    [Examples.w "a"; Examples.el "pb" [] []; Examples.w "b"; Examples.w "c"]
  = [tei_segmenter.seal "w" "0" [Examples.w "a"; Examples.el "pb" [] []];
     tei_segmenter.seal "w" "1" [Examples.w "b"]]
  /\ get (tei_segmenter.seal "w" "1" [Examples.w "b"]) "n" = Some "1".
Proof.
  split; [vm_compute; reflexivity|].
  refine (proj2 (proj2 (segment_labels {[ "pb" ]}
           [Examples.w "a"; Examples.el "pb" [] []; Examples.w "b"; Examples.w "c"]
           1 (tei_segmenter.seal "w" "1" [Examples.w "b"]) (Examples.w "b") _ _ _ _))).
  - vm_compute. reflexivity.
  - apply list_elem_of_here.
  - vm_compute. reflexivity.
  - vm_compute. discriminate.
Defined.

(** * tei_collation_editor: the lemma projection *)

Section LemmaProjection.
Import tei_collation_editor.

Lemma lemma_child_part (child : element) :
  (raw_tag (tag child) = "app" -> is_Some (lem_of child)) ->
  lemma_child child = Ok (lemma_part child).
Proof.
  unfold lemma_child, lemma_part, lem_of. intros H.
  destruct (String.eqb_spec (raw_tag (tag child)) "app") as [Happ|_]; [|reflexivity].
  destruct (H Happ) as [lem Hl]. unfold lem_of in Hl. now rewrite Hl.
Qed.

Lemma lemma_child_raises (child : element) :
  raw_tag (tag child) = "app" -> lem_of child = None ->
  lemma_child child = Raise IndexError.
Proof.
  unfold lemma_child, lem_of. intros Happ Hl.
  apply String.eqb_eq in Happ. now rewrite Happ, Hl.
Qed.

Lemma lemma_child_cases (child : element) :
  lemma_child child = Ok (lemma_part child)
  \/ lemma_child child = Raise IndexError.
Proof.
  unfold lemma_child, lemma_part, lem_of.
  destruct (String.eqb (raw_tag (tag child)) "app"); [|now left].
  destruct (head (xpath_desc "lem" child)); [now left | now right].
Qed.

Lemma traverse_lemma_child_raises (body : list element) :
  Exists (fun child => raw_tag (tag child) = "app" /\ lem_of child = None) body ->
  traverse lemma_child body = Raise IndexError.
Proof.
  induction 1 as [child body [Happ Hl] | child body _ IH]; cbn [traverse].
  - now rewrite (lemma_child_raises _ Happ Hl).
  - rewrite IH. destruct (lemma_child_cases child) as [-> | ->]; reflexivity.
Qed.

Lemma get_lemma_xml_steps (xml text body : element) :
  find_text xml = Ok text ->
  head (xpath_desc "body" text) = Some body ->
  Forall (fun child => raw_tag (tag child) = "app" -> is_Some (lem_of child))
         (children body) ->
  get_lemma_xml xml
  = Ok (projection text (flat_map lemma_part (children body))).
Proof.
  intros Ht Hb Hall. unfold get_lemma_xml. rewrite Ht. cbn [rbind]. rewrite Hb.
  cbn [of_option rbind]. rewrite (traverse_ok_map _ lemma_part).
  - cbn [rbind]. now rewrite concat_map_flat_map.
  - eapply Forall_impl; [exact Hall|]. intros child. apply lemma_child_part.
Qed.

(** X4.  [get_lemma_xml] on a document with a [text] and a [body]: when
    every apparatus among the children of the body has a [lem]
    descendant, the projection holds, in place of each apparatus, the
    children of its first [lem], and every other child as it is; when
    some apparatus has none, the call raises [IndexError]. *)
Theorem get_lemma_xml_spec (xml text body : element) :
  find_text xml = Ok text ->
  head (xpath_desc "body" text) = Some body ->
  (Forall (fun child => raw_tag (tag child) = "app" -> is_Some (lem_of child))
          (children body) ->
   get_lemma_xml xml
   = Ok (projection text (flat_map lemma_part (children body))))
  /\ (Exists (fun child => raw_tag (tag child) = "app" /\ lem_of child = None)
             (children body) ->
      get_lemma_xml xml = Raise IndexError).
Proof.
  intros Ht Hb. split.
  - now apply get_lemma_xml_steps.
  - intros Hex. unfold get_lemma_xml. rewrite Ht. cbn [rbind]. rewrite Hb.
    cbn [of_option rbind]. now rewrite (traverse_lemma_child_raises _ Hex).
Qed.




End LemmaProjection.

(** * tei_collation_editor: what update_boundaries keeps *)

Section Keeps.
Import tei_collation_editor.

Variable tostring : element -> string.

Lemma Forall2_imap_l {A B C : Type} (P : C -> B -> Prop) (f : nat -> A -> C)
  (l : list A) (bs : list B) :
  Forall2 P (imap f l) bs ->
  Forall2 (fun a b => exists i, P (f i a) b) l bs.
Proof.
  revert f bs. induction l as [|a l IH]; intros f bs H; cbn [imap] in H.
  - inversion H. constructor.
  - inversion H as [|? b ? bs' Hab Hrest]; subst. constructor; [eauto|].
    apply IH in Hrest. eapply Forall2_impl; [exact Hrest|].
    intros a' b' [i Hi]. exists (S i). exact Hi.
Qed.

(** The lemma reading of the apparatus that [update_segment] builds. *)
Lemma lemma_part_rebuilt (content rdgs : list element) :
  lemma_part (extend (append (new_element (tei "app"))
                             (extend (new_element (tei "lem")) content)) rdgs)
  = content.
Proof.
  unfold lemma_part, lem_of, xpath_desc.
  cbn [new_element append extend app tag].
  assert (raw_tag (tei "app") = "app") as -> by reflexivity.
  cbn [String.eqb Ascii.eqb Bool.eqb].
  rewrite descendants_eq. cbn [children descendants_list flat_map app].
  rewrite filter_cons, decide_True by reflexivity. reflexivity.
Qed.

Lemma update_segment_shape (xbw : list (option string * list element))
  (i : nat) (lem_seg : element) (part : list element) :
  update_segment tostring xbw i lem_seg = Ok part ->
  part = children lem_seg
  \/ exists rdgs,
      part = [extend (append (new_element (tei "app"))
                             (extend (new_element (tei "lem")) (children lem_seg)))
                     rdgs].
Proof.
  unfold update_segment. intros H. apply rbind_ok in H as ([rdg_segs support] & _ & H).
  destruct (size support =? 1)%nat.
  - injection H as <-. now left.
  - apply rbind_ok in H as (rdgs & _ & H). injection H as <-. right. eauto.
Qed.

Lemma lemma_part_other (c : element) :
  raw_tag (tag c) <> "app" -> lemma_part c = [c].
Proof.
  unfold lemma_part. intros H. apply String.eqb_neq in H. now rewrite H.
Qed.

Lemma flat_map_lemma_part_others (l : list element) :
  Forall (fun c => raw_tag (tag c) <> "app") l -> flat_map lemma_part l = l.
Proof.
  induction 1 as [|c l Hc _ IH]; [reflexivity|].
  cbn [flat_map]. now rewrite (lemma_part_other _ Hc), IH.
Qed.

Lemma lemma_parts_rebuilt (lem_segs : list element) (parts : list (list element)) :
  Forall (fun s => Forall (fun c => raw_tag (tag c) <> "app") (children s)) lem_segs ->
  Forall2 (fun lem_seg part =>
             part = children lem_seg
             \/ exists rdgs,
                 part = [extend (append (new_element (tei "app"))
                                        (extend (new_element (tei "lem"))
                                                (children lem_seg))) rdgs])
          lem_segs parts ->
  Forall (fun c => raw_tag (tag c) = "app" -> is_Some (lem_of c)) (concat parts)
  /\ flat_map lemma_part (concat parts) = concat (map children lem_segs).
Proof.
  intros Hflat H. induction H as [|s part segs parts Hs _ IH]; [split; constructor|].
  apply Forall_cons in Hflat as [Hc Hflat]. destruct (IH Hflat) as [IH1 IH2].
  cbn [concat map]. rewrite flat_map_app, IH2. destruct Hs as [-> | [rdgs ->]].
  - split.
    + apply Forall_app. split; [|exact IH1].
      eapply Forall_impl; [exact Hc|]. intros c Hne Happ. contradiction.
    + now rewrite (flat_map_lemma_part_others _ Hc).
  - split.
    + apply Forall_app. split; [|exact IH1]. constructor; [|constructor].
      intros _. exists (extend (new_element (tei "lem")) (children s)).
      pose proof (lemma_part_rebuilt (children s) rdgs) as Hp.
      unfold lem_of, xpath_desc. cbn [new_element append extend app].
      rewrite descendants_eq. cbn [children descendants_list flat_map app].
      rewrite filter_cons, decide_True by reflexivity. reflexivity.
    + cbn [flat_map]. rewrite lemma_part_rebuilt. now rewrite app_nil_r.
Qed.

Lemma Forall_concat_children (segs : list element) (P : element -> Prop) :
  Forall P (concat (map children segs)) ->
  Forall (fun s => Forall P (children s)) segs.
Proof.
  induction segs as [|s segs IH]; [constructor|].
  cbn [map concat]. intros H. apply Forall_app in H as [H1 H2]. constructor; auto.
Qed.

Lemma lemma_child_parts (body : list element) (parts : list (list element)) :
  traverse lemma_child body = Ok parts -> concat parts = flat_map lemma_part body.
Proof.
  intros H. apply traverse_ok_Forall2 in H.
  induction H as [|c p body parts Hc _ IH]; [reflexivity|].
  cbn [concat flat_map]. rewrite IH. f_equal.
  destruct (lemma_child_cases c) as [Hk|Hk]; congruence.
Qed.

(** X6.  [update_boundaries] keeps the text of the lemma: when it
    returns, the lemma projection of the rebuilt body exists and holds
    the elements of the lemma projection of the old body without the
    boundary markers, in the same order. *)
Theorem update_boundaries_keeps_lemma (xml body : element) (body' : list element) :
  find_body xml = Ok body ->
  no_seg (children body) ->
  lemma_flat (children body) ->
  update_boundaries tostring xml = Ok body' ->
  traverse lemma_child body' = Ok (map lemma_part body')
  /\ flat_map lemma_part body'
     = filter (fun c => kept c = true) (flat_map lemma_part (children body)).
Proof.
  intros Hbody Hns Hflat H. unfold update_boundaries in H.
  apply rbind_ok in H as (witnesses & _ & H).
  apply rbind_ok in H as (lemma_xml & Hlem & H).
  apply rbind_ok in H as (lem_segs & Hsegs & H).
  apply rbind_ok in H as (xbw & _ & H).
  apply rbind_ok in H as (parts & Hparts & H). injection H as <-.
  unfold find_body in Hbody. apply rbind_ok in Hbody as (text & Htext & Hb).
  destruct (head (xpath_desc "body" text)) as [b|] eqn:Hhead; [|discriminate].
  injection Hb as ->.
  unfold get_lemma_xml in Hlem. rewrite Htext in Hlem. cbn [rbind] in Hlem.
  rewrite Hhead in Hlem. cbn [of_option rbind] in Hlem.
  apply rbind_ok in Hlem as (lparts & Hlparts & Hlem). injection Hlem as <-.
  rewrite segmented_projection in Hsegs
    by (eapply parts_no_seg; [apply lemma_child_inside | exact Hlparts | exact Hns]).
  injection Hsegs as <-.
  rewrite (lemma_child_parts _ _ Hlparts) in Hparts.
  apply traverse_ok_Forall2, Forall2_imap_l in Hparts.
  assert (Hshape :
            Forall2 (fun lem_seg part =>
                       part = children lem_seg
                       \/ exists rdgs,
                           part = [extend (append (new_element (tei "app"))
                                                  (extend (new_element (tei "lem"))
                                                          (children lem_seg))) rdgs])
                    (segment (flat_map lemma_part (children body))) parts).
  { eapply Forall2_impl; [exact Hparts|]. intros s part [i Hi].
    cbn [fst snd] in Hi. eapply update_segment_shape; eauto. }
  assert (Hkept : Forall (fun s => Forall (fun c => raw_tag (tag c) <> "app") (children s))
                         (segment (flat_map lemma_part (children body)))).
  { apply Forall_concat_children. rewrite segment_contents.
    unfold lemma_flat in Hflat. rewrite Forall_forall in *.
    intros c Hc. apply list_elem_of_filter in Hc as [_ Hc]. auto. }
  destruct (lemma_parts_rebuilt _ _ Hkept Hshape) as [Hlems Hcat].
  split.
  - apply traverse_ok_map. eapply Forall_impl; [exact Hlems|].
    intros c. apply lemma_child_part.
  - rewrite Hcat. apply segment_contents.
Qed.

End Keeps.

(** * tei_collation_editor: update_boundaries keeps the witnesses *)

Section KeepsWitnesses.
Import tei_collation_editor.

Variable tostring : element -> string.


Lemma plain_below (l : list element) (c : element) :
  plain l -> c ∈ l -> plain (children c).
Proof.
  unfold plain. rewrite !Forall_forall. intros H Hc d Hd. apply H.
  apply in_descendants_list. exists c. split; [exact Hc|]. right.
  now rewrite descendants_eq.
Qed.













End KeepsWitnesses.

(** * tei_collation_editor: a witness without an identifier *)

Section Unidentified.
Import tei_collation_editor.

Variable tostring : element -> string.

Lemma witness_child_none_cases (child : element) :
  witness_child None child = Raise TypeError
  \/ exists part, witness_child None child = Ok part.
Proof.
  unfold witness_child. destruct (String.eqb _ _); [|eauto].
  destruct (xpath_desc "rdg" child); [right | left]; cbn; eauto.
Qed.

Lemma witness_child_none_raises (child : element) :
  raw_tag (tag child) = "app" -> xpath_desc "rdg" child <> [] ->
  witness_child None child = Raise TypeError.
Proof.
  unfold witness_child. intros Happ Hr. apply String.eqb_eq in Happ. rewrite Happ.
  now destruct (xpath_desc "rdg" child).
Qed.

Lemma traverse_witness_child_none (body : list element) :
  Exists (fun child => raw_tag (tag child) = "app" /\ xpath_desc "rdg" child <> [])
         body ->
  traverse (witness_child None) body = Raise TypeError.
Proof.
  induction 1 as [child body [Happ Hr] | child body _ IH]; cbn [traverse].
  - now rewrite (witness_child_none_raises _ Happ Hr).
  - rewrite IH. destruct (witness_child_none_cases child) as [-> | [part ->]]; reflexivity.
Qed.

Lemma traverse_first_raise {A B : Type} (f : option A -> result B) (e : exn)
  (l : list (option A)) :
  (forall a, exists b, f (Some a) = Ok b) ->
  f None = Raise e ->
  None ∈ l ->
  traverse f l = Raise e.
Proof.
  intros Hsome Hnone. induction l as [|[a|] l IH]; intros Hin; cbn [traverse].
  - inversion Hin.
  - destruct (Hsome a) as [b ->]. cbn [rbind]. rewrite IH; [reflexivity|].
    apply elem_of_cons in Hin as [Hin|Hin]; [discriminate | exact Hin].
  - now rewrite Hnone.
Qed.

(** X8.  A [witness] element without an [id] attribute stops
    [update_boundaries]: when the projections of the other witnesses
    return and some apparatus of the body has a reading, the call raises
    [TypeError], for the reference of the witness cannot be formed. *)
Theorem update_boundaries_unidentified_witness (xml body : element)
  (ws : list (option string)) :
  get_witnesses xml = Ok ws ->
  None ∈ ws ->
  find_body xml = Ok body ->
  readings_attributed (children body) ->
  Forall (fun child => raw_tag (tag child) = "app" -> is_Some (lem_of child))
         (children body) ->
  Exists (fun child => raw_tag (tag child) = "app" /\ xpath_desc "rdg" child <> [])
         (children body) ->
  update_boundaries tostring xml = Raise TypeError.
Proof.
  intros Hws Hnone Hbody Hattr Hlems Hex.
  unfold find_body in Hbody. apply rbind_ok in Hbody as (text & Htext & Hb).
  destruct (head (xpath_desc "body" text)) as [b|] eqn:Hhead; [|discriminate].
  injection Hb as ->.
  unfold update_boundaries. rewrite Hws. cbn [rbind].
  rewrite (get_lemma_xml_steps xml text body Htext Hhead Hlems). cbn [rbind].
  unfold segmented at 1. rewrite find_body_projection. cbn [rbind].
  rewrite (traverse_first_raise _ TypeError); [reflexivity | | | exact Hnone].
  - intros w. unfold get_witness_xml. rewrite Htext. cbn [rbind]. rewrite Hhead.
    cbn [of_option rbind]. rewrite (witness_children_parts _ _ Hattr). cbn [rbind].
    unfold segmented. rewrite find_body_projection. cbn [rbind]. eauto.
  - unfold get_witness_xml. rewrite Htext. cbn [rbind]. rewrite Hhead.
    cbn [of_option rbind]. now rewrite (traverse_witness_child_none _ Hex).
Qed.

End Unidentified.

(** * tei_labeler: what labeling leaves alone, and when it fails *)

Section LabelerEdges.
Import tei_labeler.
Context {U : unicodedata}.

(** X9.  [label] writes attributes only: when it returns, the labeled
    tree has the tags, the text, the tails and the shape of the tree it
    was given, at every depth. *)
Theorem label_keeps_text (self self' : labeler) (xml xml' : element) :
  label self xml = Ok (self', xml') -> skeleton xml' = skeleton xml.
Proof.
  unfold label, add_indices. intros H.
  apply rbind_ok in H as (xml1 & Ht & H). apply rbind_ok in H as (r & Hw & H).
  injection H as _ <-.
  rewrite (walk_skeleton _ _ _ _ Hw). now apply add_types_skeleton.
Qed.

Lemma app_type_cases (app : element) :
  (xpath_desc "rdg" app = [] /\ app_type app = Raise IndexError)
  \/ (xpath_desc "rdg" app <> [] /\ exists ty, app_type app = Ok ty).
Proof.
  destruct (xpath_desc "rdg" app) as [|p vs] eqn:Hx.
  - left. split; [reflexivity|]. unfold app_type. now rewrite Hx.
  - right. split; [discriminate|]. eapply app_type_total; eauto.
Qed.

Lemma traverse_raises {A B : Type} (f : A -> result B) (e : exn) (l : list A) :
  Forall (fun a => f a = Raise e \/ exists b, f a = Ok b) l ->
  Exists (fun a => f a = Raise e) l ->
  traverse f l = Raise e.
Proof.
  intros Hall Hex. induction Hex as [a l Ha | a l _ IH]; cbn [traverse].
  - now rewrite Ha.
  - apply Forall_cons in Hall as [Ha Hall]. rewrite (IH Hall).
    destruct Ha as [-> | [b ->]]; reflexivity.
Qed.

Lemma add_types_cases (xml : element) :
  add_types xml = Raise IndexError \/ exists xml', add_types xml = Ok xml'.
Proof.
  induction xml as [tg a x cs tl IH] using element_ind'. cbn [add_types].
  assert (Hcs : traverse add_types cs = Raise IndexError
                \/ exists cs', traverse add_types cs = Ok cs').
  { induction IH as [|c cs Hc _ IHcs]; [right; cbn; eauto|]. cbn [traverse].
    destruct Hc as [-> | [c' ->]]; [now left|]. cbn [rbind].
    destruct IHcs as [-> | [cs' ->]]; [now left | right; cbn; eauto]. }
  destruct (is_tei "app" (Element tg a x cs tl)).
  - destruct (app_type_cases (Element tg a x cs tl)) as [[_ ->] | [_ [ty ->]]];
      [now left|]. cbn [rbind].
    destruct Hcs as [-> | [cs' ->]]; [now left | right; cbn; eauto].
  - cbn [rbind]. destruct Hcs as [-> | [cs' ->]]; [now left | right; cbn; eauto].
Qed.

Lemma add_types_raises (xml : element) :
  Exists (fun e => is_tei "app" e = true /\ xpath_desc "rdg" e = [])
         (xml :: descendants xml) ->
  add_types xml = Raise IndexError.
Proof.
  induction xml as [tg a x cs tl IH] using element_ind'.
  intros H. cbn [add_types]. apply Exists_cons in H as [[Happ Hr] | H].
  - rewrite Happ. unfold app_type. now rewrite Hr.
  - assert (Hcs : traverse add_types cs = Raise IndexError).
    { rewrite (descendants_eq (Element tg a x cs tl)) in H. cbn [children] in H.
      apply traverse_raises.
      - apply Forall_forall. intros c _. apply add_types_cases.
      - clear -IH H. induction IH as [|c cs Hc _ IHcs]; [inversion H|].
        unfold descendants_list in H. cbn [flat_map] in H.
        apply Exists_app in H as [H|H]; [left; auto | right; auto]. }
    rewrite Hcs.
    destruct (is_tei "app" (Element tg a x cs tl)); [|reflexivity].
    destruct (app_type_cases (Element tg a x cs tl)) as [[_ ->] | [_ [ty ->]]];
      reflexivity.
Qed.

(** X10.  [add_types] at the edges: an apparatus under which there is no
    [rdg] makes the call raise [IndexError], wherever it stands in the
    tree; an apparatus with one [rdg] and no other is typed vocalic,
    whatever the reading holds and whatever its [lem] holds. *)
Theorem add_types_few_readings (xml : element) :
  (Exists (fun e => is_tei "app" e = true /\ xpath_desc "rdg" e = [])
          (xml :: descendants xml) ->
   add_types xml = Raise IndexError)
  /\ (forall rdg, xpath_desc "rdg" xml = [rdg] -> app_type xml = Ok "vocalic").
Proof.
  split; [apply add_types_raises|].
  intros rdg H. unfold app_type. rewrite H. reflexivity.
Qed.

End LabelerEdges.

(** * tei_labeler: add_indices on empty lemmas and on division markers *)

Section Indices.
Import tei_labeler.

(** X11.  An apparatus whose lemma reading is empty is cited between two
    words: for a labeler inside a verse after the word of index [u] it
    receives the odd index [u + 1] when a word stands anywhere under it,
    and the index [u] when none does. The labeler is left as it was. *)
Theorem add_indices_empty_lemma (self : labeler) (b c v : string) (u : Z)
  (a la : list (string * string)) (x tl lx ltl : option ustring)
  (rdgs : list element) :
  in_verse self b c v u ->
  let app := Element (tei "app") a x (Element (tei "lem") la lx [] ltl :: rdgs) tl in
  add_indices self app
  = Ok (self,
        set app "n" (cite b c v (if bool_decide (xpath_desc "w" app = [])
                                 then u else u + 1))).
Proof.
  intros (Hh & Hb & Hc & Hv & Hw) app.
  unfold add_indices, app. rewrite walk_eq.
  change (raw_tag (tei "app")) with "app". cbn match.
  assert (He : ensure_w self = self) by (unfold ensure_w; now rewrite Hw).
  rewrite He. cbn [seek_children]. rewrite walk_eq.
  change (String.eqb (tei "lem") (tei "lem")) with true.
  change (String.eqb "app" "divGen") with false.
  change (String.eqb "app" "w") with false.
  change (String.eqb "app" "app") with true.
  cbn [index_children rbind fst snd].
  unfold app_n. rewrite Hh. rewrite bool_decide_eq_true_2 by reflexivity.
  fold app.
  destruct (xpath_desc "w" app) as [|w0 ws0] eqn:Hx.
  - cbn [length Nat.eqb negb rbind].
    rewrite bool_decide_eq_true_2 by reflexivity.
    destruct (citation_in_verse (div_indices self) b c v (str u) Hb Hc Hv Hw)
      as [Hcs _]. cbv zeta in Hcs. rewrite Hcs. cbn [rbind].
    destruct self. reflexivity.
  - cbn [length Nat.eqb negb].
    rewrite bool_decide_eq_false_2 by discriminate.
    unfold bump_w. rewrite Hw. cbn [of_option rbind]. rewrite int_str. cbn [rbind].
    destruct (citation_in_verse (<["w" := str (u + 1)]> (div_indices self)) b c v
                (str (u + 1))) as [Hcs _];
      [now rewrite lookup_insert_ne by discriminate ..| apply lookup_insert_eq |].
    cbv zeta in Hcs. rewrite Hcs. cbn [rbind].
    destruct self. reflexivity.
Qed.

Lemma find_sub_char (ch : ascii) (pre rest : string) :
  Forall (fun c => c <> ch) (list_ascii_of_string pre) ->
  find_sub (String ch "") (pre +:+ String ch rest) = Some (String.length pre)
  /\ slice_from (String.length pre + 1) (pre +:+ String ch rest) = rest.
Proof.
  induction pre as [|c pre IH]; intros H.
  - change ("" +:+ String ch rest) with (String ch rest).
    cbn [find_sub String.prefix String.length slice_from Nat.add].
    destruct (ascii_dec ch ch); [|congruence]. now destruct rest.
  - cbn [list_ascii_of_string] in H. apply Forall_cons in H as [Hc H].
    destruct (IH H) as [IH1 IH2].
    change (String c pre +:+ String ch rest) with (String c (pre +:+ String ch rest)).
    cbn [find_sub String.prefix String.length slice_from Nat.add].
    destruct (ascii_dec ch c); [congruence|]. rewrite IH1. split; [reflexivity|].
    exact IH2.
Qed.

(** The index that a division marker gives: what follows the
    abbreviation of its level in [n]. *)
Lemma division_index (ab : ascii) (pre rest : string) :
  Forall (fun c => c <> ab) (list_ascii_of_string pre) ->
  match find_sub (String ab "") (pre +:+ String ab rest) with
  | Some i => Ok (slice_from (i + 1) (pre +:+ String ab rest))
  | None => Ok (pre +:+ String ab rest)
  end = Ok rest.
Proof.
  intros H. destruct (find_sub_char ab pre rest H) as [-> ->]. reflexivity.
Qed.

(** X12.  A division marker sets the index of its level and restarts the
    levels below it. For a labeler inside a verse: a verse marker whose
    [n] ends in [V] and the verse number sets that verse number and
    restarts the word index at 0; a chapter marker sets the chapter
    number and restarts verse and word; a book marker sets the book and
    restarts chapter, verse and word. The levels above keep their
    indices, and the marker itself is not changed. *)
Theorem add_indices_division_marker (self : labeler) (b c v : string) (u : Z)
  (xml : element) (pre n : string) :
  in_verse self b c v u ->
  raw_tag (tag xml) = "divGen" ->
  (get xml "type" = Some "verse" ->
   get xml "n" = Some (pre +:+ "V" +:+ n) ->
   Forall (fun ch => ch <> "V"%char) (list_ascii_of_string pre) ->
   exists self', add_indices self xml = Ok (self', xml) /\ in_verse self' b c n 0)
  /\ (get xml "type" = Some "chapter" ->
      get xml "n" = Some (pre +:+ "K" +:+ n) ->
      Forall (fun ch => ch <> "K"%char) (list_ascii_of_string pre) ->
      exists self', add_indices self xml = Ok (self', xml) /\ in_verse self' b n "0" 0)
  /\ (get xml "type" = Some "book" ->
      get xml "n" = Some (pre +:+ "B" +:+ n) ->
      Forall (fun ch => ch <> "B"%char) (list_ascii_of_string pre) ->
      exists self', add_indices self xml = Ok (self', xml) /\ in_verse self' n "0" "0" 0).
Proof.
  intros (Hh & Hb & Hc & Hv & Hw) Htag.
  assert (Hwalk : add_indices self xml
                  = (self' <- index_divGen self xml ;; Ok (self', xml))).
  { unfold add_indices. destruct xml as [tg a x cs tl]. cbn [tag] in Htag.
    rewrite walk_eq. cbn match. rewrite Htag.
    change (String.eqb "divGen" "divGen") with true. cbn iota.
    destruct (index_divGen self (Element tg a x cs tl)); reflexivity. }
  rewrite Hwalk. unfold index_divGen. rewrite Hh.
  repeat split; intros Hty Hn Hpre; rewrite Hty, Hn; cbn [default id].
  - change (is_cut "verse") with false. cbn iota.
    change (div_abbreviations !! "verse") with (Some "V"). cbn [of_option rbind].
    change (pre +:+ "V" +:+ n) with (pre +:+ String "V" n).
    rewrite (division_index "V" pre n Hpre). cbn [rbind].
    match goal with
    | |- context [of_option ValueError ?o] =>
        let o' := eval vm_compute in o in change o with o'
    end.
    cbn [of_option rbind].
    match goal with
    | |- context [drop ?k ?h] =>
        let d := eval vm_compute in (drop k h) in change (drop k h) with d
    end.
    cbn [fold_left].
    eexists. split; [reflexivity|]. unfold in_verse. cbn [div_hierarchy div_indices].
    split; [reflexivity|]. repeat split; now simplify_map_eq.
  - change (is_cut "chapter") with false. cbn iota.
    change (div_abbreviations !! "chapter") with (Some "K"). cbn [of_option rbind].
    change (pre +:+ "K" +:+ n) with (pre +:+ String "K" n).
    rewrite (division_index "K" pre n Hpre). cbn [rbind].
    match goal with
    | |- context [of_option ValueError ?o] =>
        let o' := eval vm_compute in o in change o with o'
    end.
    cbn [of_option rbind].
    match goal with
    | |- context [drop ?k ?h] =>
        let d := eval vm_compute in (drop k h) in change (drop k h) with d
    end.
    cbn [fold_left].
    eexists. split; [reflexivity|]. unfold in_verse. cbn [div_hierarchy div_indices].
    split; [reflexivity|]. repeat split; now simplify_map_eq.
  - change (is_cut "book") with false. cbn iota.
    change (div_abbreviations !! "book") with (Some "B"). cbn [of_option rbind].
    change (pre +:+ "B" +:+ n) with (pre +:+ String "B" n).
    rewrite (division_index "B" pre n Hpre). cbn [rbind].
    match goal with
    | |- context [of_option ValueError ?o] =>
        let o' := eval vm_compute in o in change o with o'
    end.
    cbn [of_option rbind].
    match goal with
    | |- context [drop ?k ?h] =>
        let d := eval vm_compute in (drop k h) in change (drop k h) with d
    end.
    cbn [fold_left].
    eexists. split; [reflexivity|]. unfold in_verse. cbn [div_hierarchy div_indices].
    split; [reflexivity|]. repeat split; now simplify_map_eq.
Qed.

Lemma index_children_app (l1 l2 : list element) (self : labeler)
  (r : labeler * list element) :
  index_children self l1 = Ok r ->
  index_children self (l1 ++ l2)
  = (r' <- index_children (fst r) l2 ;; Ok (fst r', snd r ++ snd r')).
Proof.
  revert self r. induction l1 as [|c l1 IH]; intros self r H; cbn [index_children app] in *.
  - injection H as <-. cbn [fst snd app].
    destruct (index_children self l2) as [[s l]|]; reflexivity.
  - apply rbind_ok in H as (rc & Hc & H). apply rbind_ok in H as (r1 & H1 & H).
    injection H as <-. rewrite Hc. cbn [rbind fst snd].
    rewrite (IH _ _ H1).
    destruct (index_children (fst r1) l2) as [[s l]|]; reflexivity.
Qed.

Lemma index_divGen_unknown (self : labeler) (marker : element) (ty : string) :
  get marker "type" = Some ty ->
  div_abbreviations !! ty = None ->
  index_divGen self marker = Raise KeyError.
Proof.
  intros Hty Hab. unfold index_divGen. rewrite Hty.
  assert (is_cut ty = false) as ->.
  { unfold is_cut. apply bool_decide_eq_false. intros Hin.
    repeat (apply elem_of_cons in Hin as [-> | Hin]; [discriminate|]).
    inversion Hin. }
  now rewrite Hab.
Qed.

(** X13.  A division marker of a type without an abbreviation stops the
    labeling: when the children before it can be indexed, [add_indices]
    raises [KeyError] at the marker. The boundary markers of type [seg]
    are such markers. *)
Theorem add_indices_unknown_division (self self1 : labeler) (tg : string)
  (a : list (string * string)) (x tl : option ustring)
  (pre pre' post : list element) (marker : element) (ty : string) :
  raw_tag tg <> "divGen" -> raw_tag tg <> "w" -> raw_tag tg <> "app" ->
  raw_tag (tag marker) = "divGen" ->
  get marker "type" = Some ty ->
  div_abbreviations !! ty = None ->
  add_indices self (Element tg a x pre tl) = Ok (self1, Element tg a x pre' tl) ->
  add_indices self (Element tg a x (pre ++ marker :: post) tl) = Raise KeyError.
Proof.
  intros Hd Hw Ha Hm Hty Hab Hpre.
  apply String.eqb_neq in Hd, Hw, Ha.
  unfold add_indices in *. rewrite walk_eq in *. cbn match in *.
  rewrite Hd, Hw, Ha in *.
  apply rbind_ok in Hpre as (r & Hr & Hpre).
  apply rbind_ok in Hr as (r0 & Hr0 & Hr). injection Hr as <-.
  rewrite (index_children_app _ _ _ _ Hr0). cbn [index_children].
  destruct marker as [mt ma mx mcs mtl]. cbn [tag] in Hm.
  rewrite walk_eq. cbn match. rewrite Hm.
  change (String.eqb "divGen" "divGen") with true. cbn iota.
  now rewrite (index_divGen_unknown _ _ ty Hty Hab).
Qed.

End Indices.

(** * tei_normalizer: format_text and strip_plene *)

Section TextFunctions.
Import tei_normalizer.
Context {U : unicodedata}.

Lemma strip_accents_filter (accs : list accentuation) (s : ustring) :
  fold_left (fun s kind => re_sub_class (accentuatation_res kind) s) accs s
  = filter (fun c => forallb (fun kind => negb (accentuatation_res kind c)) accs = true) s.
Proof.
  unfold ustring in *.
  revert s. induction accs as [|k accs IH]; intros s; cbn [fold_left forallb].
  - induction s as [|c s IHs]; [reflexivity|].
    rewrite filter_cons, decide_True by reflexivity. now f_equal.
  - rewrite IH. unfold re_sub_class. clear IH.
    induction s as [|c s IHs]; [reflexivity|].
    rewrite (filter_cons _ c s).
    rewrite (filter_cons (fun c => _ && _ = true) c s).
    destruct (accentuatation_res k c) eqn:Hk; cbn [negb andb].
    + rewrite decide_False by discriminate. rewrite decide_False by discriminate.
      exact IHs.
    + rewrite decide_True by reflexivity. rewrite filter_cons.
      destruct (forallb _ accs) eqn:Hf.
      * rewrite !decide_True by reflexivity. now f_equal.
      * rewrite !decide_False by discriminate. exact IHs.
Qed.

(** X14.  [format_text] goes through a Python set of accent kinds, in an
    order that the language does not fix: the result is the same for
    every order, and for every repetition, of the same kinds. What is
    left between the two normalizations is the text without the
    characters of the ignored kinds. *)
Theorem format_text_order (accs accs' : list accentuation) (s : ustring) :
  (forall kind, kind ∈ accs <-> kind ∈ accs') ->
  format_text accs s = format_text accs' s
  /\ format_text accs s
     = normalize_NFC
         (filter (fun c => Forall (fun kind => accentuatation_res kind c = false) accs)
                 (normalize_NFKD s)).
Proof.
  intros Hsame.
  assert (Hf : forall l c,
             forallb (fun kind => negb (accentuatation_res kind c)) l = true
             <-> forall kind, kind ∈ l -> accentuatation_res kind c = false).
  { intros l c. rewrite forallb_forall. split.
    - intros H kind Hk. apply list_elem_of_In in Hk. apply H in Hk.
      now apply negb_true_iff in Hk.
    - intros H kind Hk. apply list_elem_of_In in Hk. apply negb_true_iff. auto. }
  unfold format_text. rewrite !strip_accents_filter. unfold ustring in *. split.
  - f_equal. apply list_filter_iff. intros c. rewrite !Hf.
    split; intros H kind Hk; apply H; now apply Hsame.
  - f_equal. apply list_filter_iff. intros c. rewrite Hf, Forall_forall.
    reflexivity.
Qed.

Lemma group_letter_skip (st : list ustring * ustring) (c : N) :
  plene_relevant c = false -> group_letter st c = st.
Proof.
  unfold plene_relevant, group_letter. intros H.
  apply orb_false_iff in H as [H Hv]. apply orb_false_iff in H as [Hs Hl].
  now rewrite Hs, Hl, Hv.
Qed.

Lemma group_letters_relevant (s : ustring) (st : list ustring * ustring) :
  fold_left group_letter s st
  = fold_left group_letter (filter (fun c => plene_relevant c = true) s) st.
Proof.
  unfold ustring in *.
  revert st. induction s as [|c s IH]; intros st; [reflexivity|].
  rewrite filter_cons. destruct (plene_relevant c) eqn:Hc.
  - rewrite decide_True by reflexivity. cbn [fold_left]. apply IH.
  - rewrite decide_False by discriminate. cbn [fold_left].
    rewrite (group_letter_skip _ _ Hc). apply IH.
Qed.

(** X15.  [strip_plene] reads blanks, Hebrew letters and points and
    nothing else: two texts that agree on these characters, once
    decomposed, are reduced to the same text. So text in another script
    is reduced to its blanks. *)
Theorem strip_plene_relevant (s t : ustring) :
  filter (fun c => plene_relevant c = true) (normalize_NFKD s)
  = filter (fun c => plene_relevant c = true) (normalize_NFKD t) ->
  strip_plene s = strip_plene t.
Proof.
  intros H. unfold strip_plene.
  rewrite (group_letters_relevant (normalize_NFKD s)),
          (group_letters_relevant (normalize_NFKD t)), H.
  reflexivity.
Qed.

End TextFunctions.

(** * tei_normalizer: normalize *)

Section NormalizeTree.
Import tei_normalizer normalizer.
Context {U : unicodedata}.

Variable self : params.

Lemma normalize_eq (tg : string) (a : list (string * string))
  (x : option ustring) (cs : list element) (tl : option ustring) :
  normalize self (Element tg a x cs tl)
  = (st <- normalize_children self
             (format_text (ignored_accent_set self) <$> x, []) cs ;;
     Ok (Element (output_tag tg)
           (fold_left (fun acc attr => set_attr acc attr (default "" (get_attr a attr)))
                      (map fst a)
                      (if String.eqb (raw_tag tg) "ab" then [("type", "verse")] else []))
           (fst st) (snd st) None)).
Proof. reflexivity. Qed.

Lemma with_tail_same (child out_child : element) :
  tag (with_tail self child out_child) = tag out_child
  /\ text (with_tail self child out_child) = text out_child
  /\ children (with_tail self child out_child) = children out_child.
Proof.
  unfold with_tail, add_pretty_print_tail, set_tail.
  destruct out_child as [t a x cs tl]. destruct (tail child); [auto|].
  destruct (pretty_print_whitespace !! _); auto.
Qed.

Lemma normalized_same (d d' : element) :
  tag d' = tag d -> text d' = text d -> children d' = children d ->
  normalized self d -> normalized self d'.
Proof. unfold normalized. intros -> -> ->. auto. Qed.

Lemma below_same (d d' : element) :
  tag d' = tag d -> text d' = text d -> children d' = children d ->
  Forall (normalized self) (d :: descendants d) ->
  Forall (normalized self) (d' :: descendants d').
Proof.
  intros Ht Hx Hc H. apply Forall_cons in H as [Hd H]. constructor.
  - now apply (normalized_same d).
  - now rewrite descendants_eq, Hc, <- descendants_eq.
Qed.

Lemma below_app (l1 l2 : list element) :
  Forall (normalized self) (descendants_list (l1 ++ l2))
  <-> Forall (normalized self) (descendants_list l1)
      /\ Forall (normalized self) (descendants_list l2).
Proof. unfold descendants_list. rewrite flat_map_app. apply Forall_app. Qed.

Lemma below_one (d : element) :
  Forall (normalized self) (descendants_list [d])
  <-> Forall (normalized self) (d :: descendants d).
Proof. unfold descendants_list. cbn [flat_map]. now rewrite app_nil_r. Qed.

Lemma below_children (d : element) :
  Forall (normalized self) (descendants d) ->
  Forall (normalized self) (descendants_list (children d)).
Proof. now rewrite descendants_eq. Qed.

Lemma below_child (d c : element) :
  Forall (normalized self) (descendants d) -> c ∈ children d ->
  Forall (normalized self) (descendants_list (children c)).
Proof.
  intros H Hc. apply below_children. rewrite Forall_forall in *. intros e He.
  apply H. eapply descendants_trans; [|exact He]. now apply children_in_descendants.
Qed.

Lemma below_set_last_tail (tail_ : ustring) (l : list element) :
  Forall (normalized self) (descendants_list l) ->
  Forall (normalized self) (descendants_list (set_last_tail tail_ l)).
Proof.
  induction l as [|c l IH]; [auto|]. intros H.
  change (c :: l) with ([c] ++ l) in H. apply below_app in H as [Hc Hl].
  destruct l as [|c' l].
  - destruct c as [t a x cs tl]. cbn [set_last_tail].
    apply below_one. apply below_one in Hc.
    now apply (below_same (Element t a x cs tl)).
  - assert (Heq : set_last_tail tail_ (c :: c' :: l)
                   = [c] ++ set_last_tail tail_ (c' :: l)) by now destruct c.
    rewrite Heq. apply below_app. split; [exact Hc | auto].
Qed.

Lemma below_skip (st : option ustring * list element) (child : element) :
  Forall (normalized self) (descendants_list (snd st)) ->
  Forall (normalized self) (descendants_list (snd (skip self st child))).
Proof.
  unfold skip, add_tail. destruct (tail child); [|auto].
  destruct (snd st) as [|c l] eqn:Hs; [constructor|]. cbn [snd].
  apply below_set_last_tail.
Qed.

Lemma raw_output_tag (tg : string) :
  (raw_tag tg ∈ ["div"; "ab"] /\ output_tag tg = tei "divGen")
  \/ ((raw_tag tg ∉ ["div"; "ab"]) /\ output_tag tg = tg).
Proof.
  unfold output_tag. destruct (bool_decide _) eqn:Hb.
  - apply bool_decide_eq_true in Hb. now left.
  - apply bool_decide_eq_false in Hb. now right.
Qed.

Lemma not_left_out (child : element) :
  left_out self child = false -> raw_tag (tag child) ∉ ignored_tag_set self.
Proof.
  unfold left_out. intros H. apply orb_false_iff in H as [H _].
  now apply bool_decide_eq_false in H.
Qed.

(** What [place] adds is normalized. *)
Lemma below_place (st st' : option ustring * list element)
  (child out_child : element) :
  left_out self child = false ->
  tag out_child = output_tag (tag child) ->
  Forall (normalized self) (descendants out_child) ->
  Forall (normalized self) (descendants_list (snd st)) ->
  place self st child out_child = Ok st' ->
  Forall (normalized self) (descendants_list (snd st')).
Proof.
  intros Hleft Htag Hout Hst. unfold place.
  pose proof (not_left_out _ Hleft) as Hnot.
  destruct (with_tail_same child out_child) as (Ht & Hx & Hc).
  destruct (String.eqb_spec (raw_tag (tag out_child)) "app") as [Happ|Happ].
  - assert (Hsame : tag out_child = tag child).
    { destruct (raw_output_tag (tag child)) as [[_ Hd]|[_ Hd]]; [|congruence].
      rewrite Htag, Hd in Happ. discriminate. }
    destruct (preferred_rdg_type self) as [rdg_type|] eqn:Hpref.
    + intros H. apply rbind_ok in H as (els & Hels & H). injection H as <-.
      cbn [snd]. apply below_app. split; [exact Hst|].
      unfold get_preferred_rdg_elements in Hels.
      apply rbind_ok in Hels as (rdg & Hrdg & Hels). injection Hels as <-.
      destruct (head _) as [r|] eqn:Hh; [|discriminate]. injection Hrdg as ->.
      apply head_in, list_elem_of_filter in Hh as [_ Hh].
      now apply (below_child out_child).
    + intros [= <-]. cbn [snd]. apply below_app. split; [exact Hst|].
      apply below_one. apply (below_same out_child); auto. constructor; [|exact Hout].
      unfold normalized. rewrite Happ, Hpref. repeat split.
      * intros Hin. repeat (apply elem_of_cons in Hin as [Hin|Hin]; [discriminate|]).
        inversion Hin.
      * discriminate.
      * discriminate.
      * intros [? ?]. discriminate.
      * intros _. rewrite <- Happ, Hsame. exact Hnot.
  - destruct (String.eqb_spec (raw_tag (tag out_child)) "divGen") as [Hdiv|Hdiv].
    + intros [= <-]. cbn [snd]. apply below_app. split; [exact Hst|].
      match goal with
      | |- Forall _ (descendants_list (?e :: ?l)) => change (e :: l) with ([e] ++ l)
      end.
      apply below_app. split; [|now apply below_children].
      apply below_one. destruct out_child as [t a x cs tl]. cbn [tag] in *.
      destruct (with_tail_same child (Element t a None [] tl)) as (Ht' & Hx' & Hc').
      apply (below_same (Element t a None [] tl)); auto.
      constructor; [|constructor].
      unfold normalized. cbn [tag children text]. rewrite Hdiv. repeat split.
      * intros Hin. repeat (apply elem_of_cons in Hin as [Hin|Hin]; [discriminate|]).
        inversion Hin.
      * discriminate.
      * auto.
    + intros [= <-]. cbn [snd]. apply below_app. split; [exact Hst|].
      apply below_one. apply (below_same out_child); auto. constructor; [|exact Hout].
      assert (Hsame : tag out_child = tag child /\ (raw_tag (tag child) ∉ ["div"; "ab"])).
      { destruct (raw_output_tag (tag child)) as [[_ Hd]|[Hn Hd]]; [|split; congruence].
        rewrite Htag, Hd in Hdiv. now contradiction Hdiv. }
      destruct Hsame as [Hsame Hn].
      rewrite Hsame in Happ, Hdiv.
      unfold normalized. rewrite Hsame. repeat split; auto; contradiction.
Qed.

Lemma below_normalize_children (cs : list element) :
  Forall (fun c => forall out, normalize self c = Ok out ->
                               tag out = output_tag (tag c)
                               /\ Forall (normalized self) (descendants out)) cs ->
  forall st st',
    Forall (normalized self) (descendants_list (snd st)) ->
    normalize_children self st cs = Ok st' ->
    Forall (normalized self) (descendants_list (snd st')).
Proof.
  induction 1 as [|c cs Hc _ IH]; intros st st' Hst H; cbn [normalize_children] in H.
  - now injection H as <-.
  - destruct (left_out self c) eqn:Hleft.
    + eapply IH; [|exact H]. now apply below_skip.
    + apply rbind_ok in H as (out & Hout & H). apply rbind_ok in H as (st1 & Hp & H).
      destruct (Hc out Hout) as [Htag Hbelow].
      eapply IH; [|exact H]. eapply below_place; eauto.
Qed.

Lemma normalize_normalized (xml out : element) :
  normalize self xml = Ok out ->
  tag out = output_tag (tag xml)
  /\ Forall (normalized self) (descendants out).
Proof.
  revert out. induction xml as [tg a x cs tl IH] using element_ind'.
  intros out H. rewrite normalize_eq in H.
  apply rbind_ok in H as (st & Hst & H). injection H as <-.
  split; [reflexivity|]. rewrite descendants_eq. cbn [children].
  eapply below_normalize_children; [exact IH | | exact Hst]. constructor.
Qed.



(** X17.  With a preferred reading type, [normalize] resolves every
    apparatus: no [app] is left below the root of the tree it returns. *)
Theorem normalize_resolves_apparatus (xml out : element) (rdg_type : string) :
  preferred_rdg_type self = Some rdg_type ->
  normalize self xml = Ok out ->
  Forall (fun d => raw_tag (tag d) <> "app") (descendants out).
Proof.
  intros Hp H. destruct (normalize_normalized _ _ H) as [_ Hbelow].
  eapply Forall_impl; [exact Hbelow|]. intros d (_ & _ & Hd & _).
  apply Hd. rewrite Hp. eauto.
Qed.

(** X18.  [normalize] leaves out the elements of the ignored tags: when
    [divGen] is not one of them, no element below the root of the tree
    it returns has an ignored tag. *)
Theorem normalize_drops_ignored (xml out : element) :
  "divGen" ∉ ignored_tag_set self ->
  normalize self xml = Ok out ->
  Forall (fun d => raw_tag (tag d) ∉ ignored_tag_set self) (descendants out).
Proof.
  intros Hd H. destruct (normalize_normalized _ _ H) as [_ Hbelow].
  eapply Forall_impl; [exact Hbelow|]. intros d (_ & _ & _ & Hi). auto.
Qed.




End NormalizeTree.

(** * tei_collator: the omission pass a second time *)

Section OmissionsTwice.
Import tei_collator.

Variable self : collator.

Lemma remove_refs_nodup (refs : list string) (U U' : gset string) :
  remove_refs U refs = Ok U' -> NoDup (map (remove_all "#") refs).
Proof.
  revert U. induction refs as [|r refs IH]; intros U; cbn [remove_refs map].
  - intros _. constructor.
  - destruct (bool_decide _) eqn:Hb; [|discriminate]. intros H.
    constructor; [|eapply IH; eauto].
    intros Hin. apply remove_refs_ok in H as [_ Hall].
    specialize (Hall _ Hin). set_solver.
Qed.

Lemma remove_covered_nodup (rdgs : list element) (U U' : gset string) :
  remove_covered U rdgs = Ok U' ->
  NoDup (covered_by rdgs)
  /\ Forall (fun rdg => is_Some (get rdg "wit")) rdgs.
Proof.
  revert U. induction rdgs as [|rdg rdgs IH]; intros U; cbn [remove_covered].
  - intros _. split; constructor.
  - intros H. apply rbind_ok in H as (refs & Hrefs & H).
    apply rbind_ok in H as (U1 & HU1 & H).
    destruct (get rdg "wit") as [refs'|] eqn:Hg; [|discriminate].
    injection Hrefs as ->.
    pose proof (remove_refs_nodup _ _ _ HU1) as Hnd1.
    apply remove_refs_ok in HU1 as [-> _].
    destruct (IH _ H) as [Hnd2 Hwit].
    apply remove_covered_ok in H as [_ Hin].
    split; [|constructor; [rewrite Hg; eauto | exact Hwit]].
    unfold covered_by in *. cbn [flat_map]. rewrite Hg. cbn [default].
    apply NoDup_app. split; [exact Hnd1|]. split; [|exact Hnd2].
    intros w Hw1 Hw2. specialize (Hin w Hw2). set_solver.
Qed.

Lemma rdgs_omission_rdg (wits : list string) :
  filter (fun d => is_tei "rdg" d = true)
         (omission_rdg wits :: descendants (omission_rdg wits))
  = [omission_rdg wits].
Proof.
  unfold omission_rdg. cbn [descendants].
  now rewrite filter_cons, decide_True by reflexivity.
Qed.

Lemma omitted_nodup (extant : list string) (child : element) :
  NoDup (witnesses self) -> NoDup (omitted self extant child).
Proof. intros H. unfold omitted. now apply NoDup_filter. Qed.

(** A second pass leaves the apparatus of the first pass as it is. *)
Lemma cover_twice (extant : list string) (child child' : element) :
  Forall siglum (witnesses self) ->
  NoDup (witnesses self) ->
  (forall w, w ∈ extant -> w ∈ witnesses self) ->
  cover self extant child = Ok child' ->
  cover self extant child' = Ok child'.
Proof.
  intros Hsig Hnd Hext H.
  destruct (cover_spec self extant child child' Hsig Hext H) as [Hc' Hcov].
  assert (Hfirst : NoDup (covered child)
                   /\ Forall (fun rdg => is_Some (get rdg "wit")) (xpath_desc "rdg" child)).
  { unfold cover in H. apply rbind_ok in H as (U & HU & _).
    now apply remove_covered_nodup in HU. }
  destruct Hfirst as [Hndc Hwit].
  assert (Hsigo : Forall siglum (omitted self extant child)).
  { apply Forall_forall. intros w Hw. rewrite Forall_forall in Hsig. apply Hsig.
    unfold omitted in Hw. apply list_elem_of_filter in Hw. tauto. }
  assert (Hdisj : forall w, w ∈ covered child -> w ∈ omitted self extant child -> False).
  { intros w Hw Ho. unfold omitted in Ho. apply list_elem_of_filter in Ho. tauto. }
  assert (Hwo : is_Some (get (omission_rdg (omitted self extant child)) "wit"))
    by (unfold omission_rdg; cbn; eauto).
  assert (Hsecond : NoDup (covered child')
                    /\ Forall (fun rdg => is_Some (get rdg "wit")) (xpath_desc "rdg" child')).
  { rewrite Hc'. unfold with_omission.
    destruct (omitted self extant child) as [|w0 wits] eqn:Ho; [auto|].
    rewrite <- Ho in *. pose proof (omitted_nodup extant child Hnd) as Hndo.
    destruct child as [tg a x cs tl]. cbn [tag attrib text children tail].
    destruct (bool_decide _).
    - rewrite covered_eq, xpath_desc_cons, rdgs_omission_rdg, covered_by_app.
      rewrite <- (rdgs_omission_rdg (omitted self extant (Element tg a x cs tl))) at 1.
      rewrite covered_omission_rdg by exact Hsigo. split.
      + apply NoDup_app. split; [exact Hndo|]. split; [|exact Hndc].
        intros w Hw1 Hw2. exact (Hdisj w Hw2 Hw1).
      + constructor; [exact Hwo | exact Hwit].
    - rewrite covered_eq, xpath_desc_snoc, rdgs_omission_rdg, covered_by_app.
      rewrite <- (rdgs_omission_rdg (omitted self extant (Element tg a x cs tl))) at 1.
      rewrite covered_omission_rdg by exact Hsigo. split.
      + apply NoDup_app. split; [exact Hndc|]. split; [|exact Hndo].
        intros w Hw1 Hw2. exact (Hdisj w Hw1 Hw2).
      + apply Forall_app. split; [exact Hwit|]. constructor; [exact Hwo|constructor]. }
  destruct Hsecond as [Hnd' Hwit'].
  unfold cover.
  destruct (remove_covered_total (xpath_desc "rdg" child') (list_to_set extant) Hwit' Hnd')
    as [U' HU'].
  { intros w Hw. apply elem_of_list_to_set. now apply Hcov. }
  rewrite HU'. cbn [rbind].
  apply remove_covered_ok in HU' as [-> _].
  assert (Hempty : (list_to_set extant ∖ list_to_set (covered_by (xpath_desc "rdg" child'))
                    : gset string) = ∅).
  { apply set_eq. intros w. rewrite elem_of_difference, !elem_of_list_to_set.
    change (covered_by (xpath_desc "rdg" child')) with (covered child').
    rewrite Hcov. set_solver. }
  rewrite Hempty, size_empty. reflexivity.
Qed.

Lemma with_omission_tag (extant : list string) (child : element) :
  tag (with_omission self extant child) = tag child
  /\ attrib (with_omission self extant child) = attrib child.
Proof.
  unfold with_omission. destruct (omitted self extant child); [auto|].
  destruct (bool_decide _); auto.
Qed.

Lemma add_omissions_twice (collation collation' : list element)
  (extant : list string) :
  Forall siglum (witnesses self) ->
  NoDup (witnesses self) ->
  (forall w, w ∈ extant -> w ∈ witnesses self) ->
  add_omissions self extant collation = Ok collation' ->
  add_omissions self extant collation' = Ok collation'.
Proof.
  intros Hsig Hnd. revert extant collation'.
  induction collation as [|child rest IH]; intros extant collation' Hext H;
    cbn [add_omissions] in *.
  - now injection H as <-.
  - destruct (is_division self child) eqn:Hdiv.
    + apply rbind_ok in H as (ext & Hx & H).
      apply rbind_ok in H as (rest' & Hrest & H). injection H as <-.
      cbn [add_omissions]. rewrite Hdiv, Hx. cbn [rbind].
      rewrite (IH ext rest'); [reflexivity| |exact Hrest].
      apply extant_at_ok in Hx. intros w Hw. rewrite Hx in Hw.
      apply list_elem_of_filter in Hw. tauto.
    + destruct (String.eqb (raw_tag (tag child)) "app") eqn:Happ.
      * apply rbind_ok in H as (child' & Hc & H).
        apply rbind_ok in H as (rest' & Hrest & H). injection H as <-.
        destruct (cover_spec self extant child child' Hsig Hext Hc) as [Hc' _].
        destruct (with_omission_tag extant child) as [Ht Ha].
        rewrite <- Hc' in Ht, Ha.
        cbn [add_omissions].
        assert (is_division self child' = false) as ->.
        { unfold is_division in *. unfold get in *. now rewrite Ht, Ha. }
        rewrite Ht, Happ. rewrite (cover_twice extant child child' Hsig Hnd Hext Hc).
        cbn [rbind]. now rewrite (IH extant rest' Hext Hrest).
      * apply rbind_ok in H as (rest' & Hrest & H). injection H as <-.
        cbn [add_omissions]. rewrite Hdiv, Happ.
        now rewrite (IH extant rest' Hext Hrest).
Qed.

(** X20.  The omission pass of [collate] is idempotent: when the
    witnesses of the collator are distinct sigla, a second pass over the
    collation that the first pass returned finds every extant witness
    covered and returns that collation unchanged. *)
Theorem collate_omissions_twice (collation collation' : list element) :
  Forall siglum (witnesses self) ->
  NoDup (witnesses self) ->
  collate_omissions self collation = Ok collation' ->
  collate_omissions self collation' = Ok collation'.
Proof.
  intros Hsig Hnd. unfold collate_omissions. apply add_omissions_twice; auto.
  intros w Hw. inversion Hw.
Qed.

End OmissionsTwice.

(** * The further statements at concrete documents *)

(** Evaluates the list that a [Forall] ranges over. *)
Ltac eval_list :=
  match goal with
  | |- Forall _ ?l => let l' := eval vm_compute in l in change l with l'
  end.


(** ** The lemma projection *)

Lemma get_lemma_xml_spec_witness :
  tei_collation_editor.get_lemma_xml Examples.three_witnesses
  = Ok (tei_collation_editor.projection (Examples.el "text" [] [Examples.three_witnesses_body])
          [Examples.w "a"; Examples.seg_marker; Examples.w "b"]).
Proof.
  refine (proj1 (get_lemma_xml_spec Examples.three_witnesses
                   (Examples.el "text" [] [Examples.three_witnesses_body])
                   Examples.three_witnesses_body _ _) _).
  - reflexivity.
  - reflexivity.
  - vm_compute. repeat (constructor; [intros; try discriminate; eexists; reflexivity|]).
    constructor.
Defined.


(** ** update_boundaries *)

Lemma update_boundaries_keeps_lemma_witness :
  flat_map lemma_part
    [Examples.w "a";
     Examples.el "app" []
       [Examples.lem [Examples.w "b"];
        Examples.rdg "#A #B" [Examples.w "b"];
        Examples.rdg "#C" [Examples.w "c"]]]
  = [Examples.w "a"; Examples.w "b"].
Proof.
  refine (proj2 (update_boundaries_keeps_lemma Examples.to_xml
                   Examples.three_witnesses Examples.three_witnesses_body
                   [Examples.w "a";
                    Examples.el "app" []
                      [Examples.lem [Examples.w "b"];
                       Examples.rdg "#A #B" [Examples.w "b"];
                       Examples.rdg "#C" [Examples.w "c"]]] _ _ _ _)).
  - reflexivity.
  - vm_compute. repeat constructor.
  - vm_compute. repeat (constructor; [discriminate|]). constructor.
  - vm_compute. reflexivity.
Defined.


Lemma update_boundaries_unidentified_witness_witness :
  tei_collation_editor.get_witnesses Samples.unidentified = Ok [None; None]
  /\ tei_collation_editor.update_boundaries Examples.to_xml Samples.unidentified
     = Raise TypeError.
Proof.
  split; [reflexivity|].
  refine (update_boundaries_unidentified_witness Examples.to_xml Samples.unidentified
            (Examples.el "body" []
               [Examples.app "1" [Examples.lem [Examples.w "x"];
                                  Examples.rdg "#A" [Examples.w "x"];
                                  Examples.rdg "#B" [Examples.w "y"]]])
            [None; None] _ _ _ _ _ _).
  - reflexivity.
  - apply list_elem_of_here.
  - reflexivity.
  - constructor; [|constructor]. intros _. unfold xpath_desc. eval_list.
    repeat (constructor; [eexists; reflexivity|]). constructor.
  - constructor; [|constructor]. intros _. eexists. reflexivity.
  - apply Exists_cons_hd. split; [reflexivity|]. vm_compute. discriminate.
Defined.

(** ** label and add_types *)

Lemma label_keeps_text_witness :
  exists self' xml',
    tei_labeler.label (U := Examples.canonical_text) tei_labeler.__init__
      (Examples.verse_with [Examples.w "c"])
    = Ok (self', xml')
    /\ skeleton xml' = skeleton (Examples.verse_with [Examples.w "c"]).
Proof.
  eexists. eexists.
  assert (H : forall self' xml',
             tei_labeler.label (U := Examples.canonical_text) tei_labeler.__init__
               (Examples.verse_with [Examples.w "c"]) = Ok (self', xml') ->
             skeleton xml' = skeleton (Examples.verse_with [Examples.w "c"]))
    by (intros self' xml'; apply label_keeps_text).
  split; [vm_compute; reflexivity|]. eapply H. vm_compute. reflexivity.
Defined.

Lemma add_types_few_readings_witness :
  tei_labeler.add_types (U := Examples.canonical_text)
    (Examples.el "body" [] [Examples.w "a"; Examples.el "app" [] [Examples.lem [Examples.w "b"]]])
  = Raise IndexError
  /\ tei_labeler.app_type (U := Examples.canonical_text)
       (Examples.el "app" [] [Examples.lem [Examples.w "b"];
                              Examples.rdg "#A" [Examples.w "c"]])
     = Ok "vocalic".
Proof.
  split.
  - apply (proj1 (add_types_few_readings (U := Examples.canonical_text) _)).
    apply Exists_cons_tl. cbn. apply Exists_cons_tl, Exists_cons_hd.
    split; reflexivity.
  - apply (proj2 (add_types_few_readings (U := Examples.canonical_text) _)
             (Examples.rdg "#A" [Examples.w "c"])).
    reflexivity.
Defined.

(** ** add_indices *)

Lemma add_indices_empty_lemma_witness :
  tei_labeler.add_indices Examples.after_two_words Samples.addition
  = Ok (Examples.after_two_words, set Samples.addition "n" "B04K21V2U5").
Proof.
  apply (add_indices_empty_lemma Examples.after_two_words "04" "21" "2" 4
           [] [] None None None None
           [Examples.rdg "#A" []; Examples.rdg "#B" [Examples.w "c"]]).
  repeat split; vm_compute; reflexivity.
Defined.

Lemma add_indices_division_marker_witness :
  exists self',
    tei_labeler.add_indices Examples.after_two_words (Samples.verse_marker "B04K21V3")
    = Ok (self', Samples.verse_marker "B04K21V3")
    /\ in_verse self' "04" "21" "3" 0.
Proof.
  assert (Hin : in_verse Examples.after_two_words "04" "21" "2" 4)
    by (repeat split; vm_compute; reflexivity).
  assert (Htag : raw_tag (tag (Samples.verse_marker "B04K21V3")) = "divGen")
    by reflexivity.
  apply (proj1 (add_indices_division_marker Examples.after_two_words "04" "21" "2" 4
                  (Samples.verse_marker "B04K21V3") "B04K21" "3" Hin Htag)).
  - reflexivity.
  - reflexivity.
  - repeat (constructor; [discriminate|]). constructor.
Defined.

Lemma add_indices_unknown_division_witness :
  tei_labeler.add_indices Examples.after_two_words
    (Examples.el "body" [] [Examples.w "c"; Examples.seg_marker; Examples.w "d"])
  = Raise KeyError.
Proof.
  refine (add_indices_unknown_division Examples.after_two_words _
            (tei "body") [] None None [Examples.w "c"] [Examples.w "c"]
            [Examples.w "d"] Examples.seg_marker "seg" _ _ _ _ _ _ _).
  - vm_compute. discriminate.
  - vm_compute. discriminate.
  - vm_compute. discriminate.
  - reflexivity.
  - reflexivity.
  - reflexivity.
  - vm_compute. reflexivity.
Defined.

(** ** The text functions *)

(** Points and cantillation marks, dropped in either order: bet with a
    dagesh, a qamats and a merkha. *)
Lemma format_text_order_witness :
  tei_normalizer.format_text (U := Examples.canonical_text)
    [tei_normalizer.pointing; tei_normalizer.cantillation]
    [0x05D1; 0x05BC; 0x05B8; 0x05A5]%N
  = tei_normalizer.format_text (U := Examples.canonical_text)
      [tei_normalizer.cantillation; tei_normalizer.pointing; tei_normalizer.cantillation]
      [0x05D1; 0x05BC; 0x05B8; 0x05A5]%N.
Proof.
  refine (proj1 (format_text_order (U := Examples.canonical_text) _ _ _ _)).
  intros kind. destruct kind; split; intros H;
    first [ apply list_elem_of_here
          | apply list_elem_of_further, list_elem_of_here
          | apply list_elem_of_further, list_elem_of_further, list_elem_of_here
          | exfalso; apply list_elem_of_In in H; cbn in H; intuition discriminate ].
Defined.

Lemma strip_plene_relevant_witness :
  tei_normalizer.strip_plene (U := Examples.canonical_text) (ustr "A B")
  = tei_normalizer.strip_plene (U := Examples.canonical_text) (ustr "B A").
Proof.
  apply (strip_plene_relevant (U := Examples.canonical_text)). reflexivity.
Defined.

(** ** normalize *)


Lemma normalize_resolves_apparatus_witness :
  normalizer.normalize (U := Examples.canonical_text) Samples.ketiv_normalizer
    Samples.transcription
  = Ok (Examples.el "body" []
          [Examples.el "divGen" [("type", "chapter"); ("n", "1")] [];
           Examples.el "divGen" [("type", "verse"); ("n", "1")] [];
           Examples.w "a"; Examples.w "b"])
  /\ Forall (fun d => raw_tag (tag d) <> "app")
       (descendants
          (Examples.el "body" []
             [Examples.el "divGen" [("type", "chapter"); ("n", "1")] [];
              Examples.el "divGen" [("type", "verse"); ("n", "1")] [];
              Examples.w "a"; Examples.w "b"])).
Proof.
  assert (H : normalizer.normalize (U := Examples.canonical_text)
                Samples.ketiv_normalizer Samples.transcription
              = Ok (Examples.el "body" []
                      [Examples.el "divGen" [("type", "chapter"); ("n", "1")] [];
                       Examples.el "divGen" [("type", "verse"); ("n", "1")] [];
                       Examples.w "a"; Examples.w "b"]))
    by (vm_compute; reflexivity).
  split; [exact H|].
  exact (normalize_resolves_apparatus (U := Examples.canonical_text)
           Samples.ketiv_normalizer _ _ "ketiv" eq_refl H).
Defined.

Lemma normalize_drops_ignored_witness :
  Forall (fun d => raw_tag (tag d) ∉ normalizer.ignored_tag_set Samples.ketiv_normalizer)
    (descendants
       (Examples.el "body" []
          [Examples.el "divGen" [("type", "chapter"); ("n", "1")] [];
           Examples.el "divGen" [("type", "verse"); ("n", "1")] [];
           Examples.w "a"; Examples.w "b"])).
Proof.
  apply (normalize_drops_ignored (U := Examples.canonical_text)
           Samples.ketiv_normalizer Samples.transcription).
  - vm_compute. intros H. discriminate.
  - vm_compute. reflexivity.
Defined.


(** ** The omission pass *)

Lemma collate_omissions_twice_witness :
  tei_collator.collate_omissions Examples.three_collator
    [Examples.el "milestone" [("unit", "verse"); ("n", "1")] [];
     Examples.w "a";
     Examples.el "app" []
       [Examples.rdg "#A" [Examples.w "b"]; Examples.rdg "#B" [Examples.w "c"];
        Examples.rdg "#C" []]]
  = Ok [Examples.el "milestone" [("unit", "verse"); ("n", "1")] [];
        Examples.w "a";
        Examples.el "app" []
          [Examples.rdg "#A" [Examples.w "b"]; Examples.rdg "#B" [Examples.w "c"];
           Examples.rdg "#C" []]].
Proof.
  apply (collate_omissions_twice Examples.three_collator Examples.engine_output).
  - repeat (constructor; [split; [reflexivity | repeat constructor]|]). constructor.
  - repeat (constructor; [intros H; apply list_elem_of_In in H; cbn in H; intuition discriminate|]).
    constructor.
  - vm_compute. reflexivity.
Defined.

(** * tei_collator: reading a witness *)

Section ReadingTypes.
Import collator.

Abbreviation type_of := (fun rdg : element => get rdg "type").

Lemma rdg_types_fold (rdgs : list element) (st : list string * gset string) :
  NoDup (fst st) ->
  (forall x, x ∈ snd st <-> x ∈ fst st) ->
  let r := fold_left rdg_types_step rdgs st in
  NoDup (fst r)
  /\ (forall x, x ∈ snd r <-> x ∈ fst r)
  /\ (forall ty, ty ∈ fst r <->
        ty ∈ fst st \/ exists rdg, rdg ∈ rdgs /\ get rdg "type" = Some ty)
  /\ exists ext, fst r = fst st ++ ext /\ sublist ext (omap type_of rdgs).
Proof.
  revert st. induction rdgs as [|rdg rdgs IH]; intros st Hnd Hset; cbn [fold_left].
  - split; [exact Hnd|]. split; [exact Hset|]. split.
    + intros ty. split; [now left|].
      intros [H|(rdg & Hin & _)]; [exact H | inversion Hin].
    + exists []. split; [now rewrite app_nil_r | constructor].
  - assert (Hstep : NoDup (fst (rdg_types_step st rdg))
                    /\ (forall x, x ∈ snd (rdg_types_step st rdg)
                                  <-> x ∈ fst (rdg_types_step st rdg))).
    { unfold rdg_types_step. destruct (get rdg "type") as [ty|]; [|now split].
      case_bool_decide as Hin; [now split|]. cbn [fst snd]. split.
      - apply NoDup_app. repeat split; auto.
        + intros x Hx Hx'. apply list_elem_of_singleton in Hx'. subst x.
          apply Hin, Hset, Hx.
        + apply NoDup_singleton.
      - intros x. rewrite elem_of_union, elem_of_singleton, elem_of_app,
          list_elem_of_singleton, Hset. tauto. }
    destruct Hstep as [Hnd' Hset'].
    destruct (IH _ Hnd' Hset') as (H1 & H2 & H3 & ext & H4 & H5).
    remember (fold_left rdg_types_step rdgs (rdg_types_step st rdg)) as res eqn:Hres.
    clear Hres IH Hnd' Hset'. cbn zeta.
    split; [exact H1|]. split; [exact H2|]. split.
    + intros ty. rewrite H3. unfold rdg_types_step.
      destruct (get rdg "type") as [ty0|] eqn:Hty.
      * case_bool_decide as Hin.
        -- split.
           ++ intros [H|(r0 & Hr & Hg)]; [now left|].
              right. exists r0. split; [now right | exact Hg].
           ++ intros [H|(r0 & Hr & Hg)]; [now left|].
              apply elem_of_cons in Hr as [->|Hr].
              ** left. rewrite Hty in Hg. injection Hg as <-. now apply Hset.
              ** right. now exists r0.
        -- cbn [fst]. rewrite elem_of_app, list_elem_of_singleton. split.
           ++ intros [[H| ->]|(r0 & Hr & Hg)].
              ** now left.
              ** right. exists rdg. split; [now left | exact Hty].
              ** right. exists r0. split; [now right | exact Hg].
           ++ intros [H|(r0 & Hr & Hg)]; [now left; left|].
              apply elem_of_cons in Hr as [->|Hr].
              ** left. right. rewrite Hty in Hg. now injection Hg as <-.
              ** right. now exists r0.
      * split.
        -- intros [H|(r0 & Hr & Hg)]; [now left|].
           right. exists r0. split; [now right | exact Hg].
        -- intros [H|(r0 & Hr & Hg)]; [now left|].
           apply elem_of_cons in Hr as [->|Hr]; [congruence|].
           right. now exists r0.
    + unfold rdg_types_step in H4.
      destruct (get rdg "type") as [ty0|] eqn:Hty;
        cbn [omap list_omap]; rewrite Hty.
      * case_bool_decide as Hin.
        -- exists ext. split; [exact H4|]. now apply sublist_cons.
        -- cbn [fst] in H4. exists (ty0 :: ext). split.
           ++ rewrite H4, <- app_assoc. reflexivity.
           ++ now apply sublist_skip.
      * exists ext. now split.
Qed.

(** X21.  [get_rdg_types] lists every reading type of the document once:
    the list has no repetition, a type is in it exactly when some [rdg]
    of the document carries it, and the types stand in the order in which
    readings of the document carry them. *)
Theorem get_rdg_types_distinct (xml : element) :
  NoDup (get_rdg_types xml)
  /\ (forall ty, ty ∈ get_rdg_types xml <->
        exists rdg, rdg ∈ xpath_all "rdg" xml /\ get rdg "type" = Some ty)
  /\ sublist (get_rdg_types xml) (omap type_of (xpath_all "rdg" xml)).
Proof.
  unfold get_rdg_types.
  destruct (rdg_types_fold (xpath_all "rdg" xml) ([], ∅)) as (H1 & _ & H3 & ext & H4 & H5).
  - constructor.
  - intros x. cbn. rewrite elem_of_empty. split; [tauto | intros H; inversion H].
  - split; [exact H1|]. split.
    + intros ty. rewrite H3. cbn [fst]. split.
      * intros [H|H]; [inversion H | exact H].
      * intros H. now right.
    + rewrite H4. exact H5.
Qed.

End ReadingTypes.

Section TokensByDiv.
Import tei_collator collator.

Variable tostring : element -> string.
Variable self : tei_collator.collator.

Abbreviation loop := (tokens_loop tostring self).
Abbreviation toks := (tokens_of tostring).

Lemma tokens_loop_plain (ts ns ts2 ns2 : list element) tbd dn tokens :
  Forall (fun e => is_division self e = false) ts ->
  length ns = length ts ->
  loop (ts ++ ts2) (ns ++ ns2) tbd dn tokens
  = loop ts2 ns2 tbd dn (tokens ++ toks ts ns).
Proof.
  intros Hplain. revert ns tokens.
  induction Hplain as [|e ts He _ IH]; intros [|n0 ns] tokens Hlen;
    try discriminate.
  - cbn. now rewrite app_nil_r.
  - cbn [app tokens_loop tokens_of]. rewrite He.
    rewrite IH by (cbn in Hlen; lia). now rewrite <- app_assoc.
Qed.

Lemma tokens_loop_prefix (ts ns : list element) tbd dn tokens :
  length ns = length ts ->
  Exists (fun e => is_division self e = true) ts ->
  exists tbd' d' tokens',
    forall ts2 ns2,
      loop (ts ++ ts2) (ns ++ ns2) tbd dn tokens
      = loop ts2 ns2 tbd' (Some d') tokens'.
Proof.
  revert ns tbd dn tokens.
  induction ts as [|e ts IH]; intros [|n0 ns] tbd dn tokens Hlen Hex;
    try discriminate; [inversion Hex|].
  cbn in Hlen.
  destruct (is_division self e) eqn:He.
  - (* a marker: the division is open from here on *)
    assert (Hn : exists d0, get e "n" = Some d0).
    { unfold is_division in He. destruct (get e "n") as [d0|]; [now exists d0|].
      now rewrite andb_false_r in He. }
    destruct Hn as [d0 Hd0].
    destruct (decide (Exists (fun e => is_division self e = true) ts)) as [Hts|Hts].
    + destruct dn as [d1|].
      * destruct (IH ns (<[Some d1 := tokens]> tbd) (get e "n")
                     [token_of tostring e n0]) as (t' & d' & k' & H);
          [lia | exact Hts |].
        exists t', d', k'. intros ts2 ns2.
        cbn [app tokens_loop]. rewrite He. apply H.
      * destruct (IH ns tbd (get e "n") (tokens ++ [token_of tostring e n0]))
          as (t' & d' & k' & H); [lia | exact Hts |].
        exists t', d', k'. intros ts2 ns2.
        cbn [app tokens_loop]. rewrite He. apply H.
    + assert (Hplain : Forall (fun e => is_division self e = false) ts).
      { apply Forall_forall. intros x Hx.
        destruct (is_division self x) eqn:Hdx; [|reflexivity].
        exfalso. apply Hts. apply Exists_exists. now exists x. }
      destruct dn as [d1|].
      * eexists _, d0, _. intros ts2 ns2.
        cbn [app tokens_loop]. rewrite He, Hd0.
        apply tokens_loop_plain; [exact Hplain | lia].
      * eexists _, d0, _. intros ts2 ns2.
        cbn [app tokens_loop]. rewrite He, Hd0.
        apply tokens_loop_plain; [exact Hplain | lia].
  - apply Exists_cons in Hex as [Hex|Hex]; [congruence|].
    destruct (IH ns tbd dn (tokens ++ [token_of tostring e n0]))
      as (t' & d' & k' & H); [lia | exact Hex |].
    exists t', d', k'. intros ts2 ns2.
    cbn [app tokens_loop]. rewrite He. apply H.
Qed.

Lemma tokens_loop_keeps (d : string) (ts ns : list element) tbd dn tokens :
  length ns = length ts ->
  dn <> Some d ->
  Forall (fun e => is_division self e = true -> get e "n" <> Some d) ts ->
  exists r, loop ts ns tbd dn tokens = Ok r
            /\ r !! Some d = tbd !! Some d.
Proof.
  revert ns tbd dn tokens.
  induction ts as [|e ts IH]; intros [|n0 ns] tbd dn tokens Hlen Hdn Hall;
    try discriminate.
  - eexists. split; [reflexivity|]. apply lookup_insert_ne. congruence.
  - cbn in Hlen. apply Forall_cons in Hall as [He Hall].
    cbn [tokens_loop]. destruct (is_division self e) eqn:Hdiv.
    + destruct dn as [d1|].
      * destruct (IH ns (<[Some d1 := tokens]> tbd) (get e "n")
                     [token_of tostring e n0]) as (r & Hr & Hl);
          [lia | now apply He | exact Hall |].
        exists r. split; [exact Hr|]. rewrite Hl.
        apply lookup_insert_ne. congruence.
      * apply IH; [lia | now apply He | exact Hall].
    + apply IH; [lia | exact Hdn | exact Hall].
Qed.

Lemma tokens_loop_division (d : string) (inside after ni na : list element)
  tbd tokens :
  length ni = length inside ->
  length na = length after ->
  Forall (fun e => is_division self e = false) inside ->
  (forall e, head after = Some e -> is_division self e = true) ->
  Forall (fun e => is_division self e = true -> get e "n" <> Some d) after ->
  exists r, loop (inside ++ after) (ni ++ na) tbd (Some d) tokens = Ok r
            /\ r !! Some d = Some (tokens ++ toks inside ni).
Proof.
  intros Hni Hna Hplain Hhead Hafter.
  rewrite tokens_loop_plain by assumption.
  destruct after as [|m2 after]; destruct na as [|n2 na]; try discriminate.
  - eexists. split; [reflexivity|]. apply lookup_insert_eq.
  - cbn in Hna. apply Forall_cons in Hafter as [Hm2 Hafter].
    cbn [tokens_loop]. rewrite (Hhead m2 eq_refl).
    destruct (tokens_loop_keeps d after na
                (<[Some d := tokens ++ toks inside ni]> tbd) (get m2 "n")
                [token_of tostring m2 n2]) as (r & Hr & Hl);
      [lia | apply Hm2, (Hhead m2 eq_refl) | exact Hafter |].
    exists r. split; [exact Hr|]. rewrite Hl. apply lookup_insert_eq.
Qed.

Lemma tokens_loop_returns (ts ns : list element) tbd dn tokens :
  (exists r, loop ts ns tbd dn tokens = Ok r) <-> length ts <= length ns.
Proof.
  revert ns tbd dn tokens.
  induction ts as [|e ts IH]; intros ns tbd dn tokens.
  - cbn. split; [lia | intros _; now eexists].
  - destruct ns as [|n0 ns].
    + cbn. split; [intros [r Hr]; discriminate | lia].
    + cbn [tokens_loop length].
      destruct (is_division self e); [destruct dn|]; rewrite IH; lia.
Qed.

(** X22.  [get_tokens_by_div] files under the number of a division marker
    the tokens of the marker and of the elements up to the next marker,
    when no later marker repeats the number; the elements before the
    first marker of the body are filed with the first division. *)
Theorem get_tokens_by_div_division (t_xml n_xml t_body n_body : element)
  (before inside after nb ni na : list element) (m nm : element) (d : string) :
  head (xpath_all "body" t_xml) = Some t_body ->
  head (xpath_all "body" n_xml) = Some n_body ->
  children t_body = before ++ m :: inside ++ after ->
  children n_body = nb ++ nm :: ni ++ na ->
  length nb = length before ->
  length ni = length inside ->
  length na = length after ->
  is_division self m = true ->
  get m "n" = Some d ->
  Forall (fun e => is_division self e = false) inside ->
  (forall e, head after = Some e -> is_division self e = true) ->
  Forall (fun e => is_division self e = true -> get e "n" <> Some d) after ->
  exists r,
    get_tokens_by_div tostring self t_xml n_xml = Ok r
    /\ r !! Some d
       = Some ((if existsb (is_division self) before then []
                else toks before nb)
               ++ toks (m :: inside) (nm :: ni)).
Proof.
  intros Ht Hn Hts Hns Hnb Hni Hna Hm Hd Hplain Hhead Hafter.
  unfold get_tokens_by_div. rewrite Ht, Hn. cbn [of_option rbind].
  rewrite Hts, Hns. cbn [tokens_of].
  destruct (existsb (is_division self) before) eqn:Hex.
  - assert (Hex' : Exists (fun e => is_division self e = true) before).
    { apply existsb_exists in Hex as (x & Hx & Hdx).
      apply Exists_exists. exists x. split; [now apply list_elem_of_In | exact Hdx]. }
    destruct (tokens_loop_prefix before nb ∅ None [] Hnb Hex')
      as (t' & d' & k' & H).
    rewrite H. cbn [tokens_loop]. rewrite Hm, Hd.
    destruct (tokens_loop_division d inside after ni na
                (<[Some d' := k']> t') [token_of tostring m nm])
      as (r & Hr & Hl); try assumption.
    exists r. split; [exact Hr|]. rewrite Hl. reflexivity.
  - assert (Hb : Forall (fun e => is_division self e = false) before).
    { apply Forall_forall. intros x Hx.
      destruct (is_division self x) eqn:Hdx; [|reflexivity].
      assert (existsb (is_division self) before = true); [|congruence].
      apply existsb_exists. exists x. split; [now apply list_elem_of_In | exact Hdx]. }
    rewrite tokens_loop_plain by assumption.
    cbn [tokens_loop app]. rewrite Hm, Hd.
    destruct (tokens_loop_division d inside after ni na ∅
                (toks before nb ++ [token_of tostring m nm]))
      as (r & Hr & Hl); try assumption.
    exists r. split; [exact Hr|]. rewrite Hl, <- app_assoc. reflexivity.
Qed.

(** X23.  For a body without division markers of the level,
    [get_tokens_by_div] returns a dictionary of one entry, keyed by
    [None], that holds the tokens of all the elements. *)
Theorem get_tokens_by_div_undivided (t_xml n_xml t_body n_body : element) :
  head (xpath_all "body" t_xml) = Some t_body ->
  head (xpath_all "body" n_xml) = Some n_body ->
  Forall (fun e => is_division self e = false) (children t_body) ->
  length (children n_body) = length (children t_body) ->
  get_tokens_by_div tostring self t_xml n_xml
  = Ok {[ None := toks (children t_body) (children n_body) ]}.
Proof.
  intros Ht Hn Hplain Hlen.
  unfold get_tokens_by_div. rewrite Ht, Hn. cbn [of_option rbind].
  rewrite <- (app_nil_r (children t_body)) at 1.
  rewrite <- (app_nil_r (children n_body)) at 1.
  rewrite tokens_loop_plain by assumption. reflexivity.
Qed.

(** X24.  [get_tokens_by_div] takes the unformatted element at the
    position of each formatted one: it returns exactly when the body of
    the unformatted tree has at least as many children as that of the
    formatted tree, and raises [IndexError] when it has fewer. *)
Theorem get_tokens_by_div_alignment (t_xml n_xml t_body n_body : element) :
  head (xpath_all "body" t_xml) = Some t_body ->
  head (xpath_all "body" n_xml) = Some n_body ->
  (length (children t_body) <= length (children n_body) ->
   exists r, get_tokens_by_div tostring self t_xml n_xml = Ok r)
  /\ (length (children n_body) < length (children t_body) ->
      get_tokens_by_div tostring self t_xml n_xml = Raise IndexError).
Proof.
  intros Ht Hn.
  unfold get_tokens_by_div. rewrite Ht, Hn. cbn [of_option rbind].
  split.
  - intros Hle. now apply tokens_loop_returns.
  - generalize (children n_body), (∅ : gmap (option string) (list token)),
      (@None string), (@nil token).
    induction (children t_body) as [|e ts IH]; intros ns tbd dn tokens Hlt.
    + cbn in Hlt. lia.
    + destruct ns as [|n0 ns]; [reflexivity|].
      cbn in Hlt. cbn [tokens_loop].
      destruct (is_division self e); [destruct dn|]; apply IH; lia.
Qed.

End TokensByDiv.

(** ** The theorems at concrete documents *)

Lemma get_tokens_by_div_division_witness :
  exists r,
    collator.get_tokens_by_div Examples.to_xml Examples.three_collator
      Samples.two_verses Samples.two_verses = Ok r
    /\ r !! Some "1"
       = Some (tokens_of Examples.to_xml
                 [Examples.w "a"; Samples.milestone "1"; Examples.w "b"]
                 [Examples.w "a"; Samples.milestone "1"; Examples.w "b"]).
Proof.
  apply (get_tokens_by_div_division Examples.to_xml Examples.three_collator
           Samples.two_verses Samples.two_verses
           Samples.two_verses Samples.two_verses
           [Examples.w "a"] [Examples.w "b"]
           [Samples.milestone "2"; Examples.w "c"]
           [Examples.w "a"] [Examples.w "b"]
           [Samples.milestone "2"; Examples.w "c"]
           (Samples.milestone "1") (Samples.milestone "1") "1").
  - reflexivity.
  - reflexivity.
  - reflexivity.
  - reflexivity.
  - reflexivity.
  - reflexivity.
  - reflexivity.
  - reflexivity.
  - reflexivity.
  - repeat constructor.
  - intros e He. injection He as <-. reflexivity.
  - repeat (constructor; [intros _; discriminate|]). constructor.
Defined.

Lemma get_tokens_by_div_undivided_witness :
  collator.get_tokens_by_div Examples.to_xml Examples.three_collator
    (Examples.el "body" [] [Examples.w "a"; Examples.w "b"])
    (Examples.el "body" [] [Examples.w "a"; Examples.w "b"])
  = Ok {[ None := tokens_of Examples.to_xml
                    [Examples.w "a"; Examples.w "b"]
                    [Examples.w "a"; Examples.w "b"] ]}.
Proof.
  apply (get_tokens_by_div_undivided Examples.to_xml Examples.three_collator
           (Examples.el "body" [] [Examples.w "a"; Examples.w "b"])
           (Examples.el "body" [] [Examples.w "a"; Examples.w "b"])
           (Examples.el "body" [] [Examples.w "a"; Examples.w "b"])
           (Examples.el "body" [] [Examples.w "a"; Examples.w "b"])).
  - reflexivity.
  - reflexivity.
  - repeat constructor.
  - reflexivity.
Defined.

Lemma get_tokens_by_div_alignment_witness :
  collator.get_tokens_by_div Examples.to_xml Examples.three_collator
    Samples.two_verses (Examples.el "body" [] [Examples.w "a"])
  = Raise IndexError.
Proof.
  refine (proj2 (get_tokens_by_div_alignment Examples.to_xml
                   Examples.three_collator
                   Samples.two_verses (Examples.el "body" [] [Examples.w "a"])
                   Samples.two_verses (Examples.el "body" [] [Examples.w "a"])
                   _ _) _).
  - reflexivity.
  - reflexivity.
  - cbn. lia.
Defined.
